(** * hetio: abbreviation assignment and DWPC query construction

    A shallow embedding of [hetio/abbreviation.py] and of the query
    builders of [hetio/neo4j.py].

    Modelling conventions.
    - A Python [str] is the [string] of its characters.  Only ASCII
      text is modelled exactly: [lower], [upper], [title], [isupper] and
      [islower] below are [str.lower], [str.upper], [str.title],
      [str.isupper] and [str.islower] on the strings that satisfy
      [isascii], where they act on the letters [A-Z] / [a-z] alone.
      Beyond ASCII the Python methods follow the Unicode case mappings,
      which these definitions do not give; a property that depends on
      the case mapping is therefore stated for ASCII names.
    - A Python [dict] is an association list in insertion order with
      pairwise distinct keys ([d[k] = v] overwrites in place or appends).
    - A Python [set] of strings is a list without repetition; only
      membership and emptiness are ever observed.
    - A function that can raise returns a [result]; the [while] loop of
      [find_abbrevs] runs on fuel and answers [None] when the fuel is
      used up before the loop condition becomes false. *)

From Stdlib Require Import List Arith Lia Bool.
From Stdlib Require Import Ascii String DecimalString.
From Stdlib Require Import ZArith.
Import ListNotations.

Local Open Scope string_scope.
Local Open Scope list_scope.
Local Open Scope nat_scope.

(** ** Python values shared by both modules *)

Inductive exn : Set :=
| IndexError
| AssertionError
| ValueError.

Inductive result (A : Type) : Type :=
| Ok (a : A)
| Raise (e : exn).

Arguments Ok {A} a.
Arguments Raise {A} e.

Definition bind {A B : Type} (r : result A) (k : A -> result B) : result B :=
  match r with
  | Ok a => k a
  | Raise e => Raise e
  end.

Notation "x <- r ;; k" := (bind r (fun x => k))
  (at level 61, r at next level, right associativity).

(** *** Strings *)

Definition is_upper_ascii (c : ascii) : bool :=
  let n := nat_of_ascii c in (65 <=? n) && (n <=? 90).

Definition is_lower_ascii (c : ascii) : bool :=
  let n := nat_of_ascii c in (97 <=? n) && (n <=? 122).

Definition lower_ascii (c : ascii) : ascii :=
  if is_upper_ascii c then ascii_of_nat (nat_of_ascii c + 32) else c.

Definition upper_ascii (c : ascii) : ascii :=
  if is_lower_ascii c then ascii_of_nat (nat_of_ascii c - 32) else c.

Fixpoint map_string (f : ascii -> ascii) (s : string) : string :=
  match s with
  | EmptyString => EmptyString
  | String c s' => String (f c) (map_string f s')
  end.

(** [str.isascii]: every character is below 128. *)
Definition is_ascii_char (c : ascii) : bool := nat_of_ascii c <? 128.

Fixpoint isascii (s : string) : bool :=
  match s with
  | EmptyString => true
  | String c s' => is_ascii_char c && isascii s'
  end.

(** [str.lower] and [str.upper] of an ASCII string. *)
Definition lower : string -> string := map_string lower_ascii.
Definition upper : string -> string := map_string upper_ascii.

Fixpoint existsb_string (p : ascii -> bool) (s : string) : bool :=
  match s with
  | EmptyString => false
  | String c s' => p c || existsb_string p s'
  end.

(** [str.isupper] of an ASCII string: at least one cased character and
    no lowercase one. *)
Definition isupper (s : string) : bool :=
  existsb_string is_upper_ascii s && negb (existsb_string is_lower_ascii s).

(** [str.islower] of an ASCII string: at least one cased character and
    no uppercase one. *)
Definition islower (s : string) : bool :=
  existsb_string is_lower_ascii s && negb (existsb_string is_upper_ascii s).

(** [s.replace(old, new)] for a one-character [old]. *)
Fixpoint replace_char (old : ascii) (new : string) (s : string) : string :=
  match s with
  | EmptyString => EmptyString
  | String c s' =>
      if Ascii.eqb c old then (new ++ replace_char old new s')%string
      else String c (replace_char old new s')
  end.

(** ['{}'.format(n)] for a non-negative [int]. *)
Definition format_nat (n : nat) : string :=
  NilEmpty.string_of_uint (Nat.to_uint n).

(** [sep.join(parts)]. *)
Definition join (sep : string) (parts : list string) : string :=
  String.concat sep parts.

(** *** Dictionaries *)

Section Dict.
Context {K V : Type}.
Variable eqb_key : K -> K -> bool.

Fixpoint dict_get (d : list (K * V)) (k : K) : option V :=
  match d with
  | [] => None
  | (k', v) :: rest => if eqb_key k' k then Some v else dict_get rest k
  end.

(** [d[k] = v] *)
Fixpoint dict_set (d : list (K * V)) (k : K) (v : V) : list (K * V) :=
  match d with
  | [] => [(k, v)]
  | (k', v') :: rest =>
      if eqb_key k' k then (k', v) :: rest
      else (k', v') :: dict_set rest k v
  end.
End Dict.

(** [d.setdefault(k, list()).append(x)] *)
Fixpoint setdefault_append {K X : Type} (eqb_key : K -> K -> bool)
    (d : list (K * list X)) (k : K) (x : X) : list (K * list X) :=
  match d with
  | [] => [(k, [x])]
  | (k', l) :: rest =>
      if eqb_key k' k then (k', l ++ [x]) :: rest
      else (k', l) :: setdefault_append eqb_key rest k x
  end.

(** [enumerate(l)] *)
Definition enumerate {A : Type} (l : list A) : list (nat * A) :=
  combine (seq 0 (List.length l)) l.

Definition dict : Set := list (string * string).

Definition get : dict -> string -> option string := dict_get String.eqb.
Definition setitem : dict -> string -> string -> dict := dict_set String.eqb.
Definition keys (d : dict) : list string := map fst d.
Definition values (d : dict) : list string := map snd d.

Definition mem (x : string) (l : list string) : bool :=
  if in_dec string_dec x l then true else false.

(** ** [hetio/abbreviation.py] *)

(** [get_duplicates]: the elements that appear more than once. *)
Definition get_duplicates (iterable : list string) : list string :=
  filter (fun key => 1 <? count_occ string_dec iterable key)
         (nodup string_dec iterable).

(** [{kind: kind[0].lower() for kind in kinds}]; [kind[0]] raises on
    the empty string. *)
Fixpoint first_letters (kinds : list string) (kind_to_abbrev : dict)
  : result dict :=
  match kinds with
  | [] => Ok kind_to_abbrev
  | kind :: rest =>
      match kind with
      | EmptyString => Raise IndexError
      | String c _ =>
          first_letters rest
            (setitem kind_to_abbrev kind (String (lower_ascii c) EmptyString))
      end
  end.

(** [abbrev in duplicates and len(abbrev) < len(kind)] *)
Definition extendable (duplicates : list string) (kind abbrev : string) : bool :=
  mem abbrev duplicates && (String.length abbrev <? String.length kind).

(** [abbrev += kind[len(abbrev)].lower()]; it is only evaluated under the
    guard above, where the index is in range and [kind[len(abbrev)]] is
    the one-character [substring]. *)
Definition extension (kind abbrev : string) : string :=
  (abbrev ++ lower (substring (String.length abbrev) 1 kind))%string.

(** One pass of the [for] loop over the snapshot
    [list(kind_to_abbrev.items())]. *)
Definition sweep (duplicates : list string) (kind_to_abbrev : dict) : dict :=
  fold_left
    (fun d item =>
       let kind := fst item in
       let abbrev := snd item in
       if extendable duplicates kind abbrev
       then setitem d kind (extension kind abbrev)
       else d)
    kind_to_abbrev kind_to_abbrev.

(** [while duplicates: ...] *)
Fixpoint disambiguate (fuel : nat) (kind_to_abbrev : dict) : option dict :=
  match get_duplicates (values kind_to_abbrev) with
  | [] => Some kind_to_abbrev
  | duplicates =>
      match fuel with
      | O => None
      | S fuel' => disambiguate fuel' (sweep duplicates kind_to_abbrev)
      end
  end.

Definition find_abbrevs (fuel : nat) (kinds : list string)
  : option (result dict) :=
  match first_letters kinds [] with
  | Raise e => Some (Raise e)
  | Ok kind_to_abbrev =>
      match disambiguate fuel kind_to_abbrev with
      | Some d => Some (Ok d)
      | None => None
      end
  end.

(** What the two functions below read from a [hetio.hetnet.MetaGraph]
    and from the kinds it holds (the object model itself lives in
    [hetio/hetnet.py]). *)
Record MetaNode : Type := {
  identifier : string;
  abbrev : string                (* metanode.abbrev *)
}.

Record MetaEdge : Type := {
  source : string;               (* metaedge.get_id()[0] *)
  target : string;               (* metaedge.get_id()[1] *)
  kind : string;                 (* metaedge.get_id()[2], metaedge.kind *)
  direction : string;            (* metaedge.get_id()[3] *)
  kind_abbrev : string;          (* metaedge.kind_abbrev *)
  get_abbrev : string            (* metaedge.get_abbrev() *)
}.

(** A key of [metagraph.edge_dict]: (source kind, target kind, kind, direction). *)
Definition edge_id : Type := (string * string * string * string)%type.

Record MetaGraph : Type := {
  node_dict_keys : list string;  (* metagraph.node_dict.keys() *)
  edge_dict_keys : list edge_id; (* metagraph.edge_dict.keys() *)
  get_nodes : list MetaNode;     (* set(metagraph.get_nodes()) *)
  get_edges : list MetaEdge;     (* set(metagraph.get_edges(exclude_inverts=False)) *)
  kind_to_abbrev : dict          (* metagraph.kind_to_abbrev *)
}.

(** *** [validate_abbreviations] *)

(** The lines the validator prints. *)
Inductive diagnostic : Type :=
| DuplicatedKinds (duplicated_kinds : list string)
| DuplicatedMetanodeAbbrevs (duplicated : list string)
| LowercaseMetanodeAbbrev (abbrev : string)
| UppercaseMetaedgeAbbrev (abbrev : string)
| DuplicatedMetaedgeAbbrevs (duplicated : list string).

(** [if s: print(...); valid = False] on the state (valid, printed). *)
Definition report_if_nonempty (s : list string) (line : diagnostic)
    (st : bool * list diagnostic) : bool * list diagnostic :=
  match s with
  | [] => st
  | _ => (false, snd st ++ [line])
  end.

Definition report_unless (ok : bool) (line : diagnostic)
    (st : bool * list diagnostic) : bool * list diagnostic :=
  if ok then st else (false, snd st ++ [line]).

Definition validate_abbreviations (metagraph : MetaGraph)
  : bool * list diagnostic :=
  let st := (true, []) in
  let metanodes := get_nodes metagraph in
  let metaedges := get_edges metagraph in
  (* Duplicated metanode and metaedge kinds *)
  let metanode_kinds := nodup string_dec (map identifier metanodes) in
  let metaedge_kinds := nodup string_dec (map kind metaedges) in
  let duplicated_kinds :=
    filter (fun k => mem k metaedge_kinds) metanode_kinds in
  let st := report_if_nonempty duplicated_kinds
              (DuplicatedKinds duplicated_kinds) st in
  (* Check that metanodes do not have any duplicated abbreviations *)
  let metanode_kind_to_abbrev :=
    filter (fun kv => mem (fst kv) metanode_kinds) (kind_to_abbrev metagraph) in
  let duplicated_metanode_abbrevs :=
    get_duplicates (values metanode_kind_to_abbrev) in
  let st := report_if_nonempty duplicated_metanode_abbrevs
              (DuplicatedMetanodeAbbrevs duplicated_metanode_abbrevs) st in
  (* metanode abbreviations should be uppercase *)
  let st :=
    fold_left
      (fun st metanode =>
         report_unless (isupper (abbrev metanode))
           (LowercaseMetanodeAbbrev (abbrev metanode)) st)
      metanodes st in
  (* metaedge abbreviations should be lowercase *)
  let st :=
    fold_left
      (fun st metaedge =>
         report_unless (islower (kind_abbrev metaedge))
           (UppercaseMetaedgeAbbrev (kind_abbrev metaedge)) st)
      metaedges st in
  (* Check that metaedges are not ambigious *)
  let metaedge_abbrevs := map get_abbrev metaedges in
  let duplicated_meataedge_abbrevs := get_duplicates metaedge_abbrevs in
  let st := report_if_nonempty duplicated_meataedge_abbrevs
              (DuplicatedMetaedgeAbbrevs duplicated_meataedge_abbrevs) st in
  st.

(** *** [create_abbreviations] *)

(** A [frozenset] of strings, compared by mutual inclusion. *)
Definition frozenset : Type := list string.

Definition subset (a b : frozenset) : bool := forallb (fun x => mem x b) a.
Definition frozenset_eqb (a b : frozenset) : bool := subset a b && subset b a.

(** The first [for] loop: edge kinds grouped by the unordered pair of
    their lowercased endpoint kinds. *)
Definition group_edges (edge_keys : list edge_id)
  : list (frozenset * list string) :=
  fold_left
    (fun edge_set_to_keys (edge : edge_id) =>
       let '(source_kind, target_kind, value, _) := edge in
       let key := [lower source_kind; lower target_kind] in
       setdefault_append frozenset_eqb edge_set_to_keys key value)
    edge_keys [].

(** The body of the innermost loop: keep [previous_abbrev] when it is
    truthy and at least as long as [abbrev]. *)
Definition merge_abbrev (kind_to_abbrev : dict) (key abbrev : string) : dict :=
  match get kind_to_abbrev key with
  | Some previous_abbrev =>
      if negb (String.eqb previous_abbrev "")
         && (String.length abbrev <=? String.length previous_abbrev)
      then kind_to_abbrev
      else setitem kind_to_abbrev key abbrev
  | None => setitem kind_to_abbrev key abbrev
  end.

Definition merge_group (kind_to_abbrev key_to_abbrev : dict) : dict :=
  fold_left (fun d item => merge_abbrev d (fst item) (snd item))
            key_to_abbrev kind_to_abbrev.

(** The second [for] loop over [list(edge_set_to_keys.items())]. *)
Fixpoint merge_groups (fuel : nat) (groups : list (frozenset * list string))
    (kind_to_abbrev : dict) : option (result dict) :=
  match groups with
  | [] => Some (Ok kind_to_abbrev)
  | (_, keys) :: rest =>
      match find_abbrevs fuel keys with
      | None => None
      | Some (Raise e) => Some (Raise e)
      | Some (Ok key_to_abbrev) =>
          merge_groups fuel rest (merge_group kind_to_abbrev key_to_abbrev)
      end
  end.

Definition create_abbreviations (fuel : nat) (metagraph : MetaGraph)
  : option (result dict) :=
  match find_abbrevs fuel (node_dict_keys metagraph) with
  | None => None
  | Some (Raise e) => Some (Raise e)
  | Some (Ok kind_to_abbrev) =>
      let kind_to_abbrev :=
        map (fun item => (fst item, upper (snd item))) kind_to_abbrev in
      let edge_set_to_keys := group_edges (edge_dict_keys metagraph) in
      merge_groups fuel edge_set_to_keys kind_to_abbrev
  end.

(** ** [hetio/neo4j.py]: query construction *)

Definition nl : string := String (ascii_of_nat 10) EmptyString.

Definition is_cased (c : ascii) : bool := is_upper_ascii c || is_lower_ascii c.

(** [str.title] of an ASCII string: a cased character is uppercased
    after an uncased one (or at the start) and lowercased after a cased
    one. *)
Fixpoint title_from (previous_is_cased : bool) (s : string) : string :=
  match s with
  | EmptyString => EmptyString
  | String c s' =>
      if is_cased c
      then String (if previous_is_cased then lower_ascii c else upper_ascii c)
                  (title_from true s')
      else String c (title_from false s')
  end.

Definition title : string -> string := title_from false.

(** Convert metanode to a label-formatted str. *)
Definition as_label (metanode : string) : string :=
  let label := metanode in
  let label := title label in
  let label := replace_char " " "" label in
  label.

(** A metarel: (source_label, target_label, rel_type, direction). *)
Definition metarel : Type := (string * string * string * string)%type.

Definition source_label (m : metarel) : string := fst (fst (fst m)).
Definition target_label (m : metarel) : string := snd (fst (fst m)).

(** [itertools.combinations(l, 2)] *)
Fixpoint combinations2 {A : Type} (l : list A) : list (A * A) :=
  match l with
  | [] => []
  | x :: rest => map (pair x) rest ++ combinations2 rest
  end.

(** The argument of [format_expanded_clause]: an iterator object is
    always truthy, a list is truthy when it is not empty. *)
Inductive iterable (A : Type) : Type :=
| Iterator (items : list A)
| PyList (items : list A).

Arguments Iterator {A} items.
Arguments PyList {A} items.

Definition items_of {A : Type} (it : iterable A) : list A :=
  match it with
  | Iterator items => items
  | PyList items => items
  end.

Definition truthy {A : Type} (it : iterable A) : bool :=
  match it with
  | Iterator _ => true
  | PyList [] => false
  | PyList (_ :: _) => true
  end.

Definition format_pair (p : nat * nat) : string :=
  ("n" ++ format_nat (fst p) ++ " = n" ++ format_nat (snd p))%string.

Definition format_expanded_clause (pairs : iterable (nat * nat)) : string :=
  if negb (truthy pairs) then ""
  else
    let pair_str := join " OR " (map format_pair (items_of pairs)) in
    (nl ++ "AND NOT (" ++ pair_str ++ ")")%string.

(** The values [unique_nodes] may be bound to. *)
Inductive pyvalue : Type :=
| PyNone
| PyBool (b : bool)
| PyInt (n : nat)
| PyStr (s : string).

Definition is_str (v : pyvalue) (s : string) : bool :=
  match v with
  | PyStr s' => String.eqb s' s
  | _ => false
  end.

Definition is_True (v : pyvalue) : bool :=
  match v with PyBool true => true | _ => false end.

Definition is_False (v : pyvalue) : bool :=
  match v with PyBool false => true | _ => false end.

Definition dir0 (direction : string) : string :=
  if String.eqb direction "backward" then "<-" else "-".

Definition dir1 (direction : string) : string :=
  if String.eqb direction "forward" then "->" else "-".

(** [l[i]] for [i >= 0] *)
Definition item_at {A : Type} (l : list A) (i : nat) : result A :=
  match nth_error l i with
  | Some x => Ok x
  | None => Raise IndexError
  end.

(** [l[-1]] *)
Definition last_item {A : Type} (l : list A) : result A :=
  match rev l with
  | [] => Raise IndexError
  | x :: _ => Ok x
  end.

(** [label_to_nodes] of the [labeled] branch. *)
Definition group_positions (labels : list string) : list (string * list nat) :=
  fold_left
    (fun label_to_nodes (item : nat * string) =>
       setdefault_append String.eqb label_to_nodes (snd item) (fst item))
    (enumerate labels) [].

(** [for nodes in label_to_nodes.values(): pairs.extend(combinations(nodes, 2))] *)
Definition labeled_pairs (labels : list string) : list (nat * nat) :=
  fold_left (fun pairs nodes => pairs ++ combinations2 nodes)
            (map snd (group_positions labels)) [].

(** The positions' labels read by the [labeled] branch. *)
Definition position_labels (metarels : list metarel) : result (list string) :=
  let labels := map source_label metarels in
  last <- last_item metarels ;;
  Ok (labels ++ [target_label last]).

(** [range(len(metarels) + 1)] *)
Definition positions (metarels : list metarel) : list nat :=
  seq 0 (List.length metarels + 1).

(** The branch on [unique_nodes]. *)
Definition unique_nodes_clause (metarels : list metarel)
    (unique_nodes : pyvalue) : result string :=
  if is_True unique_nodes || is_str unique_nodes "nested" then
    Ok (nl ++ "AND ALL (x IN nodes(paths) WHERE size(filter(z IN nodes(paths) WHERE z = x)) = 1)")%string
  else if is_str unique_nodes "expanded" then
    let pairs := Iterator (combinations2 (positions metarels)) in
    Ok (format_expanded_clause pairs)
  else if is_str unique_nodes "labeled" then
    labels <- position_labels metarels ;;
    let pairs := PyList (labeled_pairs labels) in
    Ok (format_expanded_clause pairs)
  else if is_False unique_nodes then Ok ""
  else Raise AssertionError.

Definition degree_str (item : nat * metarel) : string :=
  let '(i, (_, _, rel_type, direction)) := item in
  ("size((n" ++ format_nat i ++ ")" ++ dir0 direction ++ "[:" ++ rel_type
     ++ "]" ++ dir1 direction ++ "())," ++ nl
     ++ "size(()" ++ dir0 direction ++ "[:" ++ rel_type ++ "]"
     ++ dir1 direction ++ "(n" ++ format_nat (i + 1) ++ "))")%string.

(** The first argument of [cypher_path] and [construct_dwpc_query]. *)
Inductive path_arg : Type :=
| Metarels (metarels : list metarel)
| MetaPath (edges : list MetaEdge).

Section Neo4j.
(** [hetio.abbreviation.arrange_metaege], imported by [hetio/neo4j.py]. *)
Variable arrange_metaege : string -> string.

(** Convert metaedge to a rel_type-formatted str. *)
Definition as_type (metaedge : MetaEdge) : string :=
  let rel_type := kind metaedge in
  let rel_type := upper rel_type in
  let rel_type := replace_char " " "_" rel_type in
  let abbrev := get_abbrev metaedge in
  let abbrev := arrange_metaege abbrev in
  let abbrev := replace_char ">" "" (replace_char "<" "" abbrev) in
  (rel_type ++ "_" ++ abbrev)%string.

Definition metaedge_to_metarel (metaedge : MetaEdge) : metarel :=
  (as_label (source metaedge), as_label (target metaedge),
   as_type metaedge, direction metaedge).

Definition metapath_to_metarels (metapath : list MetaEdge) : list metarel :=
  map metaedge_to_metarel metapath.

(** [if isinstance(metarels, hetio.hetnet.MetaPath): ...] *)
Definition to_metarels (arg : path_arg) : list metarel :=
  match arg with
  | Metarels metarels => metarels
  | MetaPath edges => metapath_to_metarels edges
  end.

(** Format a metapath for cypher. *)
Definition cypher_path (arg : path_arg) : result string :=
  let metarels := to_metarels arg in
  match metarels with
  | [] => Raise IndexError
  | first :: _ =>
      let q := ("(n0:" ++ source_label first ++ ")")%string in
      Ok (fold_left
            (fun q (item : nat * metarel) =>
               let '(i, (_, target_label, rel_type, direction)) := item in
               let target_label :=
                 if i + 1 =? List.length metarels
                 then (":" ++ target_label)%string else "" in
               (q ++ dir0 direction ++ "[:" ++ rel_type ++ "]"
                  ++ dir1 direction ++ "(n" ++ format_nat (i + 1)
                  ++ target_label ++ ")")%string)
            (enumerate metarels) q)
  end.

(** Create a cypher query for computing the DWPC for a type of path. *)
Definition construct_dwpc_query (arg : path_arg) (property : string)
    (using_ : bool) (unique_nodes : pyvalue) : result string :=
  let metarels := to_metarels arg in
  metapath_query <- cypher_path (Metarels metarels) ;;
  let degree_query := join ("," ++ nl) (map degree_str (enumerate metarels)) in
  using_query <-
    (if using_ then
       first <- item_at metarels 0 ;;
       last <- last_item metarels ;;
       Ok ("USING INDEX n0:" ++ source_label first ++ "(" ++ property ++ ")"
             ++ nl ++ "USING INDEX n" ++ format_nat (List.length metarels)
             ++ ":" ++ target_label last ++ "(" ++ property ++ ")" ++ nl)%string
     else Ok "") ;;
  unique_nodes_query <- unique_nodes_clause metarels unique_nodes ;;
  Ok ("MATCH paths = " ++ metapath_query ++ nl
        ++ using_query ++ "WHERE n0." ++ property ++ " = { source }" ++ nl
        ++ "AND n" ++ format_nat (List.length metarels) ++ "." ++ property
        ++ " = { target }" ++ unique_nodes_query ++ nl
        ++ "WITH" ++ nl
        ++ "[" ++ nl
        ++ degree_query ++ nl
        ++ "] AS degrees, paths" ++ nl
        ++ "RETURN" ++ nl
        ++ "count(paths) AS PC," ++ nl
        ++ "sum(reduce(pdp = 1.0, d in degrees| pdp * d ^ -{ w })) AS DWPC"
        ++ "        ")%string.
End Neo4j.

(** ** [hetio/neo4j.py]: batch creation and property sanitizing *)

(** [class Creator(list)]: the queue is the list itself; [db_calls] logs,
    in order, the argument lists of the calls of [self.db_graph.create]. *)
Record Creator (X : Type) : Type := {
  queue : list X;
  db_calls : list (list X);
  max_queue_size : Z;
  n_created : nat
}.

Arguments queue {X} _.
Arguments db_calls {X} _.
Arguments max_queue_size {X} _.
Arguments n_created {X} _.

(** [Creator(db_graph, max_queue_size)] on a graph with no call yet. *)
Definition new_creator {X : Type} (max_queue_size : Z) : Creator X :=
  {| queue := []; db_calls := []; max_queue_size := max_queue_size;
     n_created := 0 |}.

(** [Creator.create] *)
Definition create {X : Type} (self : Creator X) : Creator X :=
  match queue self with
  | [] => self
  | _ =>
      {| queue := [];
         db_calls := db_calls self ++ [queue self];
         max_queue_size := max_queue_size self;
         n_created := n_created self + List.length (queue self) |}
  end.

(** [Creator.append] *)
Definition append {X : Type} (self : Creator X) (x : X) : Creator X :=
  let self :=
    {| queue := queue self ++ [x];
       db_calls := db_calls self;
       max_queue_size := max_queue_size self;
       n_created := n_created self |} in
  if (Z.of_nat (List.length (queue self)) >=? max_queue_size self)%Z
  then create self
  else self.

(** The use made of a creator by [export_neo4j]: append every item,
    then create what is left. *)
Definition create_all {X : Type} (max_queue_size : Z) (items : list X)
  : Creator X :=
  create (fold_left append items (new_creator max_queue_size)).

(** The values of a property dictionary, as far as [sanitize_data]
    tells them apart. *)
Inductive pydata : Type :=
| DataNone
| DataList (items : list string)
| DataOther (repr : string).

Definition is_list (v : pydata) : bool :=
  match v with DataList _ => true | _ => false end.

Definition is_None (v : pydata) : bool :=
  match v with DataNone => true | _ => false end.

(** What [pandas.isnull(v)] is worth as the condition of an [if]: for a
    scalar it is a boolean; for an array-like value it is an array of
    booleans, whose truth value is ambiguous and raises [ValueError]. *)
Inductive truth : Set :=
| Truth (b : bool)
| AmbiguousTruth.

Section Sanitize.
(** [pandas.isnull], up to the truth value of its answer. *)
Variable isnull : pydata -> truth.

(** The [for] loop over [data.items()]. *)
Fixpoint sanitize_items (items : list (string * pydata))
    (sanitized : list (string * pydata)) : result (list (string * pydata)) :=
  match items with
  | [] => Ok sanitized
  | (k, v) :: rest =>
      if is_list v then sanitize_items rest (dict_set String.eqb sanitized k v)
      else
        match isnull v with
        | AmbiguousTruth => Raise ValueError
        | Truth true => sanitize_items rest sanitized
        | Truth false =>
            if is_None v then sanitize_items rest sanitized
            else sanitize_items rest (dict_set String.eqb sanitized k v)
        end
  end.

(** Create neo4j safe properties. *)
Definition sanitize_data (data : list (string * pydata))
  : result (list (string * pydata)) :=
  sanitize_items data [].
End Sanitize.

(** ** [hetio/neo4j.py]: the swap loop of [permute_rel_type] *)

(** What [permute_rel_type] ends with: its [stats], or the [ValueError]
    of [random.sample(range(nrel), 2)] on fewer than two relationships. *)
Inductive permute_outcome : Type :=
| Stats (swaps tries : Z)
| SampleValueError.

Section Permute.
(** Whether the swap query of the attempt numbered [tries] returns a
    row: it depends on the database and on the random draws. *)
Variable swapped : Z -> bool.

(** [while swaps < nswap and tries < max_tries: ...] *)
Fixpoint swap_loop (fuel : nat) (nrel : nat) (nswap max_tries swaps tries : Z)
  : option permute_outcome :=
  if ((swaps <? nswap) && (tries <? max_tries))%Z then
    match fuel with
    | O => None
    | S fuel' =>
        if nrel <? 2 then Some SampleValueError
        else
          let swaps := if swapped tries then (swaps + 1)%Z else swaps in
          swap_loop fuel' nrel nswap max_tries swaps (tries + 1)%Z
    end
  else Some (Stats swaps tries).

(** The counting part of [permute_rel_type] for integer multipliers:
    [nrel] is the number of relationships found. *)
Definition permute_rel_type (fuel : nat) (nrel : nat)
    (nswap max_tries : option Z) (nswap_mult max_tries_mult : Z)
  : option permute_outcome :=
  let nswap :=
    match nswap with
    | None => (Z.of_nat nrel * nswap_mult)%Z
    | Some n => n
    end in
  let max_tries :=
    match max_tries with
    | None => (Z.of_nat nrel * max_tries_mult)%Z
    | Some n => n
    end in
  swap_loop fuel nrel nswap max_tries 0%Z 0%Z.
End Permute.

(** ** Notions used to state the properties *)

(** The accepted shape of a token: a non-empty prefix of the lowercased
    kind name. *)
Definition token_of (kind abbrev : string) : Prop :=
  exists n, 1 <= n <= String.length kind /\ abbrev = substring 0 n (lower kind).

(** A well-formed abbreviation dictionary. *)
Definition well_formed (d : dict) : Prop :=
  NoDup (keys d) /\ Forall (fun item => token_of (fst item) (snd item)) d.

(** Characters still available for extension: bounds the number of passes. *)
Definition slack (d : dict) : nat :=
  list_sum (map (fun item => String.length (fst item) - String.length (snd item)) d).

Definition total_length (kinds : list string) : nat :=
  list_sum (map String.length kinds).

(** Names made of ASCII characters only: the inputs on which [lower]
    and [upper] are [str.lower] and [str.upper]. *)
Definition ascii_names (kinds : list string) : Prop :=
  forall kind, In kind kinds -> isascii kind = true.

(** Kind names stay distinct after lowercasing. *)
Definition case_distinct (kinds : list string) : Prop :=
  forall k1 k2, In k1 kinds -> In k2 kinds -> lower k1 = lower k2 -> k1 = k2.

(** The token of an entry after one pass. *)
Definition extend (duplicates : list string) (kind abbrev : string) : string :=
  if extendable duplicates kind abbrev then extension kind abbrev else abbrev.

(** What one pass does to one entry. *)
Definition extend_item (duplicates : list string) (item : string * string)
  : string * string :=
  (fst item, extend duplicates (fst item) (snd item)).

(** The longer of two tokens; the existing one on a tie. *)
Definition longer (previous_abbrev abbrev : string) : string :=
  if String.length abbrev <=? String.length previous_abbrev
  then previous_abbrev else abbrev.

(** Folding [longer] over the tokens met so far. *)
Definition merge_tokens (start : option string) (tokens : list string)
  : option string :=
  fold_left
    (fun acc abbrev =>
       match acc with
       | None => Some abbrev
       | Some previous_abbrev => Some (longer previous_abbrev abbrev)
       end)
    tokens start.

(** The first token of greatest length. *)
Definition longest (tokens : list string) : option string :=
  merge_tokens None tokens.

(** The tokens that the groups, taken in merge order, assign to [key]. *)
Fixpoint group_tokens (fuel : nat) (groups : list (frozenset * list string))
    (key : string) : list string :=
  match groups with
  | [] => []
  | (_, keys) :: rest =>
      match find_abbrevs fuel keys with
      | Some (Ok key_to_abbrev) =>
          match get key_to_abbrev key with
          | Some abbrev => abbrev :: group_tokens fuel rest key
          | None => group_tokens fuel rest key
          end
      | _ => []
      end
  end.

(** The five invariant violations the validator looks for. *)
Definition namespace_collision (metagraph : MetaGraph) : Prop :=
  exists name, In name (map identifier (get_nodes metagraph))
               /\ In name (map kind (get_edges metagraph)).

Definition duplicated_node_token (metagraph : MetaGraph) : Prop :=
  exists k1 k2 token,
    k1 <> k2
    /\ In k1 (map identifier (get_nodes metagraph))
    /\ In k2 (map identifier (get_nodes metagraph))
    /\ get (kind_to_abbrev metagraph) k1 = Some token
    /\ get (kind_to_abbrev metagraph) k2 = Some token.

Definition node_token_not_uppercase (metagraph : MetaGraph) : Prop :=
  exists metanode, In metanode (get_nodes metagraph)
                   /\ isupper (abbrev metanode) = false.

Definition edge_token_not_lowercase (metagraph : MetaGraph) : Prop :=
  exists metaedge, In metaedge (get_edges metagraph)
                   /\ islower (kind_abbrev metaedge) = false.

Definition duplicated_edge_token (metagraph : MetaGraph) : Prop :=
  ~ NoDup (map get_abbrev (get_edges metagraph)).

Definition is_empty {A : Type} (l : list A) : bool :=
  match l with [] => true | _ => false end.

(** Nothing is printed exactly when the state is still valid. *)
Definition quiet (st : bool * list diagnostic) : Prop :=
  fst st = true <-> snd st = [].

(** Binomial coefficients, by Pascal's rule. *)
Fixpoint binom (n k : nat) : nat :=
  match n, k with
  | _, O => 1
  | O, S _ => 0
  | S n', S k' => binom n' k' + binom n' k
  end.

Fixpoint count_char (c : ascii) (s : string) : nat :=
  match s with
  | EmptyString => 0
  | String c' s' => (if Ascii.eqb c' c then 1 else 0) + count_char c s'
  end.

(** The number of pairwise terms [n<a> = n<b>] of an expanded or labeled
    clause: each term holds exactly one equality sign. *)
Definition pairwise_clauses (clause : string) : nat := count_char "=" clause.

(** The node variable of a position, as the path pattern names it. *)
Definition node_variable (i : nat) : string := ("n" ++ format_nat i)%string.

(** The term that holds when two positions are taken by the same node. *)
Definition equality_term (p : nat * nat) : string :=
  (node_variable (fst p) ++ " = " ++ node_variable (snd p))%string.

(** The clause that excludes the paths on which one of the listed pairs
    of positions is taken by one and the same node. *)
Definition exclusion_clause (pairs : list (nat * nat)) : string :=
  (nl ++ "AND NOT (" ++ join " OR " (map equality_term pairs) ++ ")")%string.

(** The single clause of the nested mode. *)
Definition nested_clause : string :=
  (nl ++ "AND ALL (x IN nodes(paths) WHERE size(filter(z IN nodes(paths) WHERE z = x)) = 1)")%string.

(** The uniqueness modes and the argument values that select them. *)
Inductive uniqueness_mode : Set :=
| NoneMode
| Nested
| Expanded
| Labeled.

Definition mode_of (unique_nodes : pyvalue) : option uniqueness_mode :=
  match unique_nodes with
  | PyBool false => Some NoneMode
  | PyBool true => Some Nested
  | PyStr s =>
      if String.eqb s "nested" then Some Nested
      else if String.eqb s "expanded" then Some Expanded
      else if String.eqb s "labeled" then Some Labeled
      else None
  | _ => None
  end.

(** The pattern as the claim describes it: a node variable per position,
    labelled at both ends only, and a connector per step. *)
Definition node_pattern (i : nat) (label : option string) : string :=
  ("(n" ++ format_nat i
     ++ match label with Some l => ":" ++ l | None => "" end ++ ")")%string.

Definition connector (rel_type direction : string) : string :=
  if String.eqb direction "forward" then ("-[:" ++ rel_type ++ "]->")%string
  else if String.eqb direction "backward" then ("<-[:" ++ rel_type ++ "]-")%string
  else ("-[:" ++ rel_type ++ "]-")%string.

Definition step_pattern (last : nat) (item : nat * metarel) : string :=
  let '(i, (_, target_label, rel_type, direction)) := item in
  (connector rel_type direction
     ++ node_pattern (i + 1)
          (if (i + 1 =? last)%nat then Some target_label else None))%string.

Definition path_pattern (metarels : list metarel) : string :=
  match metarels with
  | [] => ""
  | first :: _ =>
      (node_pattern 0 (Some (source_label first))
         ++ String.concat ""
              (map (step_pattern (List.length metarels)) (enumerate metarels)))%string
  end.

(** Step [i]'s target kind is step [i+1]'s source kind. *)
Fixpoint chains (metapath : list MetaEdge) : bool :=
  match metapath with
  | e1 :: rest =>
      match rest with
      | e2 :: _ => String.eqb (target e1) (source e2) && chains rest
      | [] => true
      end
  | [] => true
  end.

(** The index hints and the assembled query, given the fragments. *)
Definition using_text (metarels : list metarel) (property : string)
    (first last : metarel) : string :=
  ("USING INDEX n0:" ++ source_label first ++ "(" ++ property ++ ")"
     ++ nl ++ "USING INDEX n" ++ format_nat (List.length metarels)
     ++ ":" ++ target_label last ++ "(" ++ property ++ ")" ++ nl)%string.

Definition query_text (metarels : list metarel) (property : string)
    (metapath_query using_query unique_nodes_query : string) : string :=
  ("MATCH paths = " ++ metapath_query ++ nl
     ++ using_query ++ "WHERE n0." ++ property ++ " = { source }" ++ nl
     ++ "AND n" ++ format_nat (List.length metarels) ++ "." ++ property
     ++ " = { target }" ++ unique_nodes_query ++ nl
     ++ "WITH" ++ nl
     ++ "[" ++ nl
     ++ join ("," ++ nl) (map degree_str (enumerate metarels)) ++ nl
     ++ "] AS degrees, paths" ++ nl
     ++ "RETURN" ++ nl
     ++ "count(paths) AS PC," ++ nl
     ++ "sum(reduce(pdp = 1.0, d in degrees| pdp * d ^ -{ w })) AS DWPC"
     ++ "        ")%string.

(** The sizes of the groups of a [label_to_nodes] dictionary. *)
Definition group_sizes (label_to_nodes : list (string * list nat)) : list nat :=
  map (fun g => List.length (snd g)) label_to_nodes.

(** The steps of Gene-interacts-Gene-associates-Disease, both forward. *)
Definition gene_gene_disease : list metarel :=
  [("Gene", "Gene", "INTERACTS_i", "forward");
   ("Gene", "Disease", "ASSOCIATES_a", "forward")].

(** Two edges that do not chain: Disease is not Compound. *)
Definition non_chaining_path : list MetaEdge :=
  [ {| source := "Gene"; target := "Disease"; kind := "associates";
       direction := "both"; kind_abbrev := "a"; get_abbrev := "GaD" |};
    {| source := "Compound"; target := "Gene"; kind := "binds";
       direction := "both"; kind_abbrev := "b"; get_abbrev := "CbG" |} ].

(** Compound-binds-Gene-associates-Disease: three distinct labels. *)
Definition compound_gene_disease : list metarel :=
  [("Compound", "Gene", "BINDS_CbG", "forward");
   ("Gene", "Disease", "ASSOCIATES_DaG", "backward")].

(** The token a name starts with. *)
Definition first_letter (kind : string) : string :=
  match kind with
  | EmptyString => EmptyString
  | String c _ => String (lower_ascii c) EmptyString
  end.

(** The intermediate sets and dictionary of [validate_abbreviations]. *)
Definition metanode_kinds_of (metagraph : MetaGraph) : list string :=
  nodup string_dec (map identifier (get_nodes metagraph)).

Definition metaedge_kinds_of (metagraph : MetaGraph) : list string :=
  nodup string_dec (map kind (get_edges metagraph)).

Definition metanode_tokens_of (metagraph : MetaGraph) : dict :=
  filter (fun kv => mem (fst kv) (metanode_kinds_of metagraph))
         (kind_to_abbrev metagraph).

(** Every token longer than one character was forced: without its last
    character it is still a prefix of another key of the dictionary. *)
Definition justified (d : dict) : Prop :=
  forall k a, In (k, a) d ->
    String.length a = 1
    \/ exists k', k' <> k /\ In k' (keys d)
         /\ substring 0 (String.length a - 1) (lower k')
            = substring 0 (String.length a - 1) (lower k).

(** The kind-name and the key of the group of an [edge_dict] key. *)
Definition edge_kind (edge : edge_id) : string := snd (fst edge).

Definition endpoint_set (edge : edge_id) : frozenset :=
  [lower (fst (fst (fst edge))); lower (snd (fst (fst edge)))].

(** The kind-names of all edges. *)
Definition edge_kinds (metagraph : MetaGraph) : list string :=
  map edge_kind (edge_dict_keys metagraph).

(** The kinds on which [create_abbreviations] is meant to run: all
    names ASCII, node kinds and edge kind-names non-empty, the node
    kinds distinct after lowercasing, and so are the kind-names of the
    edges that join the same unordered pair of endpoint kinds. *)
Definition well_named (metagraph : MetaGraph) : Prop :=
  ascii_names (node_dict_keys metagraph)
  /\ (forall s t k d, In (s, t, k, d) (edge_dict_keys metagraph) ->
        isascii s = true /\ isascii t = true /\ isascii k = true)
  /\ (forall kind, In kind (node_dict_keys metagraph ++ edge_kinds metagraph) ->
        kind <> "")
  /\ case_distinct (node_dict_keys metagraph)
  /\ (forall e1 e2,
        In e1 (edge_dict_keys metagraph) -> In e2 (edge_dict_keys metagraph) ->
        frozenset_eqb (endpoint_set e1) (endpoint_set e2) = true ->
        lower (edge_kind e1) = lower (edge_kind e2) ->
        edge_kind e1 = edge_kind e2).

(** The same conditions as tests. *)
Definition case_distinctb (kinds : list string) : bool :=
  forallb
    (fun k1 =>
       forallb
         (fun k2 => implb (String.eqb (lower k1) (lower k2)) (String.eqb k1 k2))
         kinds)
    kinds.

Definition well_namedb (metagraph : MetaGraph) : bool :=
  forallb isascii (node_dict_keys metagraph)
  && forallb
       (fun edge : edge_id =>
          let '(s, t, k, _) := edge in isascii s && isascii t && isascii k)
       (edge_dict_keys metagraph)
  && forallb (fun kind => negb (String.eqb kind ""))
       (node_dict_keys metagraph ++ edge_kinds metagraph)
  && case_distinctb (node_dict_keys metagraph)
  && forallb
       (fun e1 =>
          forallb
            (fun e2 =>
               implb (frozenset_eqb (endpoint_set e1) (endpoint_set e2)
                      && String.eqb (lower (edge_kind e1)) (lower (edge_kind e2)))
                     (String.eqb (edge_kind e1) (edge_kind e2)))
            (edge_dict_keys metagraph))
       (edge_dict_keys metagraph).

(** Gene and Pathway with the edge kinds regulates, binds, represses. *)
Definition regulation_metagraph : MetaGraph :=
  {| node_dict_keys := ["Gene"; "Pathway"];
     edge_dict_keys := [("Gene", "Pathway", "regulates", "forward");
                        ("Pathway", "Gene", "binds", "both");
                        ("Gene", "Gene", "regulates", "both");
                        ("Gene", "Gene", "represses", "both")];
     get_nodes := []; get_edges := []; kind_to_abbrev := [] |}.

(** A node kind and an edge kind that share the name "binds". *)
Definition binding_metagraph : MetaGraph :=
  {| node_dict_keys := ["Gene"; "Compound"; "binds"];
     edge_dict_keys := [("Compound", "Gene", "binds", "both");
                        ("Gene", "Gene", "binds", "both")];
     get_nodes := []; get_edges := []; kind_to_abbrev := [] |}.

(** Two node kinds with a common prefix. *)
Definition genome_metagraph : MetaGraph :=
  {| node_dict_keys := ["Gene"; "Genome"];
     edge_dict_keys := [("Gene", "Genome", "binds", "both")];
     get_nodes := []; get_edges := []; kind_to_abbrev := [] |}.

(** What grouping the edges by endpoint set amounts to: a group lists,
    in order, the kind-names of the edges filed under its key and is
    not empty, every edge is filed under some group, and the keys are
    pairwise different as sets. *)
Definition grouped (edges : list edge_id)
    (groups : list (frozenset * list string)) : Prop :=
  (forall g ks, In (g, ks) groups ->
     ks <> []
     /\ ks = map edge_kind
               (filter (fun e => frozenset_eqb g (endpoint_set e)) edges))
  /\ (forall e, In e edges ->
        exists g ks, In (g, ks) groups /\ frozenset_eqb g (endpoint_set e) = true)
  /\ NoDup (map fst groups)
  /\ (forall g1 g2, In g1 (map fst groups) -> In g2 (map fst groups) ->
        frozenset_eqb g1 g2 = true -> g1 = g2).

(** No entry lags behind: a token that is also a prefix of another key
    is not longer than that key's own token. *)
Definition abreast (d : dict) : Prop :=
  forall k1 a1 k2 a2,
    In (k1, a1) d -> In (k2, a2) d -> k1 <> k2 ->
    substring 0 (String.length a2) (lower k1) = a2 ->
    String.length a2 <= String.length a1.

(** The line printed for a non-empty set of offenders. *)
Definition line_if_nonempty (s : list string) (line : diagnostic)
  : list diagnostic :=
  match s with
  | [] => []
  | _ => [line]
  end.

(** What a step contributes besides its labels: (rel_type, direction). *)
Definition step_shape (m : metarel) : string * string := (snd (fst m), snd m).

(** The label of the first position and the label of the last one. *)
Definition first_label (metarels : list metarel) : option string :=
  hd_error (map source_label metarels).

Definition last_label (metarels : list metarel) : option string :=
  hd_error (rev (map target_label metarels)).

(** The state of a creator that was fed [items]: nothing is lost,
    duplicated or reordered, and the counter counts what was created. *)
Definition conserves {X : Type} (max : Z) (items : list X) (c : Creator X) : Prop :=
  List.concat (db_calls c) ++ queue c = items
  /\ n_created c = List.length (List.concat (db_calls c))
  /\ max_queue_size c = max
  /\ ~ In [] (db_calls c).

(** The values that [sanitize_data] lets through. *)
Definition kept (isnull : pydata -> truth) (v : pydata) : bool :=
  is_list v
  || (match isnull v with Truth false => true | _ => false end
      && negb (is_None v)).

(** The values at which the test [if pandas.isnull(v)] raises. *)
Definition ambiguous (isnull : pydata -> truth) (v : pydata) : bool :=
  negb (is_list v)
  && match isnull v with AmbiguousTruth => true | _ => false end.

(** * Properties *)

(** ** Strings *)

Lemma length_map_string f s : String.length (map_string f s) = String.length s.
Proof. induction s as [|c s IH]; simpl; congruence. Qed.

Lemma substring_map_string f s :
  forall n m, map_string f (substring n m s) = substring n m (map_string f s).
Proof.
  induction s as [|c s IH]; intros [|n] [|m]; simpl; try reflexivity.
  - now rewrite IH.
  - apply IH.
  - apply IH.
Qed.

Lemma substring_0_all s : substring 0 (String.length s) s = s.
Proof. induction s as [|c s IH]; simpl; congruence. Qed.

Lemma length_substring_0 s :
  forall n, n <= String.length s -> String.length (substring 0 n s) = n.
Proof.
  induction s as [|c s IH]; intros [|n] Hn; simpl in *; try lia.
  rewrite IH; lia.
Qed.

Lemma substring_0_snoc s :
  forall n, n < String.length s ->
    (substring 0 n s ++ substring n 1 s)%string = substring 0 (S n) s.
Proof.
  induction s as [|c s IH]; intros [|n] Hn; simpl in *; try lia.
  - destruct s; reflexivity.
  - rewrite IH by lia. reflexivity.
Qed.

Lemma length_app_string (s1 s2 : string) :
  String.length (s1 ++ s2) = String.length s1 + String.length s2.
Proof. induction s1 as [|c s1 IH]; simpl; congruence. Qed.

(** ** Dictionaries *)

Lemma mem_true x l : mem x l = true <-> In x l.
Proof. unfold mem. destruct (in_dec string_dec x l); split; intros; auto; discriminate. Qed.

Lemma mem_false x l : mem x l = false <-> ~ In x l.
Proof. unfold mem. destruct (in_dec string_dec x l); split; intros; auto; try discriminate; contradiction. Qed.

Lemma setitem_in_place (l1 l2 : dict) k a v :
  ~ In k (keys l1) -> setitem (l1 ++ (k, a) :: l2) k v = l1 ++ (k, v) :: l2.
Proof.
  unfold setitem, keys.
  induction l1 as [|[k' a'] l1 IH]; simpl; intros Hk.
  - now rewrite String.eqb_refl.
  - destruct (String.eqb_spec k' k) as [->|Hne]; [tauto|].
    rewrite IH; tauto.
Qed.

Lemma keys_setitem d k v :
  keys (setitem d k v) = if mem k (keys d) then keys d else keys d ++ [k].
Proof.
  unfold setitem, keys.
  induction d as [|[k' a'] d IH]; simpl.
  - reflexivity.
  - destruct (String.eqb_spec k' k) as [->|Hne]; simpl.
    + unfold mem. destruct (in_dec _ _ _) as [|n]; [reflexivity|]. simpl in n; tauto.
    + rewrite IH. unfold mem.
      destruct (in_dec string_dec k (map fst d)) as [i|n];
        destruct (in_dec string_dec k (k' :: map fst d)) as [i'|n']; simpl in *;
        try reflexivity; try tauto.
Qed.

Lemma get_setitem_same d k v : get (setitem d k v) k = Some v.
Proof.
  unfold get, setitem.
  induction d as [|[k' a'] d IH]; simpl.
  - now rewrite String.eqb_refl.
  - destruct (String.eqb_spec k' k) as [->|Hne]; simpl.
    + now rewrite String.eqb_refl.
    + destruct (String.eqb_spec k' k); [contradiction|assumption].
Qed.

Lemma get_setitem_other d k k' v : k <> k' -> get (setitem d k v) k' = get d k'.
Proof.
  unfold get, setitem. intros Hne.
  induction d as [|[k0 a0] d IH]; simpl.
  - destruct (String.eqb_spec k k'); [contradiction|reflexivity].
  - destruct (String.eqb_spec k0 k) as [->|Hne0]; simpl.
    + destruct (String.eqb_spec k k'); [contradiction|reflexivity].
    + now rewrite IH.
Qed.

Lemma get_in d k v : NoDup (keys d) -> (get d k = Some v <-> In (k, v) d).
Proof.
  unfold get, keys.
  induction d as [|[k0 a0] d IH]; simpl; intros Hnd.
  - split; [discriminate|tauto].
  - inversion Hnd as [|? ? Hnin Hnd']; subst.
    destruct (String.eqb_spec k0 k) as [->|Hne].
    + split.
      * intros [= ->]. now left.
      * intros [[= ->]|Hin]; [reflexivity|].
        exfalso. apply Hnin. apply (in_map fst) in Hin. exact Hin.
    + rewrite IH by assumption. split; [tauto|].
      intros [[= -> ->]|Hin]; [contradiction|assumption].
Qed.

Lemma get_none d k : get d k = None <-> ~ In k (keys d).
Proof.
  unfold get, keys.
  induction d as [|[k0 a0] d IH]; simpl.
  - tauto.
  - destruct (String.eqb_spec k0 k) as [->|Hne].
    + split; [discriminate|tauto].
    + rewrite IH. tauto.
Qed.

(** ** [get_duplicates] *)

Lemma in_get_duplicates l t :
  In t (get_duplicates l) <-> 1 < count_occ string_dec l t.
Proof.
  unfold get_duplicates. rewrite filter_In, nodup_In, Nat.ltb_lt.
  split; [tauto|]. intros H. split; [|assumption].
  apply (count_occ_In string_dec). lia.
Qed.

Lemma get_duplicates_nil l : get_duplicates l = [] <-> NoDup l.
Proof.
  rewrite (NoDup_count_occ string_dec). split.
  - intros H t. destruct (le_lt_dec (count_occ string_dec l t) 1) as [|Hlt]; [assumption|].
    apply in_get_duplicates in Hlt. rewrite H in Hlt. contradiction.
  - intros H. destruct (get_duplicates l) as [|t r] eqn:E; [reflexivity|].
    assert (Ht : In t (get_duplicates l)) by (rewrite E; now left).
    apply in_get_duplicates in Ht. specialize (H t). lia.
Qed.

(** ** [find_abbrevs]: one pass of the [for] loop *)

Lemma keys_map_extend_item dups d : keys (map (extend_item dups) d) = keys d.
Proof. unfold keys. rewrite map_map. reflexivity. Qed.

Lemma sweep_from dups rest :
  forall pre, NoDup (keys (pre ++ rest)) ->
    fold_left
      (fun d item =>
         let kind := fst item in
         let abbrev := snd item in
         if extendable dups kind abbrev
         then setitem d kind (extension kind abbrev)
         else d)
      rest (map (extend_item dups) pre ++ rest)
    = map (extend_item dups) (pre ++ rest).
Proof.
  induction rest as [|[k a] rest IH]; intros pre Hnd.
  - simpl. now rewrite !app_nil_r.
  - assert (Hstep : map (extend_item dups) pre ++ (k, extend dups k a) :: rest
                    = map (extend_item dups) (pre ++ [(k, a)]) ++ rest)
      by (rewrite map_app, <- app_assoc; reflexivity).
    assert (Hnd' : NoDup (keys ((pre ++ [(k, a)]) ++ rest)))
      by (rewrite <- app_assoc; exact Hnd).
    cbn [fold_left fst snd]. unfold extend in Hstep.
    destruct (extendable dups k a).
    + rewrite setitem_in_place.
      * rewrite Hstep, IH by exact Hnd'. now rewrite <- app_assoc.
      * rewrite keys_map_extend_item. unfold keys in *.
        rewrite map_app in Hnd. simpl in Hnd.
        apply NoDup_remove_2 in Hnd. rewrite in_app_iff in Hnd. tauto.
    + rewrite Hstep, IH by exact Hnd'. now rewrite <- app_assoc.
Qed.

(** The pass over the snapshot updates every entry independently. *)
Lemma sweep_map dups d :
  NoDup (keys d) -> sweep dups d = map (extend_item dups) d.
Proof. intros Hnd. exact (sweep_from dups d [] Hnd). Qed.

Lemma length_lower s : String.length (lower s) = String.length s.
Proof. apply length_map_string. Qed.

Lemma token_length k a :
  token_of k a -> 1 <= String.length a <= String.length k.
Proof.
  intros (n & Hn & ->). rewrite length_substring_0; [lia|].
  rewrite length_lower. lia.
Qed.

Lemma token_full k a :
  token_of k a -> String.length k <= String.length a -> a = lower k.
Proof.
  intros Ht Hlen. pose proof (token_length _ _ Ht) as Hl.
  destruct Ht as (n & Hn & ->).
  rewrite length_substring_0 in * by (rewrite length_lower; lia).
  replace n with (String.length (lower k)) by (rewrite length_lower; lia).
  apply substring_0_all.
Qed.

Lemma extend_token dups k a : token_of k a -> token_of k (extend dups k a).
Proof.
  intros Ht. unfold extend, extendable, extension.
  destruct (mem a dups && (String.length a <? String.length k)) eqn:E; [|assumption].
  apply andb_true_iff in E. destruct E as [_ Hlt]. apply Nat.ltb_lt in Hlt.
  destruct Ht as (n & Hn & ->).
  rewrite length_substring_0 in * by (rewrite length_lower; lia).
  exists (S n). split; [lia|].
  unfold lower at 2. rewrite substring_map_string. fold (lower k).
  apply substring_0_snoc. rewrite length_lower. lia.
Qed.

Lemma extend_length dups k a :
  String.length a <= String.length (extend dups k a).
Proof.
  unfold extend, extendable, extension. destruct (_ && _); [|lia].
  rewrite length_app_string. lia.
Qed.

Lemma extend_length_strict dups k a :
  In a dups -> String.length a < String.length k ->
  String.length (extend dups k a) = S (String.length a).
Proof.
  intros Hin Hlt. unfold extend, extendable, extension.
  apply mem_true in Hin. rewrite Hin. apply Nat.ltb_lt in Hlt as Hb. rewrite Hb. simpl.
  rewrite length_app_string, length_lower.
  enough (String.length (substring (String.length a) 1 k) = 1) by lia.
  clear - Hlt. revert k Hlt. generalize (String.length a) as n.
  induction n as [|n IH]; intros [|c k] H; simpl in *; try lia.
  - destruct k; reflexivity.
  - apply IH. lia.
Qed.

Lemma sweep_well_formed dups d : well_formed d -> well_formed (sweep dups d).
Proof.
  intros [Hnd Htok]. rewrite sweep_map by assumption. split.
  - now rewrite keys_map_extend_item.
  - rewrite Forall_map. eapply Forall_impl; [|exact Htok].
    intros [k a] H. simpl in *. now apply extend_token.
Qed.

Lemma sweep_keys dups d : NoDup (keys d) -> keys (sweep dups d) = keys d.
Proof. intros Hnd. rewrite sweep_map by assumption. apply keys_map_extend_item. Qed.

(** ** [find_abbrevs]: the initial dictionary *)

Lemma setitem_well_formed d k c rest :
  k = String c rest ->
  well_formed d -> well_formed (setitem d k (String (lower_ascii c) EmptyString)).
Proof.
  intros -> [Hnd Htok].
  assert (Hk : token_of (String c rest) (String (lower_ascii c) EmptyString)).
  { exists 1. simpl. split; [lia|]. destruct rest; reflexivity. }
  split.
  - rewrite keys_setitem. destruct (mem _ _) eqn:E; [assumption|].
    apply mem_false in E. apply NoDup_app; auto.
    + constructor; [tauto|constructor].
    + intros x Hx [<-|[]]. contradiction.
  - unfold setitem. clear Hnd.
    induction d as [|[k' a'] d IH]; simpl.
    + constructor; [exact Hk|constructor].
    + inversion Htok as [|? ? H1 H2]; subst.
      destruct (String.eqb_spec k' (String c rest)) as [->|Hne].
      * constructor; assumption.
      * constructor; [assumption|]. now apply IH.
Qed.

Lemma first_letters_well_formed kinds :
  forall d0 d, first_letters kinds d0 = Ok d -> well_formed d0 -> well_formed d.
Proof.
  induction kinds as [|[|c rest] kinds IH]; simpl; intros d0 d H Hwf.
  - now injection H as <-.
  - discriminate.
  - eapply IH; [exact H|]. now apply setitem_well_formed with (rest := rest).
Qed.

Lemma first_letters_keys kinds :
  forall d0 d, first_letters kinds d0 = Ok d ->
    forall k, In k (keys d) <-> In k (keys d0) \/ In k kinds.
Proof.
  induction kinds as [|[|c rest] kinds IH]; simpl; intros d0 d H k.
  - injection H as <-. tauto.
  - discriminate.
  - rewrite (IH _ _ H), keys_setitem.
    destruct (mem _ _) eqn:E.
    + apply mem_true in E. split; [tauto|]. intros [?|[<-|?]]; tauto.
    + rewrite in_app_iff. simpl. tauto.
Qed.

Lemma first_letters_keys_nodup kinds :
  forall d0 d, first_letters kinds d0 = Ok d -> NoDup (keys d0 ++ kinds) ->
    keys d = keys d0 ++ kinds.
Proof.
  induction kinds as [|[|c rest] kinds IH]; simpl; intros d0 d H Hnd.
  - injection H as <-. now rewrite app_nil_r.
  - discriminate.
  - assert (Hnin : ~ In (String c rest) (keys d0)).
    { apply NoDup_remove_2 in Hnd. rewrite in_app_iff in Hnd. tauto. }
    apply mem_false in Hnin.
    rewrite (IH _ _ H); rewrite keys_setitem, Hnin.
    + now rewrite <- app_assoc.
    + now rewrite <- app_assoc.
Qed.

Lemma first_letters_total kinds :
  (forall kind, In kind kinds -> kind <> "") ->
  forall d0, exists d, first_letters kinds d0 = Ok d.
Proof.
  induction kinds as [|[|c rest] kinds IH]; simpl; intros Hne d0.
  - now exists d0.
  - exfalso. apply (Hne ""); auto.
  - apply IH. intros kind Hin. apply Hne. now right.
Qed.

Lemma first_letters_raises kinds :
  In "" kinds -> forall d0, first_letters kinds d0 = Raise IndexError.
Proof.
  induction kinds as [|[|c rest] kinds IH]; simpl; intros Hin d0.
  - contradiction.
  - reflexivity.
  - apply IH. destruct Hin as [H|H]; [discriminate|assumption].
Qed.

(** ** [find_abbrevs]: the [while] loop *)

Lemma disambiguate_eq fuel d :
  disambiguate fuel d =
  match get_duplicates (values d) with
  | [] => Some d
  | t :: r =>
      match fuel with
      | O => None
      | S fuel' => disambiguate fuel' (sweep (t :: r) d)
      end
  end.
Proof. destruct fuel; reflexivity. Qed.

(** Whatever the loop returns is well formed, has the keys it started
    with, and holds no token twice. *)
Lemma disambiguate_sound fuel :
  forall d d', disambiguate fuel d = Some d' -> well_formed d ->
    well_formed d' /\ keys d' = keys d /\ NoDup (values d').
Proof.
  induction fuel as [|fuel IH]; intros d d' H Hwf; rewrite disambiguate_eq in H;
    destruct (get_duplicates (values d)) as [|t r] eqn:E; try discriminate.
  - injection H as <-. apply get_duplicates_nil in E. auto.
  - injection H as <-. apply get_duplicates_nil in E. auto.
  - apply IH in H; [|now apply sweep_well_formed].
    destruct H as (Hwf' & Hk & Hv). repeat split; try apply Hwf'; try assumption.
    rewrite Hk. apply sweep_keys. apply Hwf.
Qed.

Lemma disambiguate_more_fuel fuel :
  forall d d' fuel', disambiguate fuel d = Some d' -> fuel <= fuel' ->
    disambiguate fuel' d = Some d'.
Proof.
  induction fuel as [|fuel IH]; intros d d' fuel' H Hle;
    rewrite disambiguate_eq in H |- *;
    destruct (get_duplicates (values d)) as [|t r]; try discriminate; try assumption.
  destruct fuel' as [|fuel']; [lia|]. apply (IH _ _ _ H). lia.
Qed.

(** A state with a duplicated token that a pass leaves unchanged keeps
    the loop running for ever. *)
Lemma disambiguate_stuck d :
  get_duplicates (values d) <> [] ->
  sweep (get_duplicates (values d)) d = d ->
  forall fuel, disambiguate fuel d = None.
Proof.
  intros Hdup Hfix fuel. induction fuel as [|fuel IH]; rewrite disambiguate_eq;
    destruct (get_duplicates (values d)) as [|t r]; try congruence.
Qed.

Lemma slack_extend_le dups d :
  slack (map (extend_item dups) d) <= slack d.
Proof.
  unfold slack. induction d as [|[k a] d IH]; simpl; [lia|].
  pose proof (extend_length dups k a). lia.
Qed.

Lemma slack_extend_lt dups d item :
  In item d -> In (snd item) dups ->
  String.length (snd item) < String.length (fst item) ->
  slack (map (extend_item dups) d) < slack d.
Proof.
  intros Hin Hdup Hlt. induction d as [|[k a] d IH]; [contradiction|].
  pose proof (slack_extend_le dups d) as Hle.
  unfold slack in *. simpl.
  destruct Hin as [<-|Hin].
  - simpl in *. rewrite (extend_length_strict dups k a) by assumption. lia.
  - specialize (IH Hin). pose proof (extend_length dups k a). lia.
Qed.

Lemma count_values_le_keys (d : dict) t k0 :
  (forall item, In item d -> snd item = t -> fst item = k0) ->
  count_occ string_dec (values d) t <= count_occ string_dec (keys d) k0.
Proof.
  unfold values, keys. induction d as [|[k a] d IH]; intros H; simpl; [lia|].
  assert (IH' : count_occ string_dec (map snd d) t <= count_occ string_dec (map fst d) k0)
    by (apply IH; intros; apply H; auto; now right).
  destruct (string_dec a t) as [Ha|Ha]; destruct (string_dec k k0) as [Hk|Hk]; try lia.
  exfalso. apply Hk. apply (H (k, a)); [now left|exact Ha].
Qed.

(** With case-distinct names, a duplicated token always has a holder
    that can still be extended. *)
Lemma duplicated_token_extendable d t :
  well_formed d -> case_distinct (keys d) ->
  In t (get_duplicates (values d)) ->
  exists item, In item d /\ snd item = t
               /\ String.length (snd item) < String.length (fst item).
Proof.
  intros [Hnd Htok] Hinj Hdup.
  set (p := fun item : string * string =>
              String.eqb (snd item) t
              && (String.length (snd item) <? String.length (fst item))).
  destruct (existsb p d) eqn:E.
  - apply existsb_exists in E. destruct E as (item & Hin & Hp).
    unfold p in Hp. apply andb_true_iff in Hp. destruct Hp as [H1 H2].
    apply String.eqb_eq in H1. apply Nat.ltb_lt in H2. now exists item.
  - exfalso. apply in_get_duplicates in Hdup.
    assert (Hfull : forall item, In item d -> snd item = t -> lower (fst item) = t).
    { intros item Hin Hs.
      assert (Hp : p item = false).
      { destruct (p item) eqn:Hp; [|reflexivity].
        assert (existsb p d = true) by (apply existsb_exists; eauto). congruence. }
      unfold p in Hp. rewrite Hs, String.eqb_refl in Hp. simpl in Hp.
      apply Nat.ltb_ge in Hp. rewrite Forall_forall in Htok.
      rewrite <- Hs. symmetry. apply token_full; [now apply Htok|].
      now rewrite Hs. }
    assert (Hin0 : In t (values d)) by (apply (count_occ_In string_dec); lia).
    apply in_map_iff in Hin0. destruct Hin0 as (item0 & Hs0 & Hin0).
    assert (Hle : count_occ string_dec (values d) t
                  <= count_occ string_dec (keys d) (fst item0)).
    { apply count_values_le_keys. intros item Hin Hs. apply Hinj.
      - apply in_map. exact Hin.
      - apply in_map. exact Hin0.
      - rewrite (Hfull _ Hin Hs), (Hfull _ Hin0 Hs0). reflexivity. }
    rewrite (NoDup_count_occ string_dec) in Hnd. specialize (Hnd (fst item0)). lia.
Qed.

Lemma disambiguate_terminates fuel :
  forall d, well_formed d -> case_distinct (keys d) -> slack d <= fuel ->
    exists d', disambiguate fuel d = Some d'.
Proof.
  induction fuel as [|fuel IH]; intros d Hwf Hinj Hfuel; rewrite disambiguate_eq;
    destruct (get_duplicates (values d)) as [|t r] eqn:E; eauto.
  - exfalso.
    destruct (duplicated_token_extendable d t Hwf Hinj) as (item & Hin & Hs & Hlt).
    { rewrite E. now left. }
    assert (Hsl : 0 < slack d).
    { pose proof (slack_extend_lt [t] d item Hin) as H. simpl in H.
      rewrite Hs in H. specialize (H (or_introl eq_refl)). rewrite <- Hs in H at 1.
      specialize (H Hlt). lia. }
    lia.
  - destruct (duplicated_token_extendable d t Hwf Hinj) as (item & Hin & Hs & Hlt).
    { rewrite E. now left. }
    apply IH.
    + now apply sweep_well_formed.
    + rewrite sweep_keys by apply Hwf. assumption.
    + rewrite sweep_map by apply Hwf.
      assert (slack (map (extend_item (t :: r)) d) < slack d).
      { apply slack_extend_lt with (item := item); auto. rewrite Hs. now left. }
      lia.
Qed.

Lemma slack_le_total d : slack d <= total_length (keys d).
Proof.
  unfold slack, total_length, keys. induction d as [|[k a] d IH]; simpl; lia.
Qed.

Lemma disambiguate_done fuel d :
  get_duplicates (values d) = [] -> disambiguate fuel d = Some d.
Proof. intros H. rewrite disambiguate_eq, H. reflexivity. Qed.

Lemma disambiguate_step fuel d dups :
  get_duplicates (values d) = dups -> dups <> [] ->
  disambiguate (S fuel) d = disambiguate fuel (sweep dups d).
Proof. intros <- H. simpl. destruct (get_duplicates (values d)); congruence. Qed.

Lemma case_collision_state_stuck :
  forall fuel, disambiguate fuel [("a", "a"); ("A", "a")] = None.
Proof. apply disambiguate_stuck; [discriminate|reflexivity]. Qed.

Lemma gene_disease_drug_run fuel :
  find_abbrevs (S fuel) ["gene"; "disease"; "drug"]
  = Some (Ok [("gene", "g"); ("disease", "di"); ("drug", "dr")]).
Proof.
  unfold find_abbrevs.
  change (first_letters ["gene"; "disease"; "drug"] [])
    with (Ok [("gene", "g"); ("disease", "d"); ("drug", "d")]).
  cbv beta match.
  rewrite (disambiguate_step fuel _ ["d"]); [|reflexivity|discriminate].
  rewrite disambiguate_done; reflexivity.
Qed.

(** ** [find_abbrevs]: the claims *)

Lemma ascii_names_forallb kinds : forallb isascii kinds = true -> ascii_names kinds.
Proof. intros H kind Hin. rewrite forallb_forall in H. now apply H. Qed.

(** C1 (as amended): for every list of pairwise distinct ASCII kind
    names that are non-empty and stay distinct after lowercasing,
    [find_abbrevs] returns (with any fuel at least the total length of
    the names) a dictionary holding exactly the input names as keys, in
    which no two tokens are equal and every token is a non-empty
    lowercased prefix of its name. *)
Theorem find_abbrevs_unique_prefix_tokens (kinds : list string) :
  ascii_names kinds ->
  NoDup kinds ->
  (forall kind, In kind kinds -> kind <> "") ->
  case_distinct kinds ->
  exists kind_to_abbrev,
    (forall fuel, total_length kinds <= fuel ->
       find_abbrevs fuel kinds = Some (Ok kind_to_abbrev))
    /\ keys kind_to_abbrev = kinds
    /\ List.length (values kind_to_abbrev) = List.length kinds
    /\ NoDup (values kind_to_abbrev)
    /\ (forall kind abbrev, In (kind, abbrev) kind_to_abbrev ->
          exists n, 1 <= n <= String.length kind
                    /\ abbrev = lower (substring 0 n kind)).
Proof.
  intros _ Hnd Hne Hinj.
  destruct (first_letters_total kinds Hne []) as (d0 & Hd0).
  assert (Hwf0 : well_formed d0).
  { apply (first_letters_well_formed _ _ _ Hd0). split; constructor. }
  assert (Hk0 : keys d0 = kinds).
  { apply (first_letters_keys_nodup _ _ _ Hd0). exact Hnd. }
  destruct (disambiguate_terminates (total_length kinds) d0 Hwf0) as (d & Hd).
  { now rewrite Hk0. }
  { rewrite <- Hk0. apply slack_le_total. }
  destruct (disambiguate_sound _ _ _ Hd Hwf0) as ([Hndk Htok] & Hk & Hv).
  exists d. repeat split.
  - intros fuel Hfuel. unfold find_abbrevs. rewrite Hd0.
    now rewrite (disambiguate_more_fuel _ _ _ _ Hd Hfuel).
  - congruence.
  - unfold values. rewrite length_map. rewrite <- Hk0, <- Hk. unfold keys.
    now rewrite length_map.
  - exact Hv.
  - intros kind abbrev Hin. rewrite Forall_forall in Htok.
    destruct (Htok _ Hin) as (n & Hn & Ha). simpl in *.
    exists n. split; [exact Hn|]. unfold lower. now rewrite substring_map_string.
Qed.

Lemma find_abbrevs_unique_prefix_tokens_witness :
  exists kind_to_abbrev,
    (forall fuel, total_length ["gene"; "genome"; "Drug"] <= fuel ->
       find_abbrevs fuel ["gene"; "genome"; "Drug"] = Some (Ok kind_to_abbrev))
    /\ keys kind_to_abbrev = ["gene"; "genome"; "Drug"]
    /\ List.length (values kind_to_abbrev) = List.length ["gene"; "genome"; "Drug"]
    /\ NoDup (values kind_to_abbrev)
    /\ (forall kind abbrev, In (kind, abbrev) kind_to_abbrev ->
          exists n, 1 <= n <= String.length kind
                    /\ abbrev = lower (substring 0 n kind)).
Proof.
  apply find_abbrevs_unique_prefix_tokens.
  - apply ascii_names_forallb. reflexivity.
  - repeat constructor; simpl; intuition discriminate.
  - simpl. intros kind H. intuition (subst; discriminate).
  - intros k1 k2 H1 H2 Hl. simpl in H1, H2.
    destruct H1 as [<-|[<-|[<-|[]]]]; destruct H2 as [<-|[<-|[<-|[]]]];
      try reflexivity; vm_compute in Hl; discriminate.
Defined.

(** C1 (as stated) fails: the distinct names ["a"] and ["A"] make the
    loop run for ever, and an empty name raises [IndexError]. *)
Lemma find_abbrevs_distinct_names_counterexample :
  NoDup ["a"; "A"]
  /\ (forall fuel, find_abbrevs fuel ["a"; "A"] = None)
  /\ NoDup ["gene"; ""]
  /\ (forall fuel, find_abbrevs fuel ["gene"; ""] = Some (Raise IndexError)).
Proof.
  repeat split.
  - repeat constructor; simpl; intuition discriminate.
  - intros fuel. unfold find_abbrevs.
    change (first_letters ["a"; "A"] []) with (Ok [("a", "a"); ("A", "a")]).
    cbv beta match.
    now rewrite case_collision_state_stuck.
  - repeat constructor; simpl; intuition discriminate.
Qed.

(** C2: on the kind names ["a"] and ["A"] the initial tokens are both
    ["a"], the duplicate set is {"a"}, a pass of the [for] loop changes
    nothing because both tokens are fully extended, and so the [while]
    loop never ends: [find_abbrevs] returns for no amount of fuel. *)
Theorem find_abbrevs_residual_duplicate_loops :
  first_letters ["a"; "A"] [] = Ok [("a", "a"); ("A", "a")]
  /\ get_duplicates (values [("a", "a"); ("A", "a")]) = ["a"]
  /\ sweep ["a"] [("a", "a"); ("A", "a")] = [("a", "a"); ("A", "a")]
  /\ forall fuel, find_abbrevs fuel ["a"; "A"] = None.
Proof.
  repeat split.
  intros fuel. unfold find_abbrevs.
  change (first_letters ["a"; "A"] []) with (Ok [("a", "a"); ("A", "a")]).
    cbv beta match.
  now rewrite case_collision_state_stuck.
Qed.

(** C5 (as amended): on "gene", "disease", "drug" the tokens are "g",
    "di", "dr": the collision on "d" extends both "disease" and "drug". *)
Theorem find_abbrevs_gene_disease_drug :
  forall fuel,
    find_abbrevs (S fuel) ["gene"; "disease"; "drug"]
    = Some (Ok [("gene", "g"); ("disease", "di"); ("drug", "dr")]).
Proof.
  exact gene_disease_drug_run.
Qed.

(** C5 (as stated) fails: no run returns "d" for "disease". *)
Lemma find_abbrevs_gene_disease_drug_counterexample :
  ~ (exists fuel d,
       find_abbrevs fuel ["gene"; "disease"; "drug"] = Some (Ok d)
       /\ get d "disease" = Some "d").
Proof.
  intros (fuel & d & H & Hget).
  destruct fuel as [|fuel]; [vm_compute in H; discriminate|].
  rewrite gene_disease_drug_run in H. injection H as <-.
  vm_compute in Hget. discriminate.
Qed.

(** ** [create_abbreviations] *)

Lemma find_abbrevs_sound fuel kinds d :
  find_abbrevs fuel kinds = Some (Ok d) ->
  well_formed d /\ NoDup (values d) /\ (forall k, In k (keys d) <-> In k kinds).
Proof.
  unfold find_abbrevs. destruct (first_letters kinds []) as [d0|e] eqn:E0; [|discriminate].
  destruct (disambiguate fuel d0) as [d1|] eqn:E1; [|discriminate].
  intros [= <-].
  assert (Hwf0 : well_formed d0).
  { apply (first_letters_well_formed _ _ _ E0). split; constructor. }
  destruct (disambiguate_sound _ _ _ E1 Hwf0) as (Hwf & Hk & Hv).
  repeat split; try apply Hwf; try assumption; rewrite Hk;
    rewrite (first_letters_keys _ _ _ E0); simpl; tauto.
Qed.

Lemma token_nonempty k a : token_of k a -> a <> "".
Proof.
  intros Ht ->. apply token_length in Ht. simpl in Ht. lia.
Qed.

Lemma get_token d k a : well_formed d -> get d k = Some a -> token_of k a.
Proof.
  intros [Hnd Htok] Hget. apply get_in in Hget; [|assumption].
  rewrite Forall_forall in Htok. exact (Htok _ Hget).
Qed.

Lemma longer_nonempty p a : p <> "" -> a <> "" -> longer p a <> "".
Proof. unfold longer. destruct (_ <=? _); auto. Qed.

(** The innermost loop body on the entry of [key]. *)
Lemma get_merge_abbrev_same d key a :
  get (merge_abbrev d key a) key =
  match get d key with
  | Some p => if negb (String.eqb p "") && (String.length a <=? String.length p)
              then Some p else Some a
  | None => Some a
  end.
Proof.
  unfold merge_abbrev. destruct (get d key) as [p|] eqn:E.
  - destruct (_ && _); [assumption|apply get_setitem_same].
  - apply get_setitem_same.
Qed.

Lemma get_merge_abbrev_other d k key a :
  k <> key -> get (merge_abbrev d k a) key = get d key.
Proof.
  intros Hne. unfold merge_abbrev. destruct (get d k) as [p|].
  - destruct (_ && _); [reflexivity|now apply get_setitem_other].
  - now apply get_setitem_other.
Qed.

Lemma get_cons k a (m : dict) key :
  get ((k, a) :: m) key = if String.eqb k key then Some a else get m key.
Proof. reflexivity. Qed.

Lemma get_merge_group m key :
  NoDup (keys m) ->
  forall d,
    get (merge_group d m) key =
    match get m key with
    | None => get d key
    | Some a =>
        match get d key with
        | Some p => if negb (String.eqb p "") && (String.length a <=? String.length p)
                    then Some p else Some a
        | None => Some a
        end
    end.
Proof.
  induction m as [|[k a] m IH]; intros Hnd d.
  - reflexivity.
  - unfold keys in Hnd. simpl in Hnd. inversion Hnd as [|? ? Hnin Hnd']; subst.
    change (merge_group d ((k, a) :: m)) with (merge_group (merge_abbrev d k a) m).
    rewrite IH by exact Hnd'. rewrite (get_cons k a m key).
    destruct (String.eqb_spec k key) as [->|Hne].
    + apply get_none in Hnin. rewrite Hnin.
      apply get_merge_abbrev_same.
    + rewrite !(get_merge_abbrev_other _ _ _ _ Hne). reflexivity.
Qed.


Lemma merge_groups_get fuel key groups :
  forall d d',
    merge_groups fuel groups d = Some (Ok d') ->
    (forall p, get d key = Some p -> p <> "") ->
    get d' key = merge_tokens (get d key) (group_tokens fuel groups key).
Proof.
  induction groups as [|[edge_set keys] groups IH]; intros d d' H Hne; simpl in *.
  - now injection H as <-.
  - destruct (find_abbrevs fuel keys) as [[m|e]|] eqn:E; try discriminate.
    destruct (find_abbrevs_sound _ _ _ E) as (Hwf & _ & _).
    assert (Hg := get_merge_group m key (proj1 Hwf) d).
    destruct (get m key) as [a|] eqn:Em.
    + assert (Ha : a <> "") by (eapply token_nonempty, get_token; eauto).
      rewrite (IH _ _ H).
      * unfold merge_tokens. simpl. rewrite Hg.
        destruct (get d key) as [p|] eqn:Ed; [|reflexivity].
        specialize (Hne p eq_refl).
        destruct (String.eqb_spec p ""); [contradiction|]. simpl.
        unfold longer. destruct (_ <=? _); reflexivity.
      * intros p. rewrite Hg. destruct (get d key) as [p0|] eqn:Ed.
        -- specialize (Hne p0 eq_refl). destruct (_ && _); intros [= <-]; assumption.
        -- intros [= <-]. assumption.
    + rewrite (IH _ _ H); rewrite Hg; [reflexivity|assumption].
Qed.

Lemma merge_tokens_some p tokens :
  exists final, merge_tokens (Some p) tokens = Some final
    /\ (final = p \/ In final tokens)
    /\ String.length p <= String.length final
    /\ forall t, In t tokens -> String.length t <= String.length final.
Proof.
  revert p. induction tokens as [|a tokens IH]; intros p; simpl.
  - exists p. repeat split; auto. intros t [].
  - destruct (IH (longer p a)) as (final & Hf & Hin & Hlen & Hall).
    exists final. unfold merge_tokens in *. simpl. split; [exact Hf|].
    assert (Hl : String.length p <= String.length (longer p a)
                 /\ String.length a <= String.length (longer p a)
                 /\ (longer p a = p \/ longer p a = a)).
    { unfold longer.
      destruct (Nat.leb_spec (String.length a) (String.length p));
        repeat split; auto; lia. }
    destruct Hl as (H1 & H2 & H3). repeat split.
    + destruct Hin as [->|Hin]; [|auto]. destruct H3 as [->| ->]; auto.
    + lia.
    + intros t [<-|Ht]; [lia|auto].
Qed.

Lemma longest_spec tokens t :
  In t tokens ->
  exists final, longest tokens = Some final /\ In final tokens
    /\ forall t', In t' tokens -> String.length t' <= String.length final.
Proof.
  unfold longest. destruct tokens as [|a tokens]; [intros []|]. intros _.
  destruct (merge_tokens_some a tokens) as (final & Hf & Hin & Hlen & Hall).
  exists final. unfold merge_tokens in *. simpl. repeat split.
  - exact Hf.
  - destruct Hin as [->|Hin]; [now left|now right].
  - intros t' [<-|Ht']; [assumption|auto].
Qed.


(** ** [validate_abbreviations] *)

Lemma report_if_nonempty_valid s line st :
  fst (report_if_nonempty s line st) = fst st && is_empty s.
Proof. destruct s; simpl; [now rewrite andb_true_r|now rewrite andb_false_r]. Qed.

Lemma report_unless_valid ok line st :
  fst (report_unless ok line st) = fst st && ok.
Proof. destruct ok; simpl; [now rewrite andb_true_r|now rewrite andb_false_r]. Qed.

Lemma report_loop_valid {A} (p : A -> bool) (line : A -> diagnostic) l :
  forall st,
    fst (fold_left (fun st x => report_unless (p x) (line x) st) l st)
    = fst st && forallb p l.
Proof.
  induction l as [|x l IH]; intros st; simpl.
  - now rewrite andb_true_r.
  - rewrite IH, report_unless_valid. now rewrite andb_assoc.
Qed.

Lemma report_if_nonempty_quiet s line st :
  quiet st -> quiet (report_if_nonempty s line st).
Proof.
  unfold quiet. destruct s; simpl; [tauto|]. intros _. split; [discriminate|].
  intros H. apply app_eq_nil in H. destruct H; discriminate.
Qed.

Lemma report_unless_quiet ok line st :
  quiet st -> quiet (report_unless ok line st).
Proof.
  unfold quiet. destruct ok; simpl; [tauto|]. intros _. split; [discriminate|].
  intros H. apply app_eq_nil in H. destruct H; discriminate.
Qed.

Lemma report_loop_quiet {A} (p : A -> bool) (line : A -> diagnostic) l :
  forall st, quiet st ->
    quiet (fold_left (fun st x => report_unless (p x) (line x) st) l st).
Proof.
  induction l as [|x l IH]; intros st H; simpl; [assumption|].
  apply IH. now apply report_unless_quiet.
Qed.

Lemma forallb_false_exists {A} (p : A -> bool) l :
  forallb p l = false <-> exists x, In x l /\ p x = false.
Proof.
  induction l as [|x l IH]; simpl.
  - split; [discriminate|intros (x & [] & _)].
  - rewrite andb_false_iff, IH. split.
    + intros [H|(y & Hy & Hp)]; eauto.
    + intros (y & [<-|Hy] & Hp); eauto.
Qed.

Lemma filter_nil_iff {A} (p : A -> bool) l :
  filter p l = [] <-> forall x, In x l -> p x = false.
Proof.
  induction l as [|x l IH]; simpl.
  - tauto.
  - destruct (p x) eqn:E.
    + split; [discriminate|]. intros H. specialize (H x (or_introl eq_refl)). congruence.
    + rewrite IH. split; [intros H y [<-|Hy]; auto|auto].
Qed.

(** Either the values of a dictionary are pairwise distinct, or two
    different keys hold the same value. *)
Lemma values_nodup_or_shared (d : dict) :
  NoDup (keys d) ->
  NoDup (values d)
  \/ exists k1 k2 v, k1 <> k2 /\ In (k1, v) d /\ In (k2, v) d.
Proof.
  unfold keys, values. induction d as [|[k a] d IH]; simpl; intros Hnd.
  - left. constructor.
  - inversion Hnd as [|? ? Hnin Hnd']; subst.
    destruct (IH Hnd') as [Hv|(k1 & k2 & v & Hne & H1 & H2)].
    + destruct (in_dec string_dec a (map snd d)) as [Hin|Hnin'].
      * right. apply in_map_iff in Hin. destruct Hin as ([k' a'] & Ha & Hin).
        simpl in Ha. subst a'. exists k, k', a. repeat split; auto.
        intros ->. apply Hnin. apply (in_map fst) in Hin. exact Hin.
      * left. now constructor.
    + right. exists k1, k2, v. auto.
Qed.

Lemma shared_value_not_nodup (d : dict) k1 k2 v :
  k1 <> k2 -> In (k1, v) d -> In (k2, v) d -> ~ NoDup (values d).
Proof.
  unfold values. induction d as [|[k a] d IH]; simpl; intros Hne H1 H2 Hnd.
  - contradiction.
  - inversion Hnd as [|? ? Hnin Hnd']; subst.
    destruct H1 as [E1|H1]; destruct H2 as [E2|H2].
    + congruence.
    + injection E1 as -> ->. apply Hnin. apply (in_map snd) in H2. exact H2.
    + injection E2 as -> ->. apply Hnin. apply (in_map snd) in H1. exact H1.
    + now apply IH.
Qed.

Lemma keys_filter_nodup (p : string * string -> bool) (d : dict) :
  NoDup (keys d) -> NoDup (keys (filter p d)).
Proof.
  unfold keys. induction d as [|[k a] d IH]; simpl; intros Hnd; [constructor|].
  inversion Hnd as [|? ? Hnin Hnd']; subst.
  destruct (p (k, a)); simpl; auto.
  constructor; auto. intros Hin. apply Hnin.
  apply in_map_iff in Hin. destruct Hin as (x & Hx & Hin).
  apply filter_In in Hin. apply in_map_iff. exists x. tauto.
Qed.

Section Validator.
Variable metagraph : MetaGraph.
Hypothesis dict_keys_distinct : NoDup (keys (kind_to_abbrev metagraph)).

Lemma validator_flag :
  fst (validate_abbreviations metagraph)
  = is_empty (filter (fun k => mem k (metaedge_kinds_of metagraph)) (metanode_kinds_of metagraph))
    && is_empty (get_duplicates (values (metanode_tokens_of metagraph)))
    && forallb (fun metanode => isupper (abbrev metanode)) (get_nodes metagraph)
    && forallb (fun metaedge => islower (kind_abbrev metaedge)) (get_edges metagraph)
    && is_empty (get_duplicates (map get_abbrev (get_edges metagraph))).
Proof.
  unfold validate_abbreviations.
  rewrite report_if_nonempty_valid.
  rewrite (report_loop_valid (fun metaedge => islower (kind_abbrev metaedge))
             (fun metaedge => UppercaseMetaedgeAbbrev (kind_abbrev metaedge))).
  rewrite (report_loop_valid (fun metanode => isupper (abbrev metanode))
             (fun metanode => LowercaseMetanodeAbbrev (abbrev metanode))).
  rewrite !report_if_nonempty_valid. reflexivity.
Qed.

Lemma validator_quiet : quiet (validate_abbreviations metagraph).
Proof.
  unfold validate_abbreviations.
  apply report_if_nonempty_quiet.
  apply (report_loop_quiet (fun metaedge => islower (kind_abbrev metaedge))
           (fun metaedge => UppercaseMetaedgeAbbrev (kind_abbrev metaedge))).
  apply (report_loop_quiet (fun metanode => isupper (abbrev metanode))
           (fun metanode => LowercaseMetanodeAbbrev (abbrev metanode))).
  do 2 apply report_if_nonempty_quiet. unfold quiet. simpl. tauto.
Qed.

Lemma collision_check :
  is_empty (filter (fun k => mem k (metaedge_kinds_of metagraph)) (metanode_kinds_of metagraph)) = false
  <-> namespace_collision metagraph.
Proof.
  unfold namespace_collision, metanode_kinds_of, metaedge_kinds_of. split.
  - destruct (filter (fun k : string => _) _) as [|name r] eqn:E;
      [simpl; discriminate|intros _].
    assert (Hin : In name (name :: r)) by now left.
    rewrite <- E in Hin. apply filter_In in Hin. destruct Hin as [H1 H2].
    apply nodup_In in H1. apply mem_true in H2. apply nodup_In in H2.
    now exists name.
  - intros (name & H1 & H2).
    destruct (filter (fun k : string => _) _) as [|x r] eqn:E; [|reflexivity].
    exfalso. rewrite filter_nil_iff in E. specialize (E name).
    rewrite nodup_In in E. specialize (E H1). apply mem_false in E.
    apply E. now apply nodup_In.
Qed.

Lemma node_token_check :
  is_empty (get_duplicates (values (metanode_tokens_of metagraph))) = false
  <-> duplicated_node_token metagraph.
Proof.
  unfold duplicated_node_token.
  assert (Hnd : NoDup (keys (metanode_tokens_of metagraph)))
    by now apply keys_filter_nodup.
  assert (Hin : forall k v, In (k, v) (metanode_tokens_of metagraph)
                 <-> In k (map identifier (get_nodes metagraph))
                     /\ get (kind_to_abbrev metagraph) k = Some v).
  { intros k v. unfold metanode_tokens_of. rewrite filter_In. simpl.
    rewrite mem_true. unfold metanode_kinds_of. rewrite nodup_In.
    rewrite (get_in _ _ _ dict_keys_distinct). tauto. }
  split.
  - intros H.
    destruct (values_nodup_or_shared _ Hnd) as [Hv|(k1 & k2 & v & Hne & H1 & H2)].
    + apply get_duplicates_nil in Hv. rewrite Hv in H. discriminate.
    + apply Hin in H1. apply Hin in H2. exists k1, k2, v. tauto.
  - intros (k1 & k2 & v & Hne & H1 & H2 & G1 & G2).
    destruct (get_duplicates _) as [|x r] eqn:E; [|reflexivity].
    exfalso. apply get_duplicates_nil in E.
    apply (shared_value_not_nodup (metanode_tokens_of metagraph) k1 k2 v); auto;
      apply Hin; auto.
Qed.

Lemma edge_token_check :
  is_empty (get_duplicates (map get_abbrev (get_edges metagraph))) = false
  <-> duplicated_edge_token metagraph.
Proof.
  unfold duplicated_edge_token. rewrite <- get_duplicates_nil.
  destruct (get_duplicates _); simpl; split; congruence.
Qed.

(** C7: [validate_abbreviations] is a total function of the metagraph
    that returns its verdict together with the printed diagnostics
    (nothing is raised and the metagraph is only read).  The verdict
    is false if and only if a node identifier is also an edge kind,
    two node kinds share a token in [kind_to_abbrev] (a dictionary,
    so with distinct keys), a node token is not uppercase, an
    edge token is not lowercase, or two edges share their full
    abbreviation; otherwise it is true, and something is printed
    exactly when the verdict is false. *)
Theorem validate_abbreviations_verdict :
  (fst (validate_abbreviations metagraph) = false
   <-> namespace_collision metagraph
       \/ duplicated_node_token metagraph
       \/ node_token_not_uppercase metagraph
       \/ edge_token_not_lowercase metagraph
       \/ duplicated_edge_token metagraph)
  /\ (fst (validate_abbreviations metagraph) = true
      <-> ~ (namespace_collision metagraph
             \/ duplicated_node_token metagraph
             \/ node_token_not_uppercase metagraph
             \/ edge_token_not_lowercase metagraph
             \/ duplicated_edge_token metagraph))
  /\ (fst (validate_abbreviations metagraph) = false
      <-> snd (validate_abbreviations metagraph) <> []).
Proof.
  assert (Hmain : fst (validate_abbreviations metagraph) = false
   <-> namespace_collision metagraph
       \/ duplicated_node_token metagraph
       \/ node_token_not_uppercase metagraph
       \/ edge_token_not_lowercase metagraph
       \/ duplicated_edge_token metagraph).
  { rewrite validator_flag, !andb_false_iff.
    rewrite collision_check, node_token_check, edge_token_check.
    rewrite !forallb_false_exists.
    unfold node_token_not_uppercase, edge_token_not_lowercase. tauto. }
  split; [exact Hmain|split].
  - rewrite <- Hmain. destruct (fst (validate_abbreviations metagraph));
      split; congruence.
  - pose proof validator_quiet as Hq. unfold quiet in Hq.
    destruct (fst (validate_abbreviations metagraph)); split; intros H.
    + discriminate.
    + exfalso. apply H. now apply Hq.
    + intros Hnil. apply Hq in Hnil. discriminate.
    + reflexivity.
Qed.
End Validator.

Lemma validate_abbreviations_verdict_witness :
  let metagraph :=
    {| node_dict_keys := ["Gene"; "Disease"];
       edge_dict_keys := [("Gene", "Disease", "associates", "both")];
       get_nodes := [ {| identifier := "Gene"; abbrev := "G" |};
                      {| identifier := "Disease"; abbrev := "d" |} ];
       get_edges := [ {| source := "Gene"; target := "Disease";
                         kind := "associates"; direction := "both";
                         kind_abbrev := "a"; get_abbrev := "GaD" |} ];
       kind_to_abbrev := [("Gene", "G"); ("Disease", "D"); ("associates", "a")] |} in
  validate_abbreviations metagraph = (false, [LowercaseMetanodeAbbrev "d"])
  /\ (fst (validate_abbreviations metagraph) = false
      <-> snd (validate_abbreviations metagraph) <> []).
Proof.
  intros metagraph. split; [reflexivity|].
  apply (validate_abbreviations_verdict metagraph).
  repeat constructor; simpl; intuition discriminate.
Defined.

(** ** Names that collide after lowercasing *)

Lemma extend_same_lower dups k1 k2 a :
  lower k1 = lower k2 -> extend dups k1 a = extend dups k2 a.
Proof.
  intros H. unfold extend, extendable, extension.
  assert (Hlen : String.length k1 = String.length k2)
    by (rewrite <- (length_lower k1), <- (length_lower k2); now rewrite H).
  rewrite Hlen. unfold lower in *. rewrite !substring_map_string.
  now rewrite H.
Qed.

Lemma get_map_extend_item dups (d : dict) k :
  get (map (extend_item dups) d) k = option_map (extend dups k) (get d k).
Proof.
  unfold get. induction d as [|[k' a] d IH]; simpl; [reflexivity|].
  destruct (String.eqb_spec k' k) as [->|Hne]; [reflexivity|exact IH].
Qed.

Lemma first_letters_keeps kinds k :
  forall d0 d, first_letters kinds d0 = Ok d ->
    get d0 k = Some (first_letter k) -> get d k = Some (first_letter k).
Proof.
  induction kinds as [|[|c rest] kinds IH]; simpl; intros d0 d H Hget.
  - now injection H as <-.
  - discriminate.
  - apply (IH _ _ H). destruct (string_dec (String c rest) k) as [<-|Hne].
    + apply get_setitem_same.
    + now rewrite get_setitem_other.
Qed.

Lemma first_letters_get kinds k :
  In k kinds ->
  forall d0 d, first_letters kinds d0 = Ok d -> get d k = Some (first_letter k).
Proof.
  induction kinds as [|[|c rest] kinds IH]; simpl; intros Hin d0 d H.
  - contradiction.
  - discriminate.
  - destruct Hin as [<-|Hin].
    + apply (first_letters_keeps _ _ _ _ H). apply get_setitem_same.
    + now apply (IH Hin _ _ H).
Qed.

Lemma first_letter_same_lower k1 k2 :
  lower k1 = lower k2 -> first_letter k1 = first_letter k2.
Proof.
  destruct k1 as [|c1 r1]; destruct k2 as [|c2 r2]; simpl; intros H;
    try discriminate; try reflexivity.
  now injection H as -> _.
Qed.

Lemma disambiguate_keeps_shared k1 k2 fuel :
  lower k1 = lower k2 ->
  forall d d', disambiguate fuel d = Some d' -> NoDup (keys d) ->
    (exists a, get d k1 = Some a /\ get d k2 = Some a) ->
    exists a, get d' k1 = Some a /\ get d' k2 = Some a.
Proof.
  intros Hlow. induction fuel as [|fuel IH]; intros d d' H Hnd Hsh;
    rewrite disambiguate_eq in H;
    destruct (get_duplicates (values d)) as [|t r]; try discriminate.
  - now injection H as <-.
  - now injection H as <-.
  - apply (IH _ _ H).
    + now rewrite sweep_keys.
    + destruct Hsh as (a & H1 & H2). rewrite sweep_map by assumption.
      exists (extend (t :: r) k1 a).
      rewrite !get_map_extend_item, H1, H2. simpl.
      now rewrite (extend_same_lower _ k1 k2).
Qed.

(** Two different names that are equal up to case keep the loop running
    for ever, whatever else the input holds. *)
Proposition find_abbrevs_case_collision_never_returns kinds k1 k2 :
  In k1 kinds -> In k2 kinds -> k1 <> k2 -> lower k1 = lower k2 ->
  forall fuel d, find_abbrevs fuel kinds <> Some (Ok d).
Proof.
  intros H1 H2 Hne Hlow fuel d. unfold find_abbrevs.
  destruct (first_letters kinds []) as [d0|e] eqn:E0; [|discriminate].
  destruct (disambiguate fuel d0) as [d1|] eqn:E1; [|discriminate].
  intros [= ->].
  assert (Hwf0 : well_formed d0).
  { apply (first_letters_well_formed _ _ _ E0). split; constructor. }
  destruct (disambiguate_sound _ _ _ E1 Hwf0) as ([Hnd _] & _ & Hv).
  destruct (disambiguate_keeps_shared k1 k2 fuel Hlow _ _ E1 (proj1 Hwf0))
    as (a & G1 & G2).
  { exists (first_letter k1). split.
    - apply (first_letters_get _ _ H1 _ _ E0).
    - rewrite (first_letter_same_lower _ _ Hlow).
      apply (first_letters_get _ _ H2 _ _ E0). }
  apply get_in in G1, G2; try assumption.
  exact (shared_value_not_nodup d k1 k2 a Hne G1 G2 Hv).
Qed.

(** ** Counting pairs *)

Lemma binom_1 n : binom n 1 = n.
Proof. induction n as [|n IH]; simpl; [reflexivity|]. destruct n; simpl in *; lia. Qed.

Lemma binom_S_2 n : binom (S n) 2 = n + binom n 2.
Proof. change (binom (S n) 2) with (binom n 1 + binom n 2). now rewrite binom_1. Qed.

Lemma binom_add_2 a b : binom (a + b) 2 = binom a 2 + binom b 2 + a * b.
Proof.
  induction a as [|a IH]; simpl plus.
  - simpl. lia.
  - rewrite !binom_S_2, IH, ?binom_1. lia.
Qed.

Lemma length_combinations2 {A} (l : list A) :
  List.length (combinations2 l) = binom (List.length l) 2.
Proof.
  induction l as [|x l IH]; [reflexivity|].
  cbn [combinations2 List.length]. rewrite length_app, length_map, IH, binom_S_2.
  reflexivity.
Qed.

Lemma in_combinations2_seq n :
  forall a i j, In (i, j) (combinations2 (seq a n)) <-> a <= i /\ i < j /\ j < a + n.
Proof.
  induction n as [|n IH]; intros a i j; simpl.
  - lia.
  - rewrite in_app_iff, in_map_iff, IH. split.
    + intros [(y & [= <- <-] & Hy)|H]; [apply in_seq in Hy|]; lia.
    + intros (H1 & H2 & H3). destruct (Nat.eq_dec a i) as [->|Hne].
      * left. exists j. split; [reflexivity|]. apply in_seq. lia.
      * right. lia.
Qed.

Lemma sum_binom_le (sizes : list nat) :
  list_sum (map (fun n => binom n 2) sizes) <= binom (list_sum sizes) 2.
Proof.
  induction sizes as [|n sizes IH]; simpl; [lia|].
  rewrite binom_add_2. lia.
Qed.

Lemma sum_binom_lt (sizes : list nat) :
  Forall (fun n => 1 <= n) sizes -> 2 <= List.length sizes ->
  list_sum (map (fun n => binom n 2) sizes) < binom (list_sum sizes) 2.
Proof.
  intros Hpos Hlen. destruct sizes as [|n1 [|n2 sizes]]; simpl in Hlen; try lia.
  inversion Hpos as [|? ? H1 Hpos']; subst. inversion Hpos' as [|? ? H2 _]; subst.
  pose proof (sum_binom_le (n2 :: sizes)) as Hle.
  change (list_sum (n1 :: n2 :: sizes)) with (n1 + list_sum (n2 :: sizes)).
  change (list_sum (map (fun n => binom n 2) (n1 :: n2 :: sizes)))
    with (binom n1 2 + list_sum (map (fun n => binom n 2) (n2 :: sizes))).
  rewrite binom_add_2.
  assert (1 <= n1 * list_sum (n2 :: sizes)).
  { change (list_sum (n2 :: sizes)) with (n2 + list_sum sizes). nia. }
  lia.
Qed.

(** ** Grouping positions by label *)

Lemma setdefault_append_sizes d k (i : nat) :
  list_sum (group_sizes (setdefault_append String.eqb d k i))
  = S (list_sum (group_sizes d)).
Proof.
  unfold group_sizes. induction d as [|[k' l] d IH]; simpl; [reflexivity|].
  destruct (String.eqb k' k); simpl.
  - rewrite length_app. simpl. lia.
  - rewrite IH. lia.
Qed.

Lemma setdefault_append_nonempty d k (i : nat) :
  Forall (fun n => 1 <= n) (group_sizes d) ->
  Forall (fun n => 1 <= n) (group_sizes (setdefault_append String.eqb d k i)).
Proof.
  unfold group_sizes. induction d as [|[k' l] d IH]; simpl; intros H.
  - repeat constructor.
  - inversion H as [|? ? H1 H2]; subst. destruct (String.eqb k' k); simpl.
    + constructor; [rewrite length_app; simpl; lia|assumption].
    + constructor; auto.
Qed.

Lemma setdefault_append_keys (d : list (string * list nat)) k i k0 :
  In k0 (map fst (setdefault_append String.eqb d k i))
  <-> In k0 (map fst d) \/ k0 = k.
Proof.
  induction d as [|[k' l] d IH]; simpl.
  - intuition.
  - destruct (String.eqb_spec k' k) as [->|Hne]; simpl.
    + intuition.
    + rewrite IH. tauto.
Qed.

Lemma setdefault_append_absent (d : list (string * list nat)) k i :
  ~ In k (map fst d) -> setdefault_append String.eqb d k i = d ++ [(k, [i])].
Proof.
  induction d as [|[k' l] d IH]; simpl; intros H; [reflexivity|].
  destruct (String.eqb_spec k' k) as [->|Hne]; [tauto|].
  rewrite IH; tauto.
Qed.

Lemma group_fold_spec (items : list (nat * string)) :
  forall d,
    let groups :=
      fold_left (fun label_to_nodes (item : nat * string) =>
                   setdefault_append String.eqb label_to_nodes (snd item) (fst item))
                items d in
    list_sum (group_sizes groups) = list_sum (group_sizes d) + List.length items
    /\ (Forall (fun n => 1 <= n) (group_sizes d) ->
        Forall (fun n => 1 <= n) (group_sizes groups))
    /\ (forall k, In k (map fst groups) <-> In k (map fst d) \/ In k (map snd items)).
Proof.
  induction items as [|[i label] items IH]; intros d; simpl.
  - repeat split; auto; try lia; tauto.
  - destruct (IH (setdefault_append String.eqb d label i)) as (H1 & H2 & H3).
    repeat split.
    + rewrite H1, setdefault_append_sizes. lia.
    + intros H. apply H2. now apply setdefault_append_nonempty.
    + rewrite H3, setdefault_append_keys. intuition.
    + rewrite H3, setdefault_append_keys. intuition.
Qed.

Lemma map_snd_combine_seq {A} (l : list A) :
  forall a, map snd (combine (seq a (List.length l)) l) = l.
Proof. induction l as [|x l IH]; intros a; simpl; [reflexivity|]. now rewrite IH. Qed.

Lemma map_snd_enumerate {A} (l : list A) : map snd (enumerate l) = l.
Proof. apply map_snd_combine_seq. Qed.

Lemma length_enumerate {A} (l : list A) : List.length (enumerate l) = List.length l.
Proof. unfold enumerate. rewrite length_combine, length_seq. lia. Qed.

Lemma group_positions_spec labels :
  list_sum (group_sizes (group_positions labels)) = List.length labels
  /\ Forall (fun n => 1 <= n) (group_sizes (group_positions labels))
  /\ (forall k, In k (map fst (group_positions labels)) <-> In k labels).
Proof.
  destruct (group_fold_spec (enumerate labels) []) as (H1 & H2 & H3).
  fold (group_positions labels) in H1, H2, H3.
  rewrite length_enumerate in H1. rewrite map_snd_enumerate in H3.
  repeat split.
  - exact H1.
  - apply H2. constructor.
  - intros H. apply H3 in H. simpl in H. tauto.
  - intros H. apply H3. now right.
Qed.

Lemma length_extend_pairs (groups : list (list nat)) :
  forall pairs : list (nat * nat),
    List.length (fold_left (fun pairs nodes => pairs ++ combinations2 nodes) groups pairs)
    = List.length pairs
      + list_sum (map (fun nodes => binom (List.length nodes) 2) groups).
Proof.
  induction groups as [|g groups IH]; intros pairs; simpl; [lia|].
  rewrite IH, length_app, length_combinations2. lia.
Qed.

Lemma length_labeled_pairs labels :
  List.length (labeled_pairs labels)
  = list_sum (map (fun n => binom n 2) (group_sizes (group_positions labels))).
Proof.
  unfold labeled_pairs, group_sizes. rewrite length_extend_pairs. simpl.
  now rewrite !map_map.
Qed.

(** No more pairs than among all positions. *)
Lemma labeled_pairs_le labels :
  List.length (labeled_pairs labels) <= binom (List.length labels) 2.
Proof.
  rewrite length_labeled_pairs.
  destruct (group_positions_spec labels) as (H1 & _ & _). rewrite <- H1.
  apply sum_binom_le.
Qed.

(** Strictly fewer as soon as two labels differ. *)
Lemma labeled_pairs_lt labels a b :
  In a labels -> In b labels -> a <> b ->
  List.length (labeled_pairs labels) < binom (List.length labels) 2.
Proof.
  intros Ha Hb Hne. rewrite length_labeled_pairs.
  destruct (group_positions_spec labels) as (H1 & H2 & H3). rewrite <- H1.
  apply sum_binom_lt; [exact H2|].
  apply H3 in Ha. apply H3 in Hb. unfold group_sizes. rewrite length_map.
  destruct (group_positions labels) as [|g1 [|g2 r]]; simpl in *.
  - destruct Ha.
  - destruct Ha as [Ha|[]]. destruct Hb as [Hb|[]]. congruence.
  - lia.
Qed.

Lemma group_fold_distinct (items : list (nat * string)) :
  forall d, NoDup (map fst d ++ map snd items) ->
    fold_left (fun label_to_nodes (item : nat * string) =>
                 setdefault_append String.eqb label_to_nodes (snd item) (fst item))
              items d
    = d ++ map (fun item => (snd item, [fst item])) items.
Proof.
  induction items as [|[i label] items IH]; intros d Hnd; simpl.
  - now rewrite app_nil_r.
  - simpl in Hnd. rewrite setdefault_append_absent.
    + rewrite IH.
      * now rewrite <- app_assoc.
      * rewrite map_app. simpl. rewrite <- app_assoc. exact Hnd.
    + apply NoDup_remove_2 in Hnd. rewrite in_app_iff in Hnd. tauto.
Qed.

(** Pairwise distinct labels leave no pair to compare. *)
Lemma labeled_pairs_distinct labels : NoDup labels -> labeled_pairs labels = [].
Proof.
  intros Hnd. unfold labeled_pairs, group_positions.
  rewrite group_fold_distinct by (simpl; now rewrite map_snd_enumerate).
  simpl. rewrite map_map. simpl.
  induction (enumerate labels) as [|x l IH]; simpl; [reflexivity|exact IH].
Qed.

(** ** Counting the terms of a clause *)

Lemma count_char_app c s1 s2 :
  count_char c (s1 ++ s2) = count_char c s1 + count_char c s2.
Proof. induction s1 as [|c' s1 IH]; simpl; [reflexivity|]. rewrite IH. lia. Qed.

Lemma count_eq_format_nat n : count_char "=" (format_nat n) = 0.
Proof.
  unfold format_nat. induction (Nat.to_uint n) as [|d IH|d IH|d IH|d IH|d IH|d IH|d IH|d IH|d IH|d IH];
    simpl; auto.
Qed.

Lemma count_eq_format_pair p : count_char "=" (format_pair p) = 1.
Proof.
  unfold format_pair. rewrite !count_char_app, !count_eq_format_nat. reflexivity.
Qed.

Lemma count_eq_join_pairs (pairs : list (nat * nat)) :
  count_char "=" (join " OR " (map format_pair pairs)) = List.length pairs.
Proof.
  unfold join. induction pairs as [|p pairs IH]; [reflexivity|].
  destruct pairs as [|q pairs].
  - simpl. apply count_eq_format_pair.
  - change (String.concat " OR " (map format_pair (p :: q :: pairs)))
      with (format_pair p ++ " OR " ++ String.concat " OR " (map format_pair (q :: pairs)))%string.
    rewrite !count_char_app, IH, count_eq_format_pair. reflexivity.
Qed.

Lemma pairwise_clauses_format (pairs : iterable (nat * nat)) :
  pairwise_clauses (format_expanded_clause pairs) = List.length (items_of pairs).
Proof.
  unfold pairwise_clauses, format_expanded_clause.
  destruct (truthy pairs) eqn:E; simpl negb; cbv beta match.
  - rewrite !count_char_app, count_eq_join_pairs. simpl. lia.
  - destruct pairs as [l|[|x l]]; try discriminate. reflexivity.
Qed.

(** ** String assembly *)

Lemma append_nil_r (s : string) : (s ++ "")%string = s.
Proof. induction s as [|c s IH]; simpl; congruence. Qed.

Lemma append_assoc (s1 s2 s3 : string) :
  ((s1 ++ s2) ++ s3)%string = (s1 ++ (s2 ++ s3))%string.
Proof. induction s1 as [|c s1 IH]; simpl; congruence. Qed.

Lemma concat_empty_cons (x : string) (l : list string) :
  String.concat "" (x :: l) = (x ++ String.concat "" l)%string.
Proof. destruct l; simpl; [now rewrite append_nil_r|reflexivity]. Qed.

Lemma fold_left_append {A} (f : A -> string) (items : list A) :
  forall q,
    fold_left (fun q item => (q ++ f item)%string) items q
    = (q ++ String.concat "" (map f items))%string.
Proof.
  induction items as [|x items IH]; intros q.
  - simpl. now rewrite append_nil_r.
  - cbn [fold_left map]. rewrite IH, concat_empty_cons. apply append_assoc.
Qed.

Lemma fold_left_ext_in {A B} (f g : A -> B -> A) (l : list B) :
  (forall a x, f a x = g a x) ->
  forall a, fold_left f l a = fold_left g l a.
Proof.
  intros H. induction l as [|x l IH]; intros a; simpl; [reflexivity|].
  now rewrite H, IH.
Qed.

Lemma connector_dirs rel_type direction rest :
  (dir0 direction ++ "[:" ++ rel_type ++ "]" ++ dir1 direction ++ rest)%string
  = (connector rel_type direction ++ rest)%string.
Proof.
  unfold dir0, dir1, connector.
  destruct (String.eqb_spec direction "forward") as [->|Hf].
  - simpl. now rewrite !append_assoc.
  - destruct (String.eqb_spec direction "backward") as [->|Hb];
      simpl; now rewrite !append_assoc.
Qed.

Lemma last_item_cons {A} (x : A) (l : list A) :
  exists y, last_item (x :: l) = Ok y.
Proof.
  unfold last_item. simpl. destruct (rev l) as [|y r]; simpl; eauto.
Qed.

Lemma position_labels_length metarels labels :
  position_labels metarels = Ok labels ->
  metarels <> [] /\ List.length labels = List.length metarels + 1.
Proof.
  unfold position_labels. destruct metarels as [|m metarels].
  - discriminate.
  - destruct (last_item_cons m metarels) as (y & Hy). rewrite Hy. cbn [bind].
    intros [= <-]. split; [discriminate|].
    cbn [List.length]. rewrite length_app, length_map. reflexivity.
Qed.

Lemma position_labels_total metarels :
  metarels <> [] -> exists labels, position_labels metarels = Ok labels.
Proof.
  destruct metarels as [|m metarels]; [congruence|]. intros _.
  unfold position_labels. destruct (last_item_cons m metarels) as (y & Hy).
  rewrite Hy. simpl. eauto.
Qed.

(** The chain of tests on [unique_nodes] is a dispatch on the mode. *)
Lemma unique_nodes_clause_mode metarels unique_nodes :
  unique_nodes_clause metarels unique_nodes =
  match mode_of unique_nodes with
  | None => Raise AssertionError
  | Some NoneMode => Ok ""
  | Some Nested => Ok nested_clause
  | Some Expanded =>
      Ok (format_expanded_clause (Iterator (combinations2 (positions metarels))))
  | Some Labeled =>
      labels <- position_labels metarels ;;
      Ok (format_expanded_clause (PyList (labeled_pairs labels)))
  end.
Proof.
  destruct unique_nodes as [|[|]|n|s]; try reflexivity.
  unfold unique_nodes_clause, mode_of, is_True, is_False, is_str.
  cbn [orb].
  destruct (String.eqb s "nested"); [reflexivity|].
  destruct (String.eqb s "expanded"); [reflexivity|].
  destruct (String.eqb s "labeled"); reflexivity.
Qed.

Section QueryProperties.
Variable arrange_metaege : string -> string.

Lemma cypher_path_is_path_pattern metarels :
  metarels <> [] ->
  cypher_path arrange_metaege (Metarels metarels) = Ok (path_pattern metarels).
Proof.
  destruct metarels as [|first rest] eqn:E; [congruence|]. intros _.
  rewrite <- E. unfold cypher_path, path_pattern. cbn [to_metarels].
  rewrite E at 1. rewrite E at 2. f_equal.
  rewrite <- (fold_left_append (step_pattern (List.length metarels))).
  rewrite E. unfold node_pattern at 1. cbn [format_nat].
  apply fold_left_ext_in.
  intros q [i [[[s t] r] d]]. unfold step_pattern, node_pattern.
  rewrite connector_dirs. f_equal. f_equal.
  destruct (i + 1 =? List.length (first :: rest)); reflexivity.
Qed.

(** With at least one step, the only thing that can go wrong is the
    value of [unique_nodes]. *)
Lemma construct_dwpc_query_eq arg property using_ unique_nodes :
  to_metarels arrange_metaege arg <> [] ->
  exists using_query,
    construct_dwpc_query arrange_metaege arg property using_ unique_nodes
    = (unique_nodes_query <-
         unique_nodes_clause (to_metarels arrange_metaege arg) unique_nodes ;;
       Ok (query_text (to_metarels arrange_metaege arg) property
             (path_pattern (to_metarels arrange_metaege arg))
             using_query unique_nodes_query)).
Proof.
  intros Hne. unfold construct_dwpc_query.
  rewrite (cypher_path_is_path_pattern _ Hne). cbn [bind].
  destruct (to_metarels arrange_metaege arg) as [|first rest] eqn:E; [congruence|].
  destruct (last_item_cons first rest) as (last & Hlast).
  destruct using_.
  - exists (using_text (first :: rest) property first last).
    unfold item_at. cbn [nth_error bind]. rewrite Hlast. cbn [bind]. reflexivity.
  - exists "". reflexivity.
Qed.

(** ** The query builders: the claims *)

(** C6 (as amended): for every non-empty step sequence, [cypher_path]
    emits one node variable per position, named n0..nL, with a label on
    the first and on the last variable only, and renders each step by
    its direction: forward with an arrow to the target, backward with an
    arrow to the source, anything else without arrow.  The two forward
    steps Gene-interacts-Gene-associates-Disease give
    [(n0:Gene)-[:INTERACTS_i]->(n1)-[:ASSOCIATES_a]->(n2:Disease)]. *)
Theorem cypher_path_pattern (metarels : list metarel) :
  metarels <> [] ->
  cypher_path arrange_metaege (Metarels metarels) = Ok (path_pattern metarels)
  /\ (forall i source_label target_label rel_type direction,
        step_pattern (List.length metarels)
          (i, (source_label, target_label, rel_type, direction))
        = (connector rel_type direction ++ "(n" ++ format_nat (i + 1)
             ++ (if (i + 1 =? List.length metarels)%nat
                 then ":" ++ target_label else "") ++ ")")%string)
  /\ (forall rel_type direction,
        (direction = "forward" ->
         connector rel_type direction = ("-[:" ++ rel_type ++ "]->")%string)
        /\ (direction = "backward" ->
            connector rel_type direction = ("<-[:" ++ rel_type ++ "]-")%string)
        /\ (direction <> "forward" -> direction <> "backward" ->
            connector rel_type direction = ("-[:" ++ rel_type ++ "]-")%string))
  /\ cypher_path arrange_metaege (Metarels gene_gene_disease)
     = Ok "(n0:Gene)-[:INTERACTS_i]->(n1)-[:ASSOCIATES_a]->(n2:Disease)".
Proof.
  intros Hne. split; [now apply cypher_path_is_path_pattern|]. split; [|split].
  - intros i s t r d. unfold step_pattern, node_pattern.
    destruct (i + 1 =? List.length metarels); reflexivity.
  - intros r d. unfold connector. repeat split.
    + intros ->. reflexivity.
    + intros ->. reflexivity.
    + intros Hf Hb. apply String.eqb_neq in Hf, Hb. now rewrite Hf, Hb.
  - reflexivity.
Qed.

(** C8 (as amended): [metapath_to_metarels] is total: for every metapath,
    chaining or not, it yields exactly one metarel per metaedge, in the
    same order; it compares no target kind with the next source kind. *)
Theorem metapath_to_metarels_one_per_edge (metapath : list MetaEdge) :
  List.length (metapath_to_metarels arrange_metaege metapath) = List.length metapath
  /\ forall i metaedge,
       nth_error metapath i = Some metaedge ->
       nth_error (metapath_to_metarels arrange_metaege metapath) i
       = Some (metaedge_to_metarel arrange_metaege metaedge).
Proof.
  unfold metapath_to_metarels. split.
  - apply length_map.
  - intros i metaedge H. now apply map_nth_error.
Qed.

(** C9 (as amended): with at least one step, [construct_dwpc_query]
    raises [AssertionError] (the failed [assert unique_nodes is False])
    exactly for the values of [unique_nodes] that select no mode, that
    is anything but [False], [True], "nested", "expanded" and "labeled";
    it then returns no query text.  For the values that select a mode it
    returns a query. *)
Theorem construct_dwpc_query_mode_check
    (arg : path_arg) (property : string) (using_ : bool) (unique_nodes : pyvalue) :
  to_metarels arrange_metaege arg <> [] ->
  (mode_of unique_nodes = None ->
   construct_dwpc_query arrange_metaege arg property using_ unique_nodes
   = Raise AssertionError)
  /\ (mode_of unique_nodes <> None ->
      exists query,
        construct_dwpc_query arrange_metaege arg property using_ unique_nodes
        = Ok query)
  /\ (unique_nodes_clause (to_metarels arrange_metaege arg) unique_nodes
      = Raise AssertionError <-> mode_of unique_nodes = None).
Proof.
  intros Hne.
  destruct (construct_dwpc_query_eq arg property using_ unique_nodes Hne)
    as (using_query & ->).
  destruct (position_labels_total _ Hne) as (labels & Hlabels).
  rewrite unique_nodes_clause_mode.
  destruct (mode_of unique_nodes) as [[| | |]|]; rewrite ?Hlabels; cbn [bind].
  all: repeat split; try congruence; try discriminate; eauto.
Qed.

(** C10: when the labels of the L+1 positions are pairwise distinct, the
    labeled mode emits the empty clause, and the query is the very text
    obtained with [unique_nodes = False] for the same path, property and
    index-hint setting. *)
Theorem labeled_query_with_distinct_labels
    (arg : path_arg) (property : string) (using_ : bool) (labels : list string) :
  position_labels (to_metarels arrange_metaege arg) = Ok labels ->
  NoDup labels ->
  unique_nodes_clause (to_metarels arrange_metaege arg) (PyStr "labeled") = Ok ""
  /\ exists query,
       construct_dwpc_query arrange_metaege arg property using_ (PyStr "labeled")
       = Ok query
       /\ construct_dwpc_query arrange_metaege arg property using_ (PyBool false)
          = Ok query.
Proof.
  intros Hlabels Hnd.
  destruct (position_labels_length _ _ Hlabels) as [Hne _].
  assert (Hclause : unique_nodes_clause (to_metarels arrange_metaege arg)
                      (PyStr "labeled") = Ok "").
  { rewrite unique_nodes_clause_mode. cbn [mode_of String.eqb Ascii.eqb Bool.eqb].
    rewrite Hlabels. cbn [bind]. now rewrite labeled_pairs_distinct. }
  split; [exact Hclause|].
  destruct using_.
  - unfold construct_dwpc_query. rewrite Hclause.
    rewrite (cypher_path_is_path_pattern _ Hne). cbn [bind].
    destruct (to_metarels arrange_metaege arg) as [|first rest]; [congruence|].
    destruct (last_item_cons first rest) as (last & Hlast).
    unfold item_at. cbn [nth_error bind]. rewrite Hlast. cbn [bind].
    eexists. split; reflexivity.
  - unfold construct_dwpc_query. rewrite Hclause.
    rewrite (cypher_path_is_path_pattern _ Hne). cbn [bind].
    eexists. split; reflexivity.
Qed.

End QueryProperties.

Lemma cypher_path_pattern_witness :
  gene_gene_disease <> []
  /\ cypher_path (fun abbrev => abbrev) (Metarels gene_gene_disease)
     = Ok (path_pattern gene_gene_disease).
Proof.
  split; [discriminate|].
  apply (cypher_path_pattern (fun abbrev => abbrev) gene_gene_disease).
  discriminate.
Defined.

(** C6 (as stated) fails on the names of the node variables: the
    pattern of the example starts with [(n0:Gene)], not [(v0:Gene)]. *)
Lemma cypher_path_variable_names_counterexample :
  ~ (exists arrange_metaege,
       cypher_path arrange_metaege (Metarels gene_gene_disease)
       = Ok "(v0:Gene)-[:INTERACTS_i]->(v1)-[:ASSOCIATES_a]->(v2:Disease)").
Proof. intros (arrange_metaege & H). discriminate H. Qed.

(** C8 (as stated) fails: Gene-associates-Disease followed by
    Compound-binds-Gene does not chain, yet it is normalized into two
    metarels and compiled into a query without any error. *)
Lemma metapath_to_metarels_no_chaining_check_counterexample :
  chains non_chaining_path = false
  /\ forall arrange_metaege,
       List.length (metapath_to_metarels arrange_metaege non_chaining_path) = 2
       /\ exists query,
            construct_dwpc_query arrange_metaege (MetaPath non_chaining_path)
              "name" true (PyBool false) = Ok query.
Proof.
  split; [reflexivity|]. intros arrange_metaege. split; [reflexivity|].
  eexists. reflexivity.
Qed.

Lemma construct_dwpc_query_mode_check_witness :
  construct_dwpc_query (fun abbrev => abbrev) (Metarels gene_gene_disease)
    "name" true (PyStr "shortest") = Raise AssertionError
  /\ exists query,
       construct_dwpc_query (fun abbrev => abbrev) (Metarels gene_gene_disease)
         "name" true (PyStr "labeled") = Ok query.
Proof.
  split.
  - apply (construct_dwpc_query_mode_check (fun abbrev => abbrev)
             (Metarels gene_gene_disease) "name" true (PyStr "shortest"));
      [discriminate|reflexivity].
  - apply (construct_dwpc_query_mode_check (fun abbrev => abbrev)
             (Metarels gene_gene_disease) "name" true (PyStr "labeled"));
      [discriminate|discriminate].
Defined.

(** C9 (as stated) fails: the mode without uniqueness constraint is
    selected by [False], not by a value "none"; the string "none" and
    [None] select no mode, and what is raised then is the
    [AssertionError] of the [assert] statement. *)
Lemma construct_dwpc_query_none_mode_counterexample :
  construct_dwpc_query (fun abbrev => abbrev) (Metarels gene_gene_disease)
    "name" true (PyStr "none") = Raise AssertionError
  /\ construct_dwpc_query (fun abbrev => abbrev) (Metarels gene_gene_disease)
       "name" true PyNone = Raise AssertionError.
Proof. split; reflexivity. Qed.

Lemma labeled_query_with_distinct_labels_witness :
  position_labels compound_gene_disease = Ok ["Compound"; "Gene"; "Disease"]
  /\ NoDup ["Compound"; "Gene"; "Disease"]
  /\ exists query,
       construct_dwpc_query (fun abbrev => abbrev) (Metarels compound_gene_disease)
         "identifier" true (PyStr "labeled") = Ok query
       /\ construct_dwpc_query (fun abbrev => abbrev) (Metarels compound_gene_disease)
            "identifier" true (PyBool false) = Ok query.
Proof.
  assert (Hnd : NoDup ["Compound"; "Gene"; "Disease"]).
  { repeat constructor; simpl; intuition discriminate. }
  split; [reflexivity|]. split; [exact Hnd|].
  apply (labeled_query_with_distinct_labels (fun abbrev => abbrev)
           (Metarels compound_gene_disease) "identifier" true
           ["Compound"; "Gene"; "Disease"] eq_refl Hnd).
Defined.

(** * Further properties of [hetio/abbreviation.py] *)

(** X1: [get_duplicates] returns, without repetition, exactly the
    elements that occur at least twice; its result is empty if and only
    if the elements are pairwise distinct. *)
Theorem get_duplicates_spec (iterable : list string) :
  (forall key, In key (get_duplicates iterable)
               <-> 2 <= count_occ string_dec iterable key)
  /\ NoDup (get_duplicates iterable)
  /\ (get_duplicates iterable = [] <-> NoDup iterable).
Proof.
  split; [|split].
  - intros key. rewrite in_get_duplicates. lia.
  - unfold get_duplicates. apply NoDup_filter, NoDup_nodup.
  - apply get_duplicates_nil.
Qed.

Lemma lower_ascii_idempotent c : lower_ascii (lower_ascii c) = lower_ascii c.
Proof. destruct c as [[] [] [] [] [] [] [] []]; reflexivity. Qed.

Lemma lower_ascii_not_upper c : is_upper_ascii (lower_ascii c) = false.
Proof. destruct c as [[] [] [] [] [] [] [] []]; reflexivity. Qed.

Lemma lower_idempotent s : lower (lower s) = lower s.
Proof.
  unfold lower. induction s as [|c s IH]; simpl; [reflexivity|].
  now rewrite lower_ascii_idempotent, IH.
Qed.

Lemma lower_no_upper s : existsb_string is_upper_ascii (lower s) = false.
Proof.
  unfold lower. induction s as [|c s IH]; simpl; [reflexivity|].
  now rewrite lower_ascii_not_upper, IH.
Qed.

(** X2: whatever [find_abbrevs] returns, for any list of ASCII names,
    has the names as its pairwise distinct keys, holds no token twice,
    and maps each name to a non-empty lowercased prefix of it. *)
Theorem find_abbrevs_returns_unique_prefixes
    (fuel : nat) (kinds : list string) (kind_to_abbrev : dict) :
  ascii_names kinds ->
  find_abbrevs fuel kinds = Some (Ok kind_to_abbrev) ->
  NoDup (keys kind_to_abbrev)
  /\ (forall kind, In kind (keys kind_to_abbrev) <-> In kind kinds)
  /\ NoDup (values kind_to_abbrev)
  /\ (forall kind abbrev, In (kind, abbrev) kind_to_abbrev ->
        exists n, 1 <= n <= String.length kind
                  /\ abbrev = lower (substring 0 n kind)).
Proof.
  intros _ H. destruct (find_abbrevs_sound _ _ _ H) as ([Hnd Htok] & Hv & Hk).
  repeat split; try assumption; try apply Hk.
  intros kind abbrev Hin. rewrite Forall_forall in Htok.
  destruct (Htok _ Hin) as (n & Hn & Ha). simpl in *.
  exists n. split; [exact Hn|]. unfold lower. now rewrite substring_map_string.
Qed.

Lemma find_abbrevs_returns_unique_prefixes_witness :
  find_abbrevs 5 ["ab"; "abc"; "Abd"; "ab"]
  = Some (Ok [("ab", "ab"); ("abc", "abc"); ("Abd", "abd")])
  /\ NoDup (values [("ab", "ab"); ("abc", "abc"); ("Abd", "abd")]).
Proof.
  split; [reflexivity|].
  apply (find_abbrevs_returns_unique_prefixes 5 ["ab"; "abc"; "Abd"; "ab"]).
  - apply ascii_names_forallb. reflexivity.
  - reflexivity.
Defined.

(** X3: every token that [find_abbrevs] returns for ASCII names is
    lowercase: [lower] leaves it unchanged and it holds no uppercase
    letter. *)
Theorem find_abbrevs_tokens_lowercase
    (fuel : nat) (kinds : list string) (kind_to_abbrev : dict) :
  ascii_names kinds ->
  find_abbrevs fuel kinds = Some (Ok kind_to_abbrev) ->
  forall abbrev, In abbrev (values kind_to_abbrev) ->
    lower abbrev = abbrev /\ existsb_string is_upper_ascii abbrev = false.
Proof.
  intros _ H abbrev Hin. destruct (find_abbrevs_sound _ _ _ H) as ([_ Htok] & _ & _).
  apply in_map_iff in Hin. destruct Hin as ([k a] & Ha & Hin). simpl in Ha. subst a.
  rewrite Forall_forall in Htok. destruct (Htok _ Hin) as (n & _ & Ha). simpl in Ha.
  assert (Hl : abbrev = lower (substring 0 n k))
    by (unfold lower; now rewrite substring_map_string).
  rewrite Hl. split; [apply lower_idempotent|apply lower_no_upper].
Qed.

Lemma find_abbrevs_tokens_lowercase_witness :
  lower "di" = "di" /\ existsb_string is_upper_ascii "di" = false.
Proof.
  apply (find_abbrevs_tokens_lowercase 3 ["Gene"; "Disease"; "DRUG"]
           [("Gene", "g"); ("Disease", "di"); ("DRUG", "dr")]).
  - apply ascii_names_forallb. reflexivity.
  - reflexivity.
  - simpl. auto.
Defined.

(** X4: [find_abbrevs] raises exactly when a name is empty, and then it
    is the [IndexError] of [kind[0]], whatever the fuel. *)
Theorem find_abbrevs_raises_iff_empty_name (fuel : nat) (kinds : list string) (e : exn) :
  find_abbrevs fuel kinds = Some (Raise e) <-> e = IndexError /\ In "" kinds.
Proof.
  unfold find_abbrevs. split.
  - destruct (first_letters kinds []) as [d0|e0] eqn:E0.
    + destruct (disambiguate fuel d0); discriminate.
    + intros [= ->].
      destruct (in_dec string_dec "" kinds) as [Hin|Hnin].
      * rewrite (first_letters_raises _ Hin) in E0. injection E0 as <-. auto.
      * destruct (first_letters_total kinds) with (d0 := @nil (string * string))
          as (d & Hd).
        { intros kind Hk ->. contradiction. }
        congruence.
  - intros [-> Hin]. now rewrite (first_letters_raises _ Hin).
Qed.

(** X5: for ASCII names none of which is empty, two different names
    that are equal up to case keep the [while] loop running for ever,
    whatever else the input holds: no amount of fuel makes
    [find_abbrevs] end, be it with a dictionary or with an error. *)
Theorem find_abbrevs_case_collision_loops (kinds : list string) (k1 k2 : string) :
  ascii_names kinds ->
  (forall kind, In kind kinds -> kind <> "") ->
  In k1 kinds -> In k2 kinds -> k1 <> k2 -> lower k1 = lower k2 ->
  forall fuel, find_abbrevs fuel kinds = None.
Proof.
  intros _ Hne H1 H2 Hk Hlow fuel.
  destruct (find_abbrevs fuel kinds) as [[d|e]|] eqn:E; [| |reflexivity].
  - destruct (find_abbrevs_case_collision_never_returns kinds k1 k2
                H1 H2 Hk Hlow fuel d E).
  - unfold find_abbrevs in E.
    destruct (first_letters_total kinds Hne []) as (d0 & Hd0).
    rewrite Hd0 in E. destruct (disambiguate fuel d0); discriminate.
Qed.

Lemma find_abbrevs_case_collision_loops_witness :
  find_abbrevs 1000 ["Gene"; "Disease"; "gene"] = None.
Proof.
  apply (find_abbrevs_case_collision_loops
           ["Gene"; "Disease"; "gene"] "Gene" "gene").
  - apply ascii_names_forallb. reflexivity.
  - simpl. intros kind H. intuition (subst; discriminate).
  - simpl. auto.
  - simpl. auto.
  - discriminate.
  - reflexivity.
Defined.

Lemma find_abbrevs_returns (kinds : list string) :
  (forall kind, In kind kinds -> kind <> "") ->
  case_distinct kinds ->
  exists fuel0 kind_to_abbrev,
    forall fuel, fuel0 <= fuel ->
      find_abbrevs fuel kinds = Some (Ok kind_to_abbrev).
Proof.
  intros Hne Hinj.
  destruct (first_letters_total kinds Hne []) as (d0 & Hd0).
  assert (Hwf0 : well_formed d0).
  { apply (first_letters_well_formed _ _ _ Hd0). split; constructor. }
  assert (Hinj0 : case_distinct (keys d0)).
  { intros k1 k2 H1 H2. apply Hinj.
    - apply (first_letters_keys _ _ _ Hd0) in H1. simpl in H1. tauto.
    - apply (first_letters_keys _ _ _ Hd0) in H2. simpl in H2. tauto. }
  destruct (disambiguate_terminates (slack d0) d0 Hwf0 Hinj0 (le_n _)) as (d & Hd).
  exists (slack d0), d. intros fuel Hfuel. unfold find_abbrevs. rewrite Hd0.
  now rewrite (disambiguate_more_fuel _ _ _ _ Hd Hfuel).
Qed.

(** X6: for any list of non-empty ASCII names that stay distinct after
    lowercasing, repeated names allowed, [find_abbrevs] terminates:
    from some amount of fuel on it returns one and the same dictionary. *)
Theorem find_abbrevs_terminates (kinds : list string) :
  ascii_names kinds ->
  (forall kind, In kind kinds -> kind <> "") ->
  case_distinct kinds ->
  exists fuel0 kind_to_abbrev,
    forall fuel, fuel0 <= fuel ->
      find_abbrevs fuel kinds = Some (Ok kind_to_abbrev).
Proof.
  intros _. apply find_abbrevs_returns.
Qed.

Lemma find_abbrevs_terminates_witness :
  exists fuel0 kind_to_abbrev,
    forall fuel, fuel0 <= fuel ->
      find_abbrevs fuel ["binds"; "treats"; "binds"] = Some (Ok kind_to_abbrev).
Proof.
  apply find_abbrevs_terminates.
  - apply ascii_names_forallb. reflexivity.
  - simpl. intros kind H. intuition (subst; discriminate).
  - intros k1 k2 H1 H2 Hl. simpl in H1, H2.
    destruct H1 as [<-|[<-|[<-|[]]]]; destruct H2 as [<-|[<-|[<-|[]]]];
      try reflexivity; vm_compute in Hl; discriminate.
Defined.

(** ** Tokens are no longer than the collisions require *)

Lemma in_setitem (d : dict) k v k0 a :
  In (k0, a) (setitem d k v) -> In (k0, a) d \/ (k0 = k /\ a = v).
Proof.
  unfold setitem. induction d as [|[k' a'] d IH]; simpl.
  - intros [[= <- <-]|[]]. auto.
  - destruct (String.eqb_spec k' k) as [->|Hne]; simpl.
    + intros [[= <- <-]|H]; auto.
    + intros [H|H]; auto. destruct (IH H); auto.
Qed.

Lemma first_letters_lengths kinds :
  forall d0 d, first_letters kinds d0 = Ok d ->
    (forall k a, In (k, a) d0 -> String.length a = 1) ->
    forall k a, In (k, a) d -> String.length a = 1.
Proof.
  induction kinds as [|[|c rest] kinds IH]; simpl; intros d0 d H H0.
  - now injection H as <-.
  - discriminate.
  - apply (IH _ _ H). intros k a Hin.
    destruct (in_setitem _ _ _ _ _ Hin) as [Hin'|[_ ->]]; [eauto|reflexivity].
Qed.

(** A duplicated token has a second holder. *)
Lemma duplicated_token_other_holder (d : dict) k a :
  NoDup (keys d) -> In a (get_duplicates (values d)) -> In (k, a) d ->
  exists k', k' <> k /\ In (k', a) d.
Proof.
  intros Hnd Hdup Hin.
  set (p := fun item : string * string =>
              String.eqb (snd item) a && negb (String.eqb (fst item) k)).
  destruct (existsb p d) eqn:E.
  - apply existsb_exists in E. destruct E as ([k' a'] & Hin' & Hp).
    unfold p in Hp. simpl in Hp. apply andb_true_iff in Hp. destruct Hp as [H1 H2].
    apply String.eqb_eq in H1. subst a'.
    apply negb_true_iff, String.eqb_neq in H2. now exists k'.
  - exfalso. apply in_get_duplicates in Hdup.
    assert (Hle : count_occ string_dec (values d) a
                  <= count_occ string_dec (keys d) k).
    { apply count_values_le_keys. intros item Hitem Hs.
      destruct (string_dec (fst item) k) as [|Hne]; [assumption|].
      assert (Hp : p item = true).
      { unfold p. rewrite Hs, String.eqb_refl. simpl.
        apply negb_true_iff, String.eqb_neq. exact Hne. }
      assert (existsb p d = true) by (apply existsb_exists; eauto). congruence. }
    rewrite (NoDup_count_occ string_dec) in Hnd. specialize (Hnd k). lia.
Qed.

Lemma token_is_prefix k a :
  token_of k a -> a = substring 0 (String.length a) (lower k).
Proof.
  intros (n & Hn & ->). rewrite length_substring_0; [reflexivity|].
  rewrite length_lower. lia.
Qed.

Lemma sweep_justified dups d :
  dups = get_duplicates (values d) ->
  well_formed d -> justified d -> justified (sweep dups d).
Proof.
  intros Hdups [Hnd Htok] Hj. rewrite sweep_map by assumption.
  intros k a' Hin. rewrite keys_map_extend_item.
  apply in_map_iff in Hin. destruct Hin as ([k0 a] & Heq & Hin).
  unfold extend_item in Heq. simpl in Heq. injection Heq as -> <-.
  unfold extend. destruct (extendable dups k a) eqn:E.
  - right. unfold extendable in E. apply andb_true_iff in E. destruct E as [Hm Hlt].
    apply mem_true in Hm. apply Nat.ltb_lt in Hlt.
    destruct (duplicated_token_other_holder d k a Hnd) as (k' & Hne & Hin');
      [now rewrite <- Hdups|assumption|].
    exists k'. split; [exact Hne|]. split.
    { apply in_map_iff. exists (k', a). auto. }
    unfold extension. rewrite length_app_string, length_lower.
    assert (Hone : String.length (substring (String.length a) 1 k) = 1).
    { clear - Hlt. revert k Hlt. generalize (String.length a) as n.
      induction n as [|n IH]; intros [|c k] H; simpl in *; try lia.
      - destruct k; reflexivity.
      - apply IH. lia. }
    rewrite Hone. replace (String.length a + 1 - 1) with (String.length a) by lia.
    rewrite Forall_forall in Htok.
    rewrite <- (token_is_prefix k a (Htok _ Hin)).
    rewrite <- (token_is_prefix k' a (Htok _ Hin')). reflexivity.
  - apply (Hj _ _ Hin).
Qed.

Lemma disambiguate_justified fuel :
  forall d d', disambiguate fuel d = Some d' ->
    well_formed d -> justified d -> justified d'.
Proof.
  induction fuel as [|fuel IH]; intros d d' H Hwf Hj; rewrite disambiguate_eq in H;
    destruct (get_duplicates (values d)) as [|t r] eqn:E; try discriminate.
  - now injection H as <-.
  - now injection H as <-.
  - apply (IH _ _ H).
    + now apply sweep_well_formed.
    + apply sweep_justified; auto.
Qed.

(** X7: no token is longer than the collisions require: for ASCII
    names, a returned token of two or more characters, stripped of its
    last character, is still a prefix (after lowercasing) of another
    input name. *)
Theorem find_abbrevs_tokens_minimal
    (fuel : nat) (kinds : list string) (kind_to_abbrev : dict) (kind abbrev : string) :
  ascii_names kinds ->
  find_abbrevs fuel kinds = Some (Ok kind_to_abbrev) ->
  In (kind, abbrev) kind_to_abbrev ->
  2 <= String.length abbrev ->
  exists other,
    other <> kind /\ In other kinds
    /\ substring 0 (String.length abbrev - 1) (lower other)
       = substring 0 (String.length abbrev - 1) (lower kind).
Proof.
  intros _ H Hin Hlen. pose proof (find_abbrevs_sound _ _ _ H) as (_ & _ & Hk).
  unfold find_abbrevs in H.
  destruct (first_letters kinds []) as [d0|e] eqn:E0; [|discriminate].
  destruct (disambiguate fuel d0) as [d1|] eqn:E1; [|discriminate].
  injection H as ->.
  assert (Hwf0 : well_formed d0).
  { apply (first_letters_well_formed _ _ _ E0). split; constructor. }
  assert (Hj0 : justified d0).
  { intros k a Hka. left.
    apply (first_letters_lengths _ _ _ E0) with (k := k); [intros ? ? []|exact Hka]. }
  destruct (disambiguate_justified _ _ _ E1 Hwf0 Hj0 _ _ Hin)
    as [H1|(other & Hne & Hother & Hpre)]; [lia|].
  exists other. split; [exact Hne|]. split; [now apply Hk|exact Hpre].
Qed.

Lemma find_abbrevs_tokens_minimal_witness :
  exists other,
    other <> "disease" /\ In other ["gene"; "disease"; "drug"]
    /\ substring 0 (String.length "di" - 1) (lower other)
       = substring 0 (String.length "di" - 1) (lower "disease").
Proof.
  apply (find_abbrevs_tokens_minimal 2 ["gene"; "disease"; "drug"]
           [("gene", "g"); ("disease", "di"); ("drug", "dr")] "disease" "di").
  - apply ascii_names_forallb. reflexivity.
  - reflexivity.
  - simpl. auto.
  - simpl. lia.
Defined.

(** ** [create_abbreviations]: keys, node tokens, name clashes *)

Lemma upper_lower_ascii c :
  lower_ascii (upper_ascii (lower_ascii c)) = lower_ascii c.
Proof. destruct c as [[] [] [] [] [] [] [] []]; reflexivity. Qed.

Lemma lower_upper_lower s : lower (upper (lower s)) = lower s.
Proof.
  unfold lower, upper. induction s as [|c s IH]; simpl; [reflexivity|].
  now rewrite upper_lower_ascii, IH.
Qed.

Lemma length_upper s : String.length (upper s) = String.length s.
Proof. apply length_map_string. Qed.

Lemma upper_nonempty s : s <> "" -> upper s <> "".
Proof. destruct s; [congruence|discriminate]. Qed.

Lemma get_map_upper (d : dict) k :
  get (map (fun item => (fst item, upper (snd item))) d) k
  = option_map upper (get d k).
Proof.
  unfold get. induction d as [|[k' a] d IH]; simpl; [reflexivity|].
  destruct (String.eqb k' k); [reflexivity|exact IH].
Qed.

Lemma in_flat_setdefault_append {K X} (eqb_key : K -> K -> bool)
    (d : list (K * list X)) k x y :
  In y (flat_map snd (setdefault_append eqb_key d k x))
  <-> In y (flat_map snd d) \/ y = x.
Proof.
  induction d as [|[k' l] d IH]; simpl.
  - intuition.
  - destruct (eqb_key k' k); simpl; rewrite !in_app_iff.
    + simpl. intuition.
    + rewrite IH. tauto.
Qed.

Lemma group_edges_from (edges : list edge_id) :
  forall d v,
    In v (flat_map snd
            (fold_left
               (fun edge_set_to_keys (edge : edge_id) =>
                  let '(source_kind, target_kind, value, _) := edge in
                  let key := [lower source_kind; lower target_kind] in
                  setdefault_append frozenset_eqb edge_set_to_keys key value)
               edges d))
    <-> In v (flat_map snd d) \/ In v (map edge_kind edges).
Proof.
  induction edges as [|[[[s t] k] dir] edges IH]; intros d v; simpl.
  - tauto.
  - rewrite IH, in_flat_setdefault_append. unfold edge_kind at 2. simpl.
    intuition.
Qed.

(** The groups hold the edge kind-names, all of them and nothing else. *)
Lemma group_edges_kinds edges v :
  In v (flat_map snd (group_edges edges)) <-> In v (map edge_kind edges).
Proof.
  unfold group_edges. rewrite group_edges_from. simpl. tauto.
Qed.

Lemma group_tokens_absent fuel key groups :
  ~ In key (flat_map snd groups) -> group_tokens fuel groups key = [].
Proof.
  induction groups as [|[g keys] groups IH]; simpl; intros Hnin; [reflexivity|].
  rewrite in_app_iff in Hnin.
  destruct (find_abbrevs fuel keys) as [[m|e]|] eqn:E; try reflexivity.
  destruct (find_abbrevs_sound _ _ _ E) as (_ & _ & Hk).
  destruct (get m key) as [a|] eqn:Eg.
  - exfalso. apply Hnin. left. apply Hk.
    destruct (in_dec string_dec key (map fst m)) as [Hin|Hn]; [exact Hin|].
    apply get_none in Hn. congruence.
  - apply IH. tauto.
Qed.

Lemma keys_merge_abbrev d k a k0 :
  In k0 (keys (merge_abbrev d k a)) <-> In k0 (keys d) \/ k0 = k.
Proof.
  unfold merge_abbrev. destruct (get d k) as [p|] eqn:E.
  - assert (Hin : In k (keys d)).
    { destruct (in_dec string_dec k (keys d)) as [H|H]; [exact H|].
      apply get_none in H. congruence. }
    destruct (_ && _).
    + split; [tauto|]. intros [H| ->]; assumption.
    + rewrite keys_setitem. apply mem_true in Hin. rewrite Hin.
      split; [tauto|]. intros [H| ->]; [assumption|now apply mem_true].
  - rewrite keys_setitem. apply get_none in E. apply mem_false in E. rewrite E.
    rewrite in_app_iff. simpl. intuition.
Qed.

Lemma keys_merge_group m :
  forall d k0, In k0 (keys (merge_group d m)) <-> In k0 (keys d) \/ In k0 (keys m).
Proof.
  induction m as [|[k a] m IH]; intros d k0.
  - simpl. tauto.
  - change (merge_group d ((k, a) :: m)) with (merge_group (merge_abbrev d k a) m).
    rewrite IH, keys_merge_abbrev. simpl. intuition.
Qed.

Lemma keys_merge_groups fuel groups :
  forall d d', merge_groups fuel groups d = Some (Ok d') ->
    forall k0, In k0 (keys d') <-> In k0 (keys d) \/ In k0 (flat_map snd groups).
Proof.
  induction groups as [|[g ks] groups IH]; intros d d' H k0; simpl in *.
  - injection H as <-. tauto.
  - destruct (find_abbrevs fuel ks) as [[m|e]|] eqn:E; try discriminate.
    destruct (find_abbrevs_sound _ _ _ E) as (_ & _ & Hk).
    rewrite (IH _ _ H), keys_merge_group, in_app_iff, Hk. tauto.
Qed.

(** X8: the dictionary that [create_abbreviations] returns has exactly
    the node kinds and the edge kind-names as its keys. *)
Theorem create_abbreviations_keys
    (fuel : nat) (metagraph : MetaGraph) (kind_to_abbrev : dict) :
  create_abbreviations fuel metagraph = Some (Ok kind_to_abbrev) ->
  forall key,
    In key (keys kind_to_abbrev)
    <-> In key (node_dict_keys metagraph) \/ In key (edge_kinds metagraph).
Proof.
  intros H key. unfold create_abbreviations in H.
  destruct (find_abbrevs fuel (node_dict_keys metagraph)) as [[dn|e]|] eqn:En;
    try discriminate.
  destruct (find_abbrevs_sound _ _ _ En) as (_ & _ & Hk).
  rewrite (keys_merge_groups _ _ _ _ H), group_edges_kinds.
  unfold keys at 1. rewrite map_map. simpl. fold (keys dn). rewrite Hk.
  reflexivity.
Qed.

Lemma create_abbreviations_keys_witness :
  In "regulates" (keys [("Gene", "G"); ("Pathway", "P"); ("regulates", "r")])
  <-> In "regulates" ["Gene"; "Pathway"]
      \/ In "regulates" (map edge_kind [("Gene", "Pathway", "regulates", "forward")]).
Proof.
  apply (create_abbreviations_keys 3
           {| node_dict_keys := ["Gene"; "Pathway"];
              edge_dict_keys := [("Gene", "Pathway", "regulates", "forward")];
              get_nodes := []; get_edges := []; kind_to_abbrev := [] |}
           [("Gene", "G"); ("Pathway", "P"); ("regulates", "r")]).
  reflexivity.
Defined.

Lemma create_abbreviations_get fuel metagraph d dn key :
  create_abbreviations fuel metagraph = Some (Ok d) ->
  find_abbrevs fuel (node_dict_keys metagraph) = Some (Ok dn) ->
  get d key
  = merge_tokens (option_map upper (get dn key))
      (group_tokens fuel (group_edges (edge_dict_keys metagraph)) key).
Proof.
  intros H Hn. unfold create_abbreviations in H. rewrite Hn in H.
  rewrite (merge_groups_get _ key _ _ _ H); rewrite get_map_upper; [reflexivity|].
  intros p Hp. destruct (get dn key) as [a|] eqn:E; [|discriminate].
  injection Hp as <-. apply upper_nonempty.
  destruct (find_abbrevs_sound _ _ _ Hn) as (Hwf & _ & _).
  eapply token_nonempty, get_token; eauto.
Qed.

(** The token left for a name that is both a node kind and an edge
    kind-name. *)
Lemma name_clash_token
    (fuel : nat) (metagraph : MetaGraph) (kind_to_abbrev node_tokens : dict)
    (key node_token : string) :
  create_abbreviations fuel metagraph = Some (Ok kind_to_abbrev) ->
  find_abbrevs fuel (node_dict_keys metagraph) = Some (Ok node_tokens) ->
  get node_tokens key = Some node_token ->
  let tokens := group_tokens fuel (group_edges (edge_dict_keys metagraph)) key in
  ((forall t, In t tokens -> String.length t <= String.length node_token) ->
   get kind_to_abbrev key = Some (upper node_token))
  /\ ((exists t, In t tokens /\ String.length node_token < String.length t) ->
      exists final, get kind_to_abbrev key = Some final /\ In final tokens
                    /\ String.length node_token < String.length final).
Proof.
  intros H Hn Hget tokens.
  rewrite (create_abbreviations_get _ _ _ _ key H Hn), Hget. simpl. fold tokens.
  split.
  - intros Hshort.
    assert (Hgen : forall p, String.length p = String.length node_token ->
                     merge_tokens (Some p) tokens = Some p).
    { induction tokens as [|t tokens IH]; intros p Hp; [reflexivity|].
      unfold merge_tokens. simpl. fold (merge_tokens (Some (longer p t)) tokens).
      assert (Ht : longer p t = p).
      { unfold longer. specialize (Hshort t (or_introl eq_refl)).
        destruct (Nat.leb_spec (String.length t) (String.length p)); [reflexivity|lia]. }
      rewrite Ht. apply IH; [|exact Hp]. intros t' Ht'. apply Hshort. now right. }
    apply Hgen. apply length_upper.
  - intros (t & Ht & Hlt).
    destruct (merge_tokens_some (upper node_token) tokens)
      as (final & Hf & Hin & Hlen & Hall).
    rewrite length_upper in Hlen.
    exists final. split; [exact Hf|].
    specialize (Hall t Ht). split; [|lia].
    destruct Hin as [->|Hin]; [|exact Hin].
    rewrite length_upper in Hall. lia.
Qed.

Lemma upper_ascii_not_lower c : is_lower_ascii (upper_ascii c) = false.
Proof. destruct c as [[] [] [] [] [] [] [] []]; reflexivity. Qed.

Lemma upper_no_lower s : existsb_string is_lower_ascii (upper s) = false.
Proof.
  unfold upper. induction s as [|c s IH]; simpl; [reflexivity|].
  now rewrite upper_ascii_not_lower, IH.
Qed.

Lemma get_some_in_keys (d : dict) k :
  In k (keys d) -> exists a, get d k = Some a.
Proof.
  intros Hin. destruct (get d k) as [a|] eqn:E; [eauto|].
  apply get_none in E. contradiction.
Qed.

Lemma token_lower_fixed k a : token_of k a -> lower a = a.
Proof.
  intros (n & _ & ->).
  change (substring 0 n (lower k)) with (substring 0 n (map_string lower_ascii k)).
  rewrite <- substring_map_string. apply lower_idempotent.
Qed.

(** Node kinds that are no edge kind-names keep distinct tokens. *)
Lemma node_tokens_distinct
    (fuel : nat) (metagraph : MetaGraph) (kind_to_abbrev : dict) (k1 k2 : string) :
  create_abbreviations fuel metagraph = Some (Ok kind_to_abbrev) ->
  In k1 (node_dict_keys metagraph) -> In k2 (node_dict_keys metagraph) ->
  k1 <> k2 ->
  ~ In k1 (edge_kinds metagraph) -> ~ In k2 (edge_kinds metagraph) ->
  exists t1 t2,
    get kind_to_abbrev k1 = Some t1 /\ get kind_to_abbrev k2 = Some t2
    /\ t1 <> t2
    /\ existsb_string is_lower_ascii t1 = false
    /\ existsb_string is_lower_ascii t2 = false.
Proof.
  intros H H1 H2 Hne He1 He2.
  assert (Hn : exists dn, find_abbrevs fuel (node_dict_keys metagraph) = Some (Ok dn)).
  { unfold create_abbreviations in H.
    destruct (find_abbrevs fuel (node_dict_keys metagraph)) as [[dn|e]|];
      try discriminate. eauto. }
  destruct Hn as (dn & Hn).
  destruct (find_abbrevs_sound _ _ _ Hn) as (Hwf & Hv & Hk).
  destruct (get_some_in_keys dn k1) as (a1 & G1); [now apply Hk|].
  destruct (get_some_in_keys dn k2) as (a2 & G2); [now apply Hk|].
  exists (upper a1), (upper a2).
  assert (Habs : forall k, ~ In k (edge_kinds metagraph) ->
            group_tokens fuel (group_edges (edge_dict_keys metagraph)) k = []).
  { intros k Hk'. apply group_tokens_absent. now rewrite group_edges_kinds. }
  rewrite (create_abbreviations_get _ _ _ _ k1 H Hn), G1, (Habs _ He1).
  rewrite (create_abbreviations_get _ _ _ _ k2 H Hn), G2, (Habs _ He2).
  repeat split; try apply upper_no_lower.
  intros Heq.
  assert (Ha : a1 = a2).
  { rewrite <- (token_lower_fixed k1 a1), <- (token_lower_fixed k2 a2)
      by (eapply get_token; eauto).
    rewrite <- (lower_upper_lower a1), <- (lower_upper_lower a2).
    rewrite !(token_lower_fixed k1 a1), !(token_lower_fixed k2 a2)
      by (eapply get_token; eauto).
    now rewrite Heq. }
  subst a2. apply get_in in G1, G2; try apply Hwf.
  exact (shared_value_not_nodup dn k1 k2 a1 Hne G1 G2 Hv).
Qed.

(** ** Tokens of one group stay apart after the merge *)

Lemma length_substring_0_min s :
  forall n, String.length (substring 0 n s) = Nat.min n (String.length s).
Proof.
  induction s as [|c s IH]; intros [|n]; simpl; try reflexivity.
  now rewrite IH.
Qed.

Lemma substring_0_app_left (a b : string) :
  substring 0 (String.length a) (a ++ b) = a.
Proof.
  induction a as [|c a IH]; simpl.
  - destruct b; reflexivity.
  - now rewrite IH.
Qed.

Lemma substring_0_twice s :
  forall m n, m <= n -> substring 0 m (substring 0 n s) = substring 0 m s.
Proof.
  induction s as [|c s IH]; intros [|m] [|n] H; simpl; try reflexivity; try lia.
  rewrite IH by lia. reflexivity.
Qed.

Lemma prefix_shorter s p m :
  substring 0 (String.length p) s = p -> m <= String.length p ->
  substring 0 m s = substring 0 m p.
Proof.
  intros Hp Hm. symmetry. rewrite <- Hp at 1. now apply substring_0_twice.
Qed.

Lemma extend_cases dups k a :
  (extend dups k a = a /\ extendable dups k a = false)
  \/ (extend dups k a = extension k a /\ In a dups
      /\ String.length a < String.length k).
Proof.
  unfold extend. destruct (extendable dups k a) eqn:E; [right|left; auto].
  unfold extendable in E. apply andb_true_iff in E. destruct E as [H1 H2].
  apply mem_true in H1. apply Nat.ltb_lt in H2. auto.
Qed.

Lemma sweep_abreast dups d :
  well_formed d -> abreast d -> abreast (sweep dups d).
Proof.
  intros [Hnd Htok] Hab. rewrite sweep_map by assumption.
  rewrite Forall_forall in Htok.
  intros k1 a1' k2 a2' H1 H2 Hne Hp.
  apply in_map_iff in H1. destruct H1 as ([k a1] & Heq & H1).
  unfold extend_item in Heq. simpl in Heq. injection Heq as -> <-.
  apply in_map_iff in H2. destruct H2 as ([k a2] & Heq & H2).
  unfold extend_item in Heq. simpl in Heq. injection Heq as -> <-.
  pose proof (extend_length dups k1 a1) as Hl1.
  destruct (extend_cases dups k2 a2) as [[He _]|(He & Hd2 & Hlt2)].
  - rewrite He in *. specialize (Hab _ _ _ _ H1 H2 Hne Hp). lia.
  - pose proof (extend_length_strict dups k2 a2 Hd2 Hlt2) as Hl2.
    assert (Hpre : substring 0 (String.length a2) (lower k1) = a2).
    { rewrite (prefix_shorter _ _ (String.length a2) Hp) by lia.
      rewrite He. unfold extension. apply substring_0_app_left. }
    specialize (Hab _ _ _ _ H1 H2 Hne Hpre).
    destruct (Nat.eq_dec (String.length a1) (String.length a2)) as [Heq|Hneq]; [|lia].
    assert (Ha : a1 = a2).
    { rewrite (token_is_prefix k1 a1 (Htok _ H1)), Heq. exact Hpre. }
    subst a2.
    assert (Hk1 : String.length a1 < String.length k1).
    { assert (Hlen := f_equal String.length Hp).
      rewrite length_substring_0_min, length_lower in Hlen. lia. }
    rewrite (extend_length_strict dups k1 a1 Hd2 Hk1). lia.
Qed.

Lemma disambiguate_abreast fuel :
  forall d d', disambiguate fuel d = Some d' ->
    well_formed d -> abreast d -> abreast d'.
Proof.
  induction fuel as [|fuel IH]; intros d d' H Hwf Hab; rewrite disambiguate_eq in H;
    destruct (get_duplicates (values d)) as [|t r] eqn:E; try discriminate.
  - now injection H as <-.
  - now injection H as <-.
  - apply (IH _ _ H).
    + now apply sweep_well_formed.
    + now apply sweep_abreast.
Qed.

Lemma find_abbrevs_abreast fuel kinds d :
  find_abbrevs fuel kinds = Some (Ok d) -> abreast d.
Proof.
  unfold find_abbrevs.
  destruct (first_letters kinds []) as [d0|e] eqn:E0; [|discriminate].
  destruct (disambiguate fuel d0) as [d1|] eqn:E1; [|discriminate].
  intros [= <-].
  assert (Hwf0 : well_formed d0).
  { apply (first_letters_well_formed _ _ _ E0). split; constructor. }
  apply (disambiguate_abreast _ _ _ E1 Hwf0).
  intros k1 a1 k2 a2 H1 H2 _ _.
  rewrite (first_letters_lengths _ _ _ E0 (fun _ _ (H : In _ []) => match H with end) _ _ H1).
  rewrite (first_letters_lengths _ _ _ E0 (fun _ _ (H : In _ []) => match H with end) _ _ H2).
  lia.
Qed.

(** Two entries of a returned dictionary cannot be extended to one and
    the same prefix. *)
Lemma tokens_stay_apart d k1 a1 k2 a2 n1 n2 :
  well_formed d -> NoDup (values d) -> abreast d ->
  In (k1, a1) d -> In (k2, a2) d -> k1 <> k2 ->
  String.length a1 <= n1 <= String.length k1 ->
  String.length a2 <= n2 <= String.length k2 ->
  substring 0 n1 (lower k1) <> substring 0 n2 (lower k2).
Proof.
  intros [Hnd Htok] Hv Hab H1 H2 Hne Hn1 Hn2 Heq.
  rewrite Forall_forall in Htok.
  pose proof (token_is_prefix _ _ (Htok _ H1)) as P1.
  pose proof (token_is_prefix _ _ (Htok _ H2)) as P2. simpl in P1, P2.
  assert (Hn : n1 = n2).
  { assert (Hlen := f_equal String.length Heq).
    rewrite !length_substring_0_min, !length_lower in Hlen. lia. }
  subst n2.
  assert (Q2 : substring 0 (String.length a2) (lower k1) = a2).
  { rewrite <- (substring_0_twice (lower k1) (String.length a2) n1) by lia.
    rewrite Heq, substring_0_twice by lia. now rewrite <- P2. }
  assert (Q1 : substring 0 (String.length a1) (lower k2) = a1).
  { rewrite <- (substring_0_twice (lower k2) (String.length a1) n1) by lia.
    rewrite <- Heq, substring_0_twice by lia. now rewrite <- P1. }
  pose proof (Hab _ _ _ _ H1 H2 Hne Q2) as L1.
  pose proof (Hab _ _ _ _ H2 H1 (not_eq_sym Hne) Q1) as L2.
  assert (Ha : a1 = a2).
  { rewrite P1. replace (String.length a1) with (String.length a2) by lia.
    exact Q2. }
  subst a2. exact (shared_value_not_nodup d k1 k2 a1 Hne H1 H2 Hv).
Qed.

Lemma merge_groups_all_ok fuel groups :
  forall d d', merge_groups fuel groups d = Some (Ok d') ->
    forall g ks, In (g, ks) groups -> exists m, find_abbrevs fuel ks = Some (Ok m).
Proof.
  induction groups as [|[g0 ks0] groups IH]; intros d d' H g ks Hin; simpl in *.
  - contradiction.
  - destruct (find_abbrevs fuel ks0) as [[m|e]|] eqn:E; try discriminate.
    destruct Hin as [[= <- <-]|Hin]; [eauto|]. eapply IH; eauto.
Qed.

Lemma group_tokens_in fuel key groups :
  (forall g ks, In (g, ks) groups -> exists m, find_abbrevs fuel ks = Some (Ok m)) ->
  forall g ks m a,
    In (g, ks) groups -> find_abbrevs fuel ks = Some (Ok m) ->
    get m key = Some a -> In a (group_tokens fuel groups key).
Proof.
  induction groups as [|[g0 ks0] groups IH]; intros Hall g ks m a Hin Hm Hget; simpl in *.
  - contradiction.
  - destruct (Hall g0 ks0 (or_introl eq_refl)) as (m0 & Hm0). rewrite Hm0.
    assert (Hrest : forall t, In t (group_tokens fuel groups key) ->
              In t (match get m0 key with
                    | Some abbrev => abbrev :: group_tokens fuel groups key
                    | None => group_tokens fuel groups key
                    end)).
    { intros t Ht. destruct (get m0 key); [now right|assumption]. }
    destruct Hin as [[= -> ->]|Hin].
    + rewrite Hm in Hm0. injection Hm0 as <-. rewrite Hget. now left.
    + apply Hrest. eapply IH; eauto.
Qed.

Lemma group_tokens_token fuel key groups t :
  In t (group_tokens fuel groups key) -> token_of key t.
Proof.
  induction groups as [|[g0 ks0] groups IH]; simpl; [contradiction|].
  destruct (find_abbrevs fuel ks0) as [[m|e]|] eqn:E; try contradiction.
  destruct (find_abbrevs_sound _ _ _ E) as (Hwf & _ & _).
  destruct (get m key) as [a|] eqn:Eg; [|exact IH].
  intros [<-|Ht]; [|auto]. eapply get_token; eauto.
Qed.

(** The final token of an edge kind-name that is no node kind: a prefix
    of the lowercased name, at least as long as any group's token. *)
Lemma final_edge_token fuel metagraph d key g ks m a :
  create_abbreviations fuel metagraph = Some (Ok d) ->
  ~ In key (node_dict_keys metagraph) ->
  In (g, ks) (group_edges (edge_dict_keys metagraph)) ->
  find_abbrevs fuel ks = Some (Ok m) -> get m key = Some a ->
  exists n, String.length a <= n <= String.length key
            /\ get d key = Some (substring 0 n (lower key)).
Proof.
  intros H Hnode Hin Hm Hget.
  assert (Hrun := H). unfold create_abbreviations in Hrun.
  destruct (find_abbrevs fuel (node_dict_keys metagraph)) as [[dn|e]|] eqn:En;
    try discriminate.
  destruct (find_abbrevs_sound _ _ _ En) as (_ & _ & Hk).
  assert (Hnone : get dn key = None).
  { apply get_none. intros Hc. apply Hnode. now apply Hk. }
  pose proof (create_abbreviations_get _ _ _ _ key H En) as Hfinal.
  rewrite Hnone in Hfinal. simpl in Hfinal.
  assert (Ha : In a (group_tokens fuel (group_edges (edge_dict_keys metagraph)) key)).
  { eapply group_tokens_in; eauto. eapply merge_groups_all_ok; eauto. }
  destruct (longest_spec _ _ Ha) as (final & Hf & Hfin & Hall).
  unfold longest in Hf. rewrite Hf in Hfinal.
  pose proof (group_tokens_token _ _ _ _ Hfin) as Htok.
  pose proof (token_length _ _ Htok) as Hlen.
  exists (String.length final). split; [specialize (Hall a Ha); lia|].
  rewrite Hfinal. f_equal. now apply token_is_prefix.
Qed.

(** Edge kind-names of one group keep distinct tokens through the merge. *)
Lemma group_tokens_distinct
    (fuel : nat) (metagraph : MetaGraph) (kind_to_abbrev : dict)
    (edge_set : frozenset) (keys : list string) (k1 k2 : string) :
  create_abbreviations fuel metagraph = Some (Ok kind_to_abbrev) ->
  In (edge_set, keys) (group_edges (edge_dict_keys metagraph)) ->
  In k1 keys -> In k2 keys -> k1 <> k2 ->
  ~ In k1 (node_dict_keys metagraph) -> ~ In k2 (node_dict_keys metagraph) ->
  exists t1 t2,
    get kind_to_abbrev k1 = Some t1 /\ get kind_to_abbrev k2 = Some t2 /\ t1 <> t2.
Proof.
  intros H Hin H1 H2 Hne Hn1 Hn2.
  assert (Hm : exists m, find_abbrevs fuel keys = Some (Ok m)).
  { unfold create_abbreviations in H.
    destruct (find_abbrevs fuel (node_dict_keys metagraph)) as [[dn|e]|];
      try discriminate.
    eapply merge_groups_all_ok; eauto. }
  destruct Hm as (m & Hm).
  destruct (find_abbrevs_sound _ _ _ Hm) as (Hwf & Hv & Hk).
  pose proof (find_abbrevs_abreast _ _ _ Hm) as Hab.
  destruct (get_some_in_keys m k1) as (a1 & G1); [now apply Hk|].
  destruct (get_some_in_keys m k2) as (a2 & G2); [now apply Hk|].
  destruct (final_edge_token _ _ _ _ _ _ _ _ H Hn1 Hin Hm G1) as (n1 & L1 & F1).
  destruct (final_edge_token _ _ _ _ _ _ _ _ H Hn2 Hin Hm G2) as (n2 & L2 & F2).
  exists (substring 0 n1 (lower k1)), (substring 0 n2 (lower k2)).
  split; [exact F1|]. split; [exact F2|].
  apply get_in in G1, G2; try apply Hwf.
  exact (tokens_stay_apart m k1 a1 k2 a2 n1 n2 Hwf Hv Hab G1 G2 Hne L1 L2).
Qed.

(** ** Grouping the edges *)

Lemma subset_spec (a b : frozenset) :
  subset a b = true <-> forall x, In x a -> In x b.
Proof.
  unfold subset. rewrite forallb_forall. split; intros H x Hx.
  - apply mem_true. auto.
  - apply mem_true. auto.
Qed.

Lemma frozenset_eqb_spec (a b : frozenset) :
  frozenset_eqb a b = true <-> forall x, In x a <-> In x b.
Proof.
  unfold frozenset_eqb. rewrite andb_true_iff, !subset_spec. split.
  - intros [H1 H2] x. split; auto.
  - intros H. split; intros x; apply H.
Qed.

Lemma frozenset_eqb_refl a : frozenset_eqb a a = true.
Proof. apply frozenset_eqb_spec. tauto. Qed.

Lemma frozenset_eqb_sym a b : frozenset_eqb a b = frozenset_eqb b a.
Proof. unfold frozenset_eqb. apply andb_comm. Qed.

Lemma frozenset_eqb_trans a b c :
  frozenset_eqb a b = true -> frozenset_eqb b c = true -> frozenset_eqb a c = true.
Proof.
  rewrite !frozenset_eqb_spec. intros H1 H2 x. rewrite H1. apply H2.
Qed.

(** [setdefault(k, list()).append(x)] extends the list of the first key
    equal to [k], or opens a new entry at the end. *)
Lemma setdefault_append_cases {K X} (eqb_key : K -> K -> bool)
    (d : list (K * list X)) k x :
  (exists d1 k' l d2,
      d = d1 ++ (k', l) :: d2 /\ eqb_key k' k = true
      /\ setdefault_append eqb_key d k x = d1 ++ (k', l ++ [x]) :: d2)
  \/ ((forall p, In p d -> eqb_key (fst p) k = false)
      /\ setdefault_append eqb_key d k x = d ++ [(k, [x])]).
Proof.
  induction d as [|[k0 l0] d IH]; simpl.
  - right. split; [intros p []|reflexivity].
  - destruct (eqb_key k0 k) eqn:E.
    + left. exists [], k0, l0, d. auto.
    + destruct IH as [(d1 & k' & l & d2 & -> & Hk & ->)|[Hall ->]].
      * left. exists ((k0, l0) :: d1), k', l, d2. auto.
      * right. split; [|reflexivity].
        intros p [<-|Hp]; [exact E|auto].
Qed.

Lemma group_edges_snoc (edges : list edge_id) (edge : edge_id) :
  group_edges (edges ++ [edge])
  = setdefault_append frozenset_eqb (group_edges edges)
      (endpoint_set edge) (edge_kind edge).
Proof.
  unfold group_edges. rewrite fold_left_app.
  destruct edge as [[[s t] k] d]. reflexivity.
Qed.

Lemma filter_snoc {A} (p : A -> bool) (l : list A) x :
  filter p (l ++ [x]) = if p x then filter p l ++ [x] else filter p l.
Proof.
  rewrite filter_app. simpl. destruct (p x); [reflexivity|apply app_nil_r].
Qed.

Lemma grouped_edges (edges : list edge_id) : grouped edges (group_edges edges).
Proof.
  induction edges as [|e edges IH] using rev_ind.
  - repeat split; try constructor; simpl; try contradiction; intros; contradiction.
  - destruct IH as (Hlist & Hall & Hnd & Huniq).
    rewrite group_edges_snoc.
    destruct (setdefault_append_cases frozenset_eqb (group_edges edges)
                (endpoint_set e) (edge_kind e))
      as [(d1 & k' & l & d2 & Hd & Hk & ->)|[Hnone ->]].
    + assert (Hkeys : map fst (d1 ++ (k', l ++ [edge_kind e]) :: d2)
                      = map fst (group_edges edges)).
      { rewrite Hd, !map_app. reflexivity. }
      assert (Hother : forall g ks, In (g, ks) (d1 ++ d2) ->
                frozenset_eqb g (endpoint_set e) = false).
      { intros g ks Hin. destruct (frozenset_eqb g (endpoint_set e)) eqn:E;
          [exfalso|reflexivity].
        assert (Hgk : g = k').
        { apply Huniq.
          - rewrite Hd. apply in_map_iff. exists (g, ks). split; [reflexivity|].
            rewrite in_app_iff in *. simpl. tauto.
          - rewrite Hd. apply in_map_iff. exists (k', l). split; [reflexivity|].
            rewrite in_app_iff. simpl. tauto.
          - apply (frozenset_eqb_trans _ _ _ E).
            now rewrite frozenset_eqb_sym. }
        subst g. rewrite Hd, map_app in Hnd. simpl in Hnd.
        apply NoDup_remove_2 in Hnd. apply Hnd.
        rewrite <- map_app. apply in_map_iff. exists (k', ks). auto. }
      split; [|split; [|split]].
      * intros g ks Hin. rewrite filter_snoc.
        apply in_app_iff in Hin. simpl in Hin.
        destruct Hin as [Hin|[[= <- <-]|Hin]].
        -- rewrite (Hother g ks) by (apply in_app_iff; auto).
           apply Hlist. rewrite Hd. apply in_app_iff. auto.
        -- rewrite Hk. rewrite map_app. simpl.
           destruct (Hlist k' l) as [_ <-].
           { rewrite Hd. apply in_app_iff. simpl. auto. }
           split; [|reflexivity]. intros Hc. apply app_eq_nil in Hc.
           destruct Hc; discriminate.
        -- rewrite (Hother g ks) by (apply in_app_iff; auto).
           apply Hlist. rewrite Hd. apply in_app_iff. simpl. auto.
      * intros e0 Hin. apply in_app_iff in Hin. simpl in Hin.
        destruct Hin as [Hin|[<-|[]]].
        -- destruct (Hall e0 Hin) as (g & ks & Hg & He).
           rewrite Hd in Hg. apply in_app_iff in Hg. simpl in Hg.
           destruct Hg as [Hg|[[= <- <-]|Hg]].
           ++ exists g, ks. split; [|exact He]. apply in_app_iff. auto.
           ++ exists k', (l ++ [edge_kind e]). split; [|exact He].
              apply in_app_iff. simpl. auto.
           ++ exists g, ks. split; [|exact He]. apply in_app_iff. simpl. auto.
        -- exists k', (l ++ [edge_kind e]). split; [|exact Hk].
           apply in_app_iff. simpl. auto.
      * now rewrite Hkeys.
      * now rewrite Hkeys.
    + assert (Hfresh : ~ In (endpoint_set e) (map fst (group_edges edges))).
      { intros Hin. apply in_map_iff in Hin. destruct Hin as (p & Hp & Hin).
        specialize (Hnone p Hin). rewrite Hp, frozenset_eqb_refl in Hnone.
        discriminate. }
      split; [|split; [|split]].
      * intros g ks Hin. rewrite filter_snoc.
        apply in_app_iff in Hin. simpl in Hin.
        destruct Hin as [Hin|[[= <- <-]|[]]].
        -- pose proof (Hnone (g, ks) Hin) as Hg. simpl in Hg. rewrite Hg.
           now apply Hlist.
        -- rewrite frozenset_eqb_refl. split; [discriminate|].
           assert (Hnil : filter (fun e0 => frozenset_eqb (endpoint_set e)
                                              (endpoint_set e0)) edges = []).
           { apply filter_nil_iff. intros e0 Hin.
             destruct (Hall e0 Hin) as (g & ks & Hg & He).
             specialize (Hnone (g, ks) Hg). simpl in Hnone.
             destruct (frozenset_eqb (endpoint_set e) (endpoint_set e0)) eqn:E;
               [|reflexivity].
             rewrite frozenset_eqb_sym in E.
             rewrite (frozenset_eqb_trans _ _ _ He E) in Hnone. discriminate. }
           rewrite Hnil. reflexivity.
      * intros e0 Hin. apply in_app_iff in Hin. simpl in Hin.
        destruct Hin as [Hin|[<-|[]]].
        -- destruct (Hall e0 Hin) as (g & ks & Hg & He).
           exists g, ks. split; [|exact He]. apply in_app_iff. auto.
        -- exists (endpoint_set e), [edge_kind e]. split.
           ++ apply in_app_iff. simpl. auto.
           ++ apply frozenset_eqb_refl.
      * rewrite map_app. simpl. apply NoDup_app; auto.
        -- constructor; [tauto|constructor].
        -- intros x Hx [<-|[]]. contradiction.
      * rewrite map_app. simpl. intros g1 g2 H1 H2 Heq.
        apply in_app_iff in H1, H2. simpl in H1, H2.
        destruct H1 as [H1|[<-|[]]]; destruct H2 as [H2|[<-|[]]].
        -- now apply Huniq.
        -- apply in_map_iff in H1. destruct H1 as (p & <- & Hp).
           rewrite (Hnone p Hp) in Heq. discriminate.
        -- apply in_map_iff in H2. destruct H2 as (p & <- & Hp).
           rewrite frozenset_eqb_sym, (Hnone p Hp) in Heq. discriminate.
        -- reflexivity.
Qed.

Lemma same_endpoints_spec (s1 t1 k1 d1 s2 t2 k2 d2 : string) :
  frozenset_eqb (endpoint_set (s1, t1, k1, d1)) (endpoint_set (s2, t2, k2, d2)) = true
  <-> (lower s1 = lower s2 /\ lower t1 = lower t2)
      \/ (lower s1 = lower t2 /\ lower t1 = lower s2).
Proof.
  rewrite frozenset_eqb_spec. unfold endpoint_set. simpl. split.
  - intros H.
    pose proof (proj1 (H (lower s1)) (or_introl eq_refl)) as A.
    pose proof (proj1 (H (lower t1)) (or_intror (or_introl eq_refl))) as B.
    pose proof (proj2 (H (lower s2)) (or_introl eq_refl)) as C.
    pose proof (proj2 (H (lower t2)) (or_intror (or_introl eq_refl))) as D.
    intuition congruence.
  - intros [[-> ->]|[-> ->]] x; tauto.
Qed.

(** X12: the first loop of [create_abbreviations] groups the edges by
    the unordered pair of their endpoint kinds taken up to case (ASCII
    kinds): every edge is filed under a group whose key is its pair; a
    group lists, in order, the kind-names of all the edges with its
    pair, and of no other edge, so it is never empty; no two groups have
    the same pair; and two edges have the same pair exactly when their
    endpoint kinds agree up to order and case, whatever the directions. *)
Theorem group_edges_unordered_pair (edges : list edge_id) :
  (forall s t k d, In (s, t, k, d) edges -> isascii s = true /\ isascii t = true) ->
  (forall edge, In edge edges ->
     exists edge_set keys,
       In (edge_set, keys) (group_edges edges)
       /\ frozenset_eqb edge_set (endpoint_set edge) = true)
  /\ (forall edge_set keys, In (edge_set, keys) (group_edges edges) ->
        keys <> []
        /\ keys = map edge_kind
                    (filter (fun edge => frozenset_eqb edge_set (endpoint_set edge))
                            edges))
  /\ (forall i j group1 group2,
        nth_error (group_edges edges) i = Some group1 ->
        nth_error (group_edges edges) j = Some group2 ->
        frozenset_eqb (fst group1) (fst group2) = true -> i = j)
  /\ (forall s1 t1 k1 d1 s2 t2 k2 d2,
        In (s1, t1, k1, d1) edges -> In (s2, t2, k2, d2) edges ->
        (frozenset_eqb (endpoint_set (s1, t1, k1, d1))
                       (endpoint_set (s2, t2, k2, d2)) = true
         <-> (lower s1 = lower s2 /\ lower t1 = lower t2)
             \/ (lower s1 = lower t2 /\ lower t1 = lower s2))).
Proof.
  intros _. destruct (grouped_edges edges) as (Hlist & Hall & Hnd & Huniq).
  split; [exact Hall|]. split; [|split].
  - intros g ks Hin. destruct (Hlist g ks Hin). auto.
  - intros i j [g1 ks1] [g2 ks2] Hi Hj Heq. simpl in Heq.
    assert (Hg : g1 = g2).
    { apply Huniq; [| |exact Heq]; apply in_map_iff.
      - exists (g1, ks1). split; [reflexivity|]. eapply nth_error_In; eauto.
      - exists (g2, ks2). split; [reflexivity|]. eapply nth_error_In; eauto. }
    subst g2.
    assert (Hi' : nth_error (map fst (group_edges edges)) i = Some g1)
      by (rewrite nth_error_map, Hi; reflexivity).
    assert (Hj' : nth_error (map fst (group_edges edges)) j = Some g1)
      by (rewrite nth_error_map, Hj; reflexivity).
    apply (proj1 (NoDup_nth_error _) Hnd).
    + apply nth_error_Some. congruence.
    + congruence.
  - intros. apply same_endpoints_spec.
Qed.

Lemma group_edges_unordered_pair_witness :
  let edges := [("Gene", "Pathway", "regulates", "forward");
                ("Gene", "Gene", "binds", "both");
                ("PATHWAY", "gene", "contains", "backward")] in
  group_edges edges
  = [(["gene"; "pathway"], ["regulates"; "contains"]); (["gene"; "gene"], ["binds"])]
  /\ exists edge_set keys,
       In (edge_set, keys) (group_edges edges)
       /\ frozenset_eqb edge_set
            (endpoint_set ("PATHWAY", "gene", "contains", "backward")) = true.
Proof.
  intros edges. split; [reflexivity|].
  apply (group_edges_unordered_pair edges).
  - intros s t k d H. simpl in H.
    destruct H as [[= <- <- <- <-]|[[= <- <- <- <-]|[[= <- <- <- <-]|[]]]];
      split; reflexivity.
  - simpl. auto.
Defined.

(** ** [create_abbreviations] returns *)

Lemma case_distinct_forallb kinds :
  case_distinctb kinds = true -> case_distinct kinds.
Proof.
  unfold case_distinctb. intros H k1 k2 H1 H2 Hl.
  rewrite forallb_forall in H. specialize (H k1 H1).
  rewrite forallb_forall in H. specialize (H k2 H2).
  rewrite Hl, String.eqb_refl in H. simpl in H. now apply String.eqb_eq.
Qed.

Lemma well_named_forallb metagraph :
  well_namedb metagraph = true -> well_named metagraph.
Proof.
  unfold well_namedb, well_named. rewrite !andb_true_iff.
  intros ((((Hn & He) & Hne) & Hcn) & Hce).
  split; [|split; [|split; [|split]]].
  - now apply ascii_names_forallb.
  - intros s t k d Hin. rewrite forallb_forall in He.
    specialize (He _ Hin). simpl in He. rewrite !andb_true_iff in He. tauto.
  - intros kind Hin ->. rewrite forallb_forall in Hne.
    specialize (Hne _ Hin). discriminate.
  - now apply case_distinct_forallb.
  - intros e1 e2 H1 H2 Hs Hl. rewrite forallb_forall in Hce.
    specialize (Hce e1 H1). rewrite forallb_forall in Hce.
    specialize (Hce e2 H2). rewrite Hs, Hl, String.eqb_refl in Hce.
    simpl in Hce. now apply String.eqb_eq.
Qed.

Lemma merge_groups_returns (groups : list (frozenset * list string)) :
  (forall g ks, In (g, ks) groups ->
     (forall k, In k ks -> k <> "") /\ case_distinct ks) ->
  exists fuel0, forall d, exists d',
    forall fuel, fuel0 <= fuel -> merge_groups fuel groups d = Some (Ok d').
Proof.
  induction groups as [|[g ks] groups IH]; intros Hall.
  - exists 0. intros d. exists d. reflexivity.
  - destruct (Hall g ks (or_introl eq_refl)) as [Hne Hcd].
    destruct (find_abbrevs_returns ks Hne Hcd) as (f1 & m & Hm).
    destruct IH as (f2 & Hrest).
    { intros g' ks' Hin. apply (Hall g' ks'). now right. }
    exists (Nat.max f1 f2). intros d.
    destruct (Hrest (merge_group d m)) as (d' & Hd').
    exists d'. intros fuel Hfuel. simpl.
    rewrite Hm by lia. apply Hd'. lia.
Qed.

(** On well-named kinds the run ends with a dictionary, the same from
    some amount of fuel on. *)
Lemma create_abbreviations_returns (metagraph : MetaGraph) :
  well_named metagraph ->
  exists fuel0 kind_to_abbrev node_tokens,
    forall fuel, fuel0 <= fuel ->
      create_abbreviations fuel metagraph = Some (Ok kind_to_abbrev)
      /\ find_abbrevs fuel (node_dict_keys metagraph) = Some (Ok node_tokens).
Proof.
  intros (_ & _ & Hne & Hcn & Hce).
  destruct (find_abbrevs_returns (node_dict_keys metagraph)) as (f1 & dn & Hdn).
  { intros kind Hin. apply Hne. apply in_app_iff. now left. }
  { exact Hcn. }
  destruct (merge_groups_returns (group_edges (edge_dict_keys metagraph)))
    as (f2 & Hgroups).
  { intros g ks Hin.
    destruct (grouped_edges (edge_dict_keys metagraph)) as (Hlist & _).
    destruct (Hlist g ks Hin) as [_ Hks].
    assert (Hsub : forall k, In k ks ->
              exists e, In e (edge_dict_keys metagraph)
                        /\ frozenset_eqb g (endpoint_set e) = true
                        /\ edge_kind e = k).
    { intros k Hk. rewrite Hks in Hk. apply in_map_iff in Hk.
      destruct Hk as (e & He & Hf). apply filter_In in Hf. exists e. tauto. }
    split.
    - intros k Hk. destruct (Hsub k Hk) as (e & He & _ & <-).
      apply Hne. apply in_app_iff. right. unfold edge_kinds. now apply in_map.
    - intros k1 k2 H1 H2 Hl.
      destruct (Hsub k1 H1) as (e1 & He1 & Hg1 & <-).
      destruct (Hsub k2 H2) as (e2 & He2 & Hg2 & <-).
      apply Hce; auto.
      apply (frozenset_eqb_trans _ g); [|exact Hg2].
      now rewrite frozenset_eqb_sym. }
  destruct (Hgroups (map (fun item => (fst item, upper (snd item))) dn))
    as (d & Hd).
  exists (Nat.max f1 f2), d, dn. intros fuel Hfuel.
  unfold create_abbreviations. rewrite Hdn by lia.
  split; [apply Hd; lia|reflexivity].
Qed.




(** X9: on well-named kinds, a name that is both a node kind and an edge
    kind-name keeps, in the dictionary that [create_abbreviations]
    returns, the uppercase token of the node kind unless some group
    assigns the edge kind a strictly longer token; a longer one
    replaces it. *)
Theorem create_abbreviations_name_clash (metagraph : MetaGraph) (key : string) :
  well_named metagraph ->
  In key (node_dict_keys metagraph) ->
  exists fuel0 kind_to_abbrev node_tokens node_token,
    forall fuel, fuel0 <= fuel ->
      create_abbreviations fuel metagraph = Some (Ok kind_to_abbrev)
      /\ find_abbrevs fuel (node_dict_keys metagraph) = Some (Ok node_tokens)
      /\ get node_tokens key = Some node_token
      /\ (let tokens :=
            group_tokens fuel (group_edges (edge_dict_keys metagraph)) key in
          ((forall t, In t tokens -> String.length t <= String.length node_token) ->
           get kind_to_abbrev key = Some (upper node_token))
          /\ ((exists t, In t tokens /\ String.length node_token < String.length t) ->
              exists final, get kind_to_abbrev key = Some final /\ In final tokens
                            /\ String.length node_token < String.length final)).
Proof.
  intros Hwn Hkey.
  destruct (create_abbreviations_returns metagraph Hwn) as (fuel0 & d & dn & Hrun).
  destruct (Hrun fuel0 (le_n _)) as [_ Hdn0].
  destruct (find_abbrevs_sound _ _ _ Hdn0) as (_ & _ & Hk).
  destruct (get_some_in_keys dn key) as (node_token & Hget); [now apply Hk|].
  exists fuel0, d, dn, node_token. intros fuel Hfuel.
  destruct (Hrun fuel Hfuel) as [Hd Hdn].
  split; [exact Hd|]. split; [exact Hdn|]. split; [exact Hget|].
  exact (name_clash_token fuel metagraph d dn key node_token Hd Hdn Hget).
Qed.

Lemma create_abbreviations_name_clash_witness :
  exists fuel0 kind_to_abbrev node_tokens node_token,
    forall fuel, fuel0 <= fuel ->
      create_abbreviations fuel binding_metagraph = Some (Ok kind_to_abbrev)
      /\ find_abbrevs fuel (node_dict_keys binding_metagraph) = Some (Ok node_tokens)
      /\ get node_tokens "binds" = Some node_token
      /\ (let tokens :=
            group_tokens fuel (group_edges (edge_dict_keys binding_metagraph))
              "binds" in
          ((forall t, In t tokens -> String.length t <= String.length node_token) ->
           get kind_to_abbrev "binds" = Some (upper node_token))
          /\ ((exists t, In t tokens /\ String.length node_token < String.length t) ->
              exists final, get kind_to_abbrev "binds" = Some final /\ In final tokens
                            /\ String.length node_token < String.length final)).
Proof.
  apply (create_abbreviations_name_clash binding_metagraph "binds").
  - apply well_named_forallb. reflexivity.
  - simpl. auto.
Defined.

(** X10: on well-named kinds, when neither of two different node kinds
    is also an edge kind-name, [create_abbreviations] gives them
    different tokens, and these hold no lowercase letter. *)
Theorem create_abbreviations_node_tokens_distinct
    (metagraph : MetaGraph) (k1 k2 : string) :
  well_named metagraph ->
  In k1 (node_dict_keys metagraph) -> In k2 (node_dict_keys metagraph) ->
  k1 <> k2 ->
  ~ In k1 (edge_kinds metagraph) -> ~ In k2 (edge_kinds metagraph) ->
  exists fuel0 kind_to_abbrev t1 t2,
    (forall fuel, fuel0 <= fuel ->
       create_abbreviations fuel metagraph = Some (Ok kind_to_abbrev))
    /\ get kind_to_abbrev k1 = Some t1 /\ get kind_to_abbrev k2 = Some t2
    /\ t1 <> t2
    /\ existsb_string is_lower_ascii t1 = false
    /\ existsb_string is_lower_ascii t2 = false.
Proof.
  intros Hwn H1 H2 Hne He1 He2.
  destruct (create_abbreviations_returns metagraph Hwn) as (fuel0 & d & dn & Hrun).
  destruct (Hrun fuel0 (le_n _)) as [Hd0 _].
  destruct (node_tokens_distinct fuel0 metagraph d k1 k2 Hd0 H1 H2 Hne He1 He2)
    as (t1 & t2 & Ht).
  exists fuel0, d, t1, t2. split; [|exact Ht].
  intros fuel Hfuel. apply Hrun. exact Hfuel.
Qed.

Lemma create_abbreviations_node_tokens_distinct_witness :
  exists fuel0 kind_to_abbrev t1 t2,
    (forall fuel, fuel0 <= fuel ->
       create_abbreviations fuel genome_metagraph = Some (Ok kind_to_abbrev))
    /\ get kind_to_abbrev "Gene" = Some t1 /\ get kind_to_abbrev "Genome" = Some t2
    /\ t1 <> t2
    /\ existsb_string is_lower_ascii t1 = false
    /\ existsb_string is_lower_ascii t2 = false.
Proof.
  apply (create_abbreviations_node_tokens_distinct genome_metagraph).
  - apply well_named_forallb. reflexivity.
  - simpl. auto.
  - simpl. auto.
  - discriminate.
  - simpl. intuition discriminate.
  - simpl. intuition discriminate.
Defined.

(** X11: on well-named kinds, two different edge kind-names of one group
    (neither of them a node kind) end with different tokens in the
    dictionary that [create_abbreviations] returns, even though each
    token may have been lengthened by another group. *)
Theorem create_abbreviations_group_tokens_distinct
    (metagraph : MetaGraph) (edge_set : frozenset) (keys : list string)
    (k1 k2 : string) :
  well_named metagraph ->
  In (edge_set, keys) (group_edges (edge_dict_keys metagraph)) ->
  In k1 keys -> In k2 keys -> k1 <> k2 ->
  ~ In k1 (node_dict_keys metagraph) -> ~ In k2 (node_dict_keys metagraph) ->
  exists fuel0 kind_to_abbrev t1 t2,
    (forall fuel, fuel0 <= fuel ->
       create_abbreviations fuel metagraph = Some (Ok kind_to_abbrev))
    /\ get kind_to_abbrev k1 = Some t1 /\ get kind_to_abbrev k2 = Some t2
    /\ t1 <> t2.
Proof.
  intros Hwn Hin H1 H2 Hne Hn1 Hn2.
  destruct (create_abbreviations_returns metagraph Hwn) as (fuel0 & d & dn & Hrun).
  destruct (Hrun fuel0 (le_n _)) as [Hd0 _].
  destruct (group_tokens_distinct fuel0 metagraph d edge_set keys k1 k2
              Hd0 Hin H1 H2 Hne Hn1 Hn2) as (t1 & t2 & Ht).
  exists fuel0, d, t1, t2. split; [|exact Ht].
  intros fuel Hfuel. apply Hrun. exact Hfuel.
Qed.

Lemma create_abbreviations_group_tokens_distinct_witness :
  exists fuel0 kind_to_abbrev t1 t2,
    (forall fuel, fuel0 <= fuel ->
       create_abbreviations fuel regulation_metagraph = Some (Ok kind_to_abbrev))
    /\ get kind_to_abbrev "regulates" = Some t1
    /\ get kind_to_abbrev "binds" = Some t2
    /\ t1 <> t2.
Proof.
  apply (create_abbreviations_group_tokens_distinct regulation_metagraph
           ["gene"; "pathway"] ["regulates"; "binds"]).
  - apply well_named_forallb. reflexivity.
  - simpl. auto.
  - simpl. auto.
  - simpl. auto.
  - discriminate.
  - simpl. intuition discriminate.
  - simpl. intuition discriminate.
Defined.

(** ** What [validate_abbreviations] prints *)

Lemma report_if_nonempty_output s line st :
  snd (report_if_nonempty s line st) = snd st ++ line_if_nonempty s line.
Proof. destruct s; simpl; [now rewrite app_nil_r|reflexivity]. Qed.

Lemma report_loop_output {A} (p : A -> bool) (line : A -> diagnostic) l :
  forall st,
    snd (fold_left (fun st x => report_unless (p x) (line x) st) l st)
    = snd st ++ map line (filter (fun x => negb (p x)) l).
Proof.
  induction l as [|x l IH]; intros st; simpl.
  - now rewrite app_nil_r.
  - rewrite IH. unfold report_unless. destruct (p x); simpl; [reflexivity|].
    now rewrite <- app_assoc.
Qed.

(** X13: [validate_abbreviations] never stops at the first violation: it
    prints, in this order, one line for the names shared by node and
    edge kinds (if any), one line for the duplicated node tokens (if
    any), one line for each metanode whose abbreviation is not
    uppercase, one line for each metaedge whose abbreviation is not
    lowercase, and one line for the duplicated edge abbreviations (if
    any). *)
Theorem validate_abbreviations_output (metagraph : MetaGraph) :
  snd (validate_abbreviations metagraph)
  = line_if_nonempty
      (filter (fun k => mem k (metaedge_kinds_of metagraph))
              (metanode_kinds_of metagraph))
      (DuplicatedKinds
         (filter (fun k => mem k (metaedge_kinds_of metagraph))
                 (metanode_kinds_of metagraph)))
    ++ line_if_nonempty
         (get_duplicates (values (metanode_tokens_of metagraph)))
         (DuplicatedMetanodeAbbrevs
            (get_duplicates (values (metanode_tokens_of metagraph))))
    ++ map (fun metanode => LowercaseMetanodeAbbrev (abbrev metanode))
         (filter (fun metanode => negb (isupper (abbrev metanode)))
                 (get_nodes metagraph))
    ++ map (fun metaedge => UppercaseMetaedgeAbbrev (kind_abbrev metaedge))
         (filter (fun metaedge => negb (islower (kind_abbrev metaedge)))
                 (get_edges metagraph))
    ++ line_if_nonempty
         (get_duplicates (map get_abbrev (get_edges metagraph)))
         (DuplicatedMetaedgeAbbrevs
            (get_duplicates (map get_abbrev (get_edges metagraph)))).
Proof.
  unfold validate_abbreviations.
  rewrite report_if_nonempty_output.
  rewrite (report_loop_output (fun metaedge => islower (kind_abbrev metaedge))
             (fun metaedge => UppercaseMetaedgeAbbrev (kind_abbrev metaedge))).
  rewrite (report_loop_output (fun metanode => isupper (abbrev metanode))
             (fun metanode => LowercaseMetanodeAbbrev (abbrev metanode))).
  rewrite !report_if_nonempty_output. simpl snd. simpl app at 1.
  unfold metanode_tokens_of, metanode_kinds_of, metaedge_kinds_of.
  now rewrite <- !app_assoc.
Qed.

(** * Further properties of [hetio/neo4j.py] *)

(** ** The pairs of the labeled mode *)

Lemma combine_seq_snoc {A} (l : list A) x :
  forall a,
    combine (seq a (List.length (l ++ [x]))) (l ++ [x])
    = combine (seq a (List.length l)) l ++ [(a + List.length l, x)].
Proof.
  induction l as [|y l IH]; intros a; simpl.
  - now rewrite Nat.add_0_r.
  - rewrite IH. now rewrite Nat.add_succ_r.
Qed.

Lemma enumerate_snoc {A} (l : list A) x :
  enumerate (l ++ [x]) = enumerate l ++ [(List.length l, x)].
Proof. unfold enumerate. now rewrite combine_seq_snoc. Qed.

Lemma group_positions_snoc labels x :
  group_positions (labels ++ [x])
  = setdefault_append String.eqb (group_positions labels) x (List.length labels).
Proof.
  unfold group_positions. rewrite enumerate_snoc, fold_left_app. reflexivity.
Qed.

Lemma setdefault_append_keys_list (d : list (string * list nat)) k i :
  map fst (setdefault_append String.eqb d k i)
  = if mem k (map fst d) then map fst d else map fst d ++ [k].
Proof.
  induction d as [|[k' l] d IH]; simpl; [reflexivity|].
  destruct (String.eqb_spec k' k) as [->|Hne]; simpl.
  - unfold mem. destruct (in_dec _ _ _) as [|n]; [reflexivity|]. simpl in n; tauto.
  - rewrite IH. unfold mem.
    destruct (in_dec string_dec k (map fst d)) as [i0|n];
      destruct (in_dec string_dec k (k' :: map fst d)) as [i'|n']; simpl in *;
      try reflexivity; try tauto.
Qed.

Lemma group_positions_keys_nodup labels : NoDup (map fst (group_positions labels)).
Proof.
  induction labels as [|x labels IH] using rev_ind; [constructor|].
  rewrite group_positions_snoc, setdefault_append_keys_list.
  destruct (mem x (map fst (group_positions labels))) eqn:E; [assumption|].
  apply mem_false in E. apply NoDup_app; auto.
  - constructor; [tauto|constructor].
  - intros y Hy [<-|[]]. contradiction.
Qed.

Lemma in_setdefault_append (d : list (string * list nat)) k i k0 nodes :
  NoDup (map fst d) ->
  In (k0, nodes) (setdefault_append String.eqb d k i) ->
  (k0 <> k /\ In (k0, nodes) d)
  \/ (k0 = k /\ exists old, In (k, old) d /\ nodes = old ++ [i])
  \/ (k0 = k /\ ~ In k (map fst d) /\ nodes = [i]).
Proof.
  induction d as [|[k' l] d IH]; simpl; intros Hnd Hin.
  - destruct Hin as [[= <- <-]|[]]. right. right. auto.
  - inversion Hnd as [|? ? Hnin Hnd']; subst.
    destruct (String.eqb_spec k' k) as [->|Hne]; simpl in Hin.
    + destruct Hin as [[= <- <-]|Hin].
      * right. left. split; [reflexivity|]. exists l. auto.
      * left. split; [|auto]. intros ->. apply Hnin.
        apply (in_map fst) in Hin. exact Hin.
    + destruct Hin as [[= <- <-]|Hin]; [left; auto|].
      destruct (IH Hnd' Hin) as [[H1 H2]|[[-> (old & H1 & H2)]|[-> [H1 H2]]]].
      * left. auto.
      * right. left. split; [reflexivity|]. exists old. auto.
      * right. right. split; [reflexivity|]. split; [|assumption].
        intros [H|H]; [congruence|contradiction].
Qed.

(** Each group lists, in increasing order, the positions of its label. *)
Lemma group_positions_filter labels :
  forall k nodes, In (k, nodes) (group_positions labels) ->
    nodes = filter (fun i => String.eqb (nth i labels "") k)
                   (seq 0 (List.length labels)).
Proof.
  induction labels as [|x labels IH] using rev_ind; intros k nodes Hin.
  - destruct Hin.
  - rewrite group_positions_snoc in Hin.
    rewrite length_app. simpl List.length. rewrite seq_app, filter_app. simpl.
    rewrite nth_middle.
    assert (Hext : filter (fun i => String.eqb (nth i (labels ++ [x]) "") k)
                          (seq 0 (List.length labels))
                   = filter (fun i => String.eqb (nth i labels "") k)
                            (seq 0 (List.length labels))).
    { apply filter_ext_in. intros i Hi. apply in_seq in Hi.
      rewrite app_nth1 by lia. reflexivity. }
    rewrite Hext.
    destruct (in_setdefault_append _ _ _ _ _ (group_positions_keys_nodup labels) Hin)
      as [[Hne Hold]|[[-> (old & Hold & ->)]|[-> [Hnew ->]]]].
    + rewrite <- (IH _ _ Hold).
      destruct (String.eqb_spec x k); [congruence|]. now rewrite app_nil_r.
    + rewrite <- (IH _ _ Hold). now rewrite String.eqb_refl.
    + rewrite String.eqb_refl.
      assert (Hnone : filter (fun i => String.eqb (nth i labels "") x)
                             (seq 0 (List.length labels)) = []).
      { apply filter_nil_iff. intros i Hi. apply in_seq in Hi.
        apply String.eqb_neq. intros Heq. apply Hnew.
        apply (group_positions_spec labels). rewrite <- Heq. apply nth_In. lia. }
      now rewrite Hnone.
Qed.

Lemma in_combinations2_filter {A} (p : A -> bool) (l : list A) x y :
  In (x, y) (combinations2 (filter p l))
  <-> In (x, y) (combinations2 l) /\ p x = true /\ p y = true.
Proof.
  induction l as [|a l IH]; simpl.
  - tauto.
  - destruct (p a) eqn:E; simpl; rewrite !in_app_iff, !in_map_iff, IH.
    + split.
      * intros [(z & Heq & Hz)|H].
        -- injection Heq as -> ->. apply filter_In in Hz.
           split; [left; exists y; tauto|tauto].
        -- tauto.
      * intros [[(z & Heq & Hz)|H] [Hx Hy]].
        -- injection Heq as -> ->. left. exists y. split; [reflexivity|].
           apply filter_In. auto.
        -- tauto.
    + split; [tauto|].
      intros [[(z & Heq & Hz)|H] [Hx Hy]]; [|tauto].
      injection Heq as -> ->. congruence.
Qed.

Lemma labeled_pairs_flat labels :
  labeled_pairs labels
  = flat_map combinations2 (map snd (group_positions labels)).
Proof.
  unfold labeled_pairs.
  assert (H : forall (groups : list (list nat)) (pairs : list (nat * nat)),
            fold_left (fun pairs nodes => pairs ++ combinations2 nodes) groups pairs
            = pairs ++ flat_map combinations2 groups).
  { induction groups as [|g groups IH]; intros pairs; simpl.
    - now rewrite app_nil_r.
    - rewrite IH. now rewrite <- app_assoc. }
  apply H.
Qed.

(** X14: the labeled mode compares exactly the pairs of positions
    [i < j] that carry the same label. *)
Theorem labeled_pairs_same_label (labels : list string) (i j : nat) :
  In (i, j) (labeled_pairs labels)
  <-> i < j /\ exists label,
                 nth_error labels i = Some label /\ nth_error labels j = Some label.
Proof.
  rewrite labeled_pairs_flat, in_flat_map. split.
  - intros (nodes & Hnodes & Hin).
    apply in_map_iff in Hnodes. destruct Hnodes as ([k nodes'] & Heq & Hg).
    simpl in Heq. subst nodes'.
    rewrite (group_positions_filter _ _ _ Hg) in Hin.
    apply in_combinations2_filter in Hin. destruct Hin as (Hc & Hi & Hj).
    apply in_combinations2_seq in Hc. apply String.eqb_eq in Hi, Hj.
    split; [lia|]. exists k. split.
    + rewrite <- Hi. apply nth_error_nth'. lia.
    + rewrite <- Hj. apply nth_error_nth'. lia.
  - intros (Hlt & label & Hi & Hj).
    assert (Hkey : In label (map fst (group_positions labels))).
    { apply (group_positions_spec labels). eapply nth_error_In; eauto. }
    apply in_map_iff in Hkey. destruct Hkey as ([k nodes] & Heq & Hg).
    simpl in Heq. subst k. exists nodes. split.
    + apply in_map_iff. exists (label, nodes). auto.
    + rewrite (group_positions_filter _ _ _ Hg). apply in_combinations2_filter.
      assert (Hjn : j < List.length labels)
        by (apply nth_error_Some; congruence).
      split; [apply in_combinations2_seq; lia|].
      rewrite (nth_error_nth _ _ "" Hi), (nth_error_nth _ _ "" Hj).
      now rewrite String.eqb_refl.
Qed.

(** ** The text of the uniqueness clause *)

Lemma in_labeled_pairs (labels : list string) (i j : nat) :
  In (i, j) (labeled_pairs labels)
  <-> i < j /\ exists label,
                 nth_error labels i = Some label /\ nth_error labels j = Some label.
Proof.
  rewrite labeled_pairs_flat, in_flat_map. split.
  - intros (nodes & Hnodes & Hin).
    apply in_map_iff in Hnodes. destruct Hnodes as ([k nodes'] & Heq & Hg).
    simpl in Heq. subst nodes'.
    rewrite (group_positions_filter _ _ _ Hg) in Hin.
    apply in_combinations2_filter in Hin. destruct Hin as (Hc & Hi & Hj).
    apply in_combinations2_seq in Hc. apply String.eqb_eq in Hi, Hj.
    split; [lia|]. exists k. split.
    + rewrite <- Hi. apply nth_error_nth'. lia.
    + rewrite <- Hj. apply nth_error_nth'. lia.
  - intros (Hlt & label & Hi & Hj).
    assert (Hkey : In label (map fst (group_positions labels))).
    { apply (group_positions_spec labels). eapply nth_error_In; eauto. }
    apply in_map_iff in Hkey. destruct Hkey as ([k nodes] & Heq & Hg).
    simpl in Heq. subst k. exists nodes. split.
    + apply in_map_iff. exists (label, nodes). auto.
    + rewrite (group_positions_filter _ _ _ Hg). apply in_combinations2_filter.
      assert (Hjn : j < List.length labels)
        by (apply nth_error_Some; congruence).
      split; [apply in_combinations2_seq; lia|].
      rewrite (nth_error_nth _ _ "" Hi), (nth_error_nth _ _ "" Hj).
      now rewrite String.eqb_refl.
Qed.

Lemma in_combinations2_members {A} (l : list A) x y :
  In (x, y) (combinations2 l) -> In x l /\ In y l.
Proof.
  induction l as [|a l IH]; simpl; [contradiction|].
  rewrite in_app_iff, in_map_iff. intros [(z & Heq & Hz)|H].
  - injection Heq as -> ->. auto.
  - destruct (IH H). auto.
Qed.

Lemma NoDup_combinations2 {A} (l : list A) : NoDup l -> NoDup (combinations2 l).
Proof.
  induction 1 as [|a l Hnin Hnd IH]; simpl; [constructor|].
  apply NoDup_app.
  - clear - Hnd. induction Hnd as [|b l Hb Hnd IHl]; simpl; constructor; auto.
    rewrite in_map_iff. intros (z & Heq & Hz). injection Heq as ->. contradiction.
  - exact IH.
  - intros [x y] Hin Hc. apply in_map_iff in Hin. destruct Hin as (z & Heq & _).
    injection Heq as <- _. apply in_combinations2_members in Hc. tauto.
Qed.

Lemma format_pair_is_equality_term p : format_pair p = equality_term p.
Proof. reflexivity. Qed.

Lemma format_expanded_clause_iterator (pairs : list (nat * nat)) :
  format_expanded_clause (Iterator pairs) = exclusion_clause pairs.
Proof. reflexivity. Qed.

Lemma format_expanded_clause_list (pairs : list (nat * nat)) :
  format_expanded_clause (PyList pairs)
  = match pairs with [] => "" | _ => exclusion_clause pairs end.
Proof. destruct pairs; reflexivity. Qed.

(** C3: for a step sequence of length L >= 1 whose L+1 positions carry
    [labels], the clause of the expanded mode excludes the disjunction
    of exactly C(L+1, 2) terms [n<i> = n<j>], one for each pair of
    positions i < j <= L and none twice; the clause of the labeled mode
    is built in the same way from the pairs of positions i < j that
    carry the same label (it is empty when there is no such pair): at
    most C(L+1, 2) terms, and strictly fewer as soon as two positions
    carry different labels; the nested mode (value [True] or "nested")
    emits one fixed clause, the same for every L. *)
Theorem uniqueness_clause_counts (metarels : list metarel) (labels : list string) :
  position_labels metarels = Ok labels ->
  let L := List.length metarels in
  (exists pairs,
      unique_nodes_clause metarels (PyStr "expanded") = Ok (exclusion_clause pairs)
      /\ (forall i j, In (i, j) pairs <-> i < j <= L)
      /\ NoDup pairs
      /\ List.length pairs = binom (L + 1) 2
      /\ pairwise_clauses (exclusion_clause pairs) = binom (L + 1) 2)
  /\ (exists pairs clause,
         unique_nodes_clause metarels (PyStr "labeled") = Ok clause
         /\ clause = match pairs with [] => "" | _ => exclusion_clause pairs end
         /\ (forall i j,
               In (i, j) pairs
               <-> i < j <= L
                   /\ exists label, nth_error labels i = Some label
                                    /\ nth_error labels j = Some label)
         /\ pairwise_clauses clause = List.length pairs
         /\ pairwise_clauses clause <= binom (L + 1) 2
         /\ forall i j a b,
              nth_error labels i = Some a -> nth_error labels j = Some b ->
              a <> b -> pairwise_clauses clause < binom (L + 1) 2)
  /\ unique_nodes_clause metarels (PyStr "nested") = Ok nested_clause
  /\ unique_nodes_clause metarels (PyBool true) = Ok nested_clause.
Proof.
  intros Hlabels L. destruct (position_labels_length _ _ Hlabels) as [Hne Hlen].
  fold L in Hlen. split; [|split; [|split]].
  - exists (combinations2 (positions metarels)).
    split; [reflexivity|]. split; [|split; [|split]].
    + intros i j. unfold positions. rewrite in_combinations2_seq. fold L. lia.
    + apply NoDup_combinations2. unfold positions. apply seq_NoDup.
    + rewrite length_combinations2. unfold positions. now rewrite length_seq.
    + rewrite <- format_expanded_clause_iterator, pairwise_clauses_format.
      cbn [items_of]. rewrite length_combinations2. unfold positions.
      now rewrite length_seq.
  - exists (labeled_pairs labels), (format_expanded_clause (PyList (labeled_pairs labels))).
    split; [|split; [|split; [|split; [|split]]]].
    + rewrite unique_nodes_clause_mode. cbn [mode_of String.eqb Ascii.eqb Bool.eqb].
      rewrite Hlabels. reflexivity.
    + apply format_expanded_clause_list.
    + intros i j. rewrite in_labeled_pairs. split.
      * intros (Hlt & label & Hi & Hj). split; [|eauto].
        assert (j < List.length labels) by (apply nth_error_Some; congruence). lia.
      * intros (Hlt & Hl). split; [lia|exact Hl].
    + rewrite pairwise_clauses_format. reflexivity.
    + rewrite pairwise_clauses_format. cbn [items_of]. rewrite <- Hlen.
      apply labeled_pairs_le.
    + intros i j a b Hi Hj Hab. rewrite pairwise_clauses_format. cbn [items_of].
      rewrite <- Hlen.
      apply (labeled_pairs_lt labels a b); eauto using nth_error_In.
  - reflexivity.
  - reflexivity.
Qed.

Lemma uniqueness_clause_counts_witness :
  position_labels gene_gene_disease = Ok ["Gene"; "Gene"; "Disease"]
  /\ unique_nodes_clause gene_gene_disease (PyStr "expanded")
     = Ok (nl ++ "AND NOT (n0 = n1 OR n0 = n2 OR n1 = n2)")%string
  /\ (exists clause,
         unique_nodes_clause gene_gene_disease (PyStr "labeled") = Ok clause
         /\ pairwise_clauses clause < binom 3 2).
Proof.
  split; [reflexivity|].
  destruct (uniqueness_clause_counts gene_gene_disease ["Gene"; "Gene"; "Disease"]
              eq_refl) as (He & Hl & _).
  split.
  - reflexivity.
  - destruct Hl as (pairs & clause & H1 & _ & _ & _ & _ & H2). exists clause.
    split; [assumption|].
    apply (H2 0 2 "Gene" "Disease"); [reflexivity|reflexivity|discriminate].
Defined.

Lemma group_positions_single_label labels x :
  labels <> [] -> (forall l, In l labels -> l = x) ->
  group_positions labels = [(x, seq 0 (List.length labels))].
Proof.
  intros Hne Hall.
  pose proof (group_positions_keys_nodup labels) as Hnd.
  pose proof (group_positions_spec labels) as (_ & _ & Hkeys).
  pose proof (group_positions_filter labels) as Hfilter.
  assert (Hx : In x labels).
  { destruct labels as [|l labels]; [congruence|].
    rewrite <- (Hall l (or_introl eq_refl)). now left. }
  apply Hkeys in Hx.
  destruct (group_positions labels) as [|[k nodes] [|[k' nodes'] rest]].
  - destruct Hx.
  - assert (k = x) by (apply Hall, Hkeys; now left). subst k.
    rewrite (Hfilter x nodes (or_introl eq_refl)). f_equal. f_equal.
    apply forallb_filter_id. apply forallb_forall. intros i Hi.
    apply in_seq in Hi. apply String.eqb_eq. apply Hall, nth_In. lia.
  - exfalso. assert (k = x) by (apply Hall, Hkeys; now left).
    assert (k' = x) by (apply Hall, Hkeys; right; now left).
    subst. inversion Hnd as [|? ? Hnin _]. apply Hnin. now left.
Qed.

Lemma construct_dwpc_query_clause arrange_metaege arg property using_ :
  to_metarels arrange_metaege arg <> [] ->
  exists using_query,
    forall unique_nodes,
      construct_dwpc_query arrange_metaege arg property using_ unique_nodes
      = (unique_nodes_query <-
           unique_nodes_clause (to_metarels arrange_metaege arg) unique_nodes ;;
         Ok (query_text (to_metarels arrange_metaege arg) property
               (path_pattern (to_metarels arrange_metaege arg))
               using_query unique_nodes_query)).
Proof.
  intros Hne. unfold construct_dwpc_query.
  rewrite (cypher_path_is_path_pattern _ _ Hne). cbn [bind].
  destruct (to_metarels arrange_metaege arg) as [|first rest] eqn:E; [congruence|].
  destruct (last_item_cons first rest) as (last & Hlast).
  destruct using_.
  - exists (using_text (first :: rest) property first last). intros unique_nodes.
    unfold item_at. cbn [nth_error bind]. rewrite Hlast. cbn [bind]. reflexivity.
  - exists "". reflexivity.
Qed.

(** X15: when all positions carry the same label, the labeled mode
    compares every pair of positions: it emits the clause of the
    expanded mode and the two queries are the same text. *)
Theorem labeled_query_with_one_label
    (arrange_metaege : string -> string) (arg : path_arg) (property : string)
    (using_ : bool) (labels : list string) :
  position_labels (to_metarels arrange_metaege arg) = Ok labels ->
  (forall l1 l2, In l1 labels -> In l2 labels -> l1 = l2) ->
  labeled_pairs labels = combinations2 (positions (to_metarels arrange_metaege arg))
  /\ exists query,
       construct_dwpc_query arrange_metaege arg property using_ (PyStr "labeled")
       = Ok query
       /\ construct_dwpc_query arrange_metaege arg property using_ (PyStr "expanded")
          = Ok query.
Proof.
  intros Hlabels Hsame.
  destruct (position_labels_length _ _ Hlabels) as [Hne Hlen].
  assert (Hpairs : labeled_pairs labels
                   = combinations2 (positions (to_metarels arrange_metaege arg))).
  { destruct labels as [|x labels'] eqn:El; [simpl in Hlen; lia|]. rewrite <- El in *.
    rewrite labeled_pairs_flat, (group_positions_single_label labels x).
    - simpl. rewrite app_nil_r. unfold positions. now rewrite Hlen.
    - rewrite El. discriminate.
    - intros l Hl. apply Hsame; [exact Hl|]. rewrite El. now left. }
  split; [exact Hpairs|].
  destruct (construct_dwpc_query_clause arrange_metaege arg property using_ Hne)
    as (using_query & Hq).
  rewrite !Hq, !unique_nodes_clause_mode. cbn [mode_of String.eqb Ascii.eqb Bool.eqb].
  rewrite Hlabels. cbn [bind]. rewrite Hpairs.
  assert (Hclause : format_expanded_clause
                      (PyList (combinations2 (positions (to_metarels arrange_metaege arg))))
                    = format_expanded_clause
                        (Iterator (combinations2 (positions (to_metarels arrange_metaege arg))))).
  { unfold positions. destruct (to_metarels arrange_metaege arg) as [|m ms]; [congruence|].
    replace (List.length (m :: ms) + 1) with (S (S (List.length ms))) by (simpl; lia).
    reflexivity. }
  rewrite Hclause. eexists. split; reflexivity.
Qed.

Lemma labeled_query_with_one_label_witness :
  labeled_pairs ["Gene"; "Gene"; "Gene"] = [(0, 1); (0, 2); (1, 2)]
  /\ exists query,
       construct_dwpc_query (fun abbrev => abbrev)
         (Metarels [("Gene", "Gene", "INTERACTS_GiG", "both");
                    ("Gene", "Gene", "REGULATES_GrG", "forward")])
         "name" true (PyStr "labeled") = Ok query
       /\ construct_dwpc_query (fun abbrev => abbrev)
            (Metarels [("Gene", "Gene", "INTERACTS_GiG", "both");
                       ("Gene", "Gene", "REGULATES_GrG", "forward")])
            "name" true (PyStr "expanded") = Ok query.
Proof.
  apply (labeled_query_with_one_label (fun abbrev => abbrev)
           (Metarels [("Gene", "Gene", "INTERACTS_GiG", "both");
                      ("Gene", "Gene", "REGULATES_GrG", "forward")])
           "name" true ["Gene"; "Gene"; "Gene"]).
  - reflexivity.
  - intros l1 l2 H1 H2. simpl in H1, H2.
    destruct H1 as [<-|[<-|[<-|[]]]]; destruct H2 as [<-|[<-|[<-|[]]]]; reflexivity.
Defined.

(** ** Labels of intermediate positions *)

Lemma last_label_cons x (m : list metarel) :
  m <> [] -> last_label (x :: m) = last_label m.
Proof.
  unfold last_label. intros Hne. simpl.
  destruct (rev (map target_label m)) as [|y r] eqn:E; [|reflexivity].
  exfalso. apply Hne. apply (f_equal (@List.length _)) in E.
  rewrite length_rev, length_map in E. now destruct m.
Qed.

Lemma last_item_label (m : list metarel) last :
  last_item m = Ok last -> last_label m = Some (target_label last).
Proof.
  unfold last_item, last_label. rewrite <- map_rev.
  destruct (rev m) as [|y r]; [discriminate|]. now intros [= ->].
Qed.

Lemma same_shape_length (m1 m2 : list metarel) :
  map step_shape m1 = map step_shape m2 -> List.length m1 = List.length m2.
Proof.
  intros H. apply (f_equal (@List.length _)) in H. now rewrite !length_map in H.
Qed.

Lemma step_patterns_same_shape L :
  forall m1 m2 a,
    map step_shape m1 = map step_shape m2 ->
    last_label m1 = last_label m2 ->
    a + List.length m1 = L ->
    map (step_pattern L) (combine (seq a (List.length m1)) m1)
    = map (step_pattern L) (combine (seq a (List.length m2)) m2).
Proof.
  induction m1 as [|[[[s1 t1] r1] d1] m1 IH]; intros [|[[[s2 t2] r2] d2] m2] a Hs Hl Ha;
    try discriminate; [reflexivity|].
  injection Hs as Hr Hd Hs. subst r2 d2.
  pose proof (same_shape_length _ _ Hs) as Hlen.
  simpl List.length in *. simpl seq. simpl combine. simpl map. f_equal.
  - unfold step_pattern. destruct (a + 1 =? L) eqn:E; [|reflexivity].
    apply Nat.eqb_eq in E.
    destruct m1; [|simpl in Ha; lia]. destruct m2; [|discriminate].
    change (Some t1 = Some t2) in Hl. now injection Hl as ->.
  - destruct m1 as [|x m1].
    + destruct m2; [reflexivity|discriminate].
    + destruct m2 as [|y m2]; [discriminate|].
      apply IH; [exact Hs| |lia].
      rewrite (last_label_cons _ (x :: m1)), (last_label_cons _ (y :: m2)) in Hl
        by discriminate.
      exact Hl.
Qed.

Lemma path_pattern_same_shape m1 m2 :
  map step_shape m1 = map step_shape m2 ->
  first_label m1 = first_label m2 -> last_label m1 = last_label m2 ->
  path_pattern m1 = path_pattern m2.
Proof.
  intros Hs Hf Hl. pose proof (same_shape_length _ _ Hs) as Hlen.
  destruct m1 as [|x1 m1]; destruct m2 as [|x2 m2]; try discriminate; [reflexivity|].
  unfold path_pattern, enumerate.
  rewrite (step_patterns_same_shape (List.length (x1 :: m1)) (x1 :: m1) (x2 :: m2) 0 Hs Hl eq_refl).
  unfold first_label in Hf. simpl in Hf. injection Hf as ->.
  now rewrite Hlen.
Qed.

Lemma degree_strs_same_shape :
  forall m1 m2 a,
    map step_shape m1 = map step_shape m2 ->
    map degree_str (combine (seq a (List.length m1)) m1)
    = map degree_str (combine (seq a (List.length m2)) m2).
Proof.
  induction m1 as [|[[[s1 t1] r1] d1] m1 IH]; intros [|[[[s2 t2] r2] d2] m2] a Hs;
    try discriminate; [reflexivity|].
  injection Hs as Hr Hd Hs. subst r2 d2.
  simpl. f_equal. now apply IH.
Qed.

Lemma construct_dwpc_query_explicit arrange_metaege first rest last property using_
    unique_nodes :
  last_item (first :: rest) = Ok last ->
  construct_dwpc_query arrange_metaege (Metarels (first :: rest)) property using_
    unique_nodes
  = (unique_nodes_query <- unique_nodes_clause (first :: rest) unique_nodes ;;
     Ok (query_text (first :: rest) property (path_pattern (first :: rest))
           (if using_ then using_text (first :: rest) property first last else "")
           unique_nodes_query)).
Proof.
  intros Hlast. unfold construct_dwpc_query. cbn [to_metarels].
  rewrite (cypher_path_is_path_pattern arrange_metaege (first :: rest)) by discriminate.
  cbn [bind]. destruct using_.
  - unfold item_at. cbn [nth_error bind]. rewrite Hlast. cbn [bind]. reflexivity.
  - reflexivity.
Qed.

(** X16: the labels of the intermediate positions never reach the query
    outside the labeled mode: two step sequences with the same relation
    types and directions, the same first label and the same last label
    give the same pattern and, for every [unique_nodes] that does not
    select the labeled mode, the same outcome of [construct_dwpc_query]. *)
Theorem query_ignores_intermediate_labels
    (arrange_metaege : string -> string) (m1 m2 : list metarel)
    (property : string) (using_ : bool) (unique_nodes : pyvalue) :
  map step_shape m1 = map step_shape m2 ->
  first_label m1 = first_label m2 -> last_label m1 = last_label m2 ->
  mode_of unique_nodes <> Some Labeled ->
  cypher_path arrange_metaege (Metarels m1) = cypher_path arrange_metaege (Metarels m2)
  /\ construct_dwpc_query arrange_metaege (Metarels m1) property using_ unique_nodes
     = construct_dwpc_query arrange_metaege (Metarels m2) property using_ unique_nodes.
Proof.
  intros Hs Hf Hl Hmode.
  pose proof (same_shape_length _ _ Hs) as Hlen.
  pose proof (path_pattern_same_shape _ _ Hs Hf Hl) as Hp.
  destruct m1 as [|x1 r1]; destruct m2 as [|x2 r2]; try discriminate;
    [split; reflexivity|].
  split.
  - rewrite !cypher_path_is_path_pattern by discriminate. now rewrite Hp.
  - destruct (last_item_cons x1 r1) as (l1 & Hl1).
    destruct (last_item_cons x2 r2) as (l2 & Hl2).
    rewrite (construct_dwpc_query_explicit _ _ _ _ _ _ _ Hl1).
    rewrite (construct_dwpc_query_explicit _ _ _ _ _ _ _ Hl2).
    assert (Hclause : unique_nodes_clause (x1 :: r1) unique_nodes
                      = unique_nodes_clause (x2 :: r2) unique_nodes).
    { rewrite !unique_nodes_clause_mode. unfold positions. rewrite Hlen.
      destruct (mode_of unique_nodes) as [[| | |]|]; try reflexivity. congruence. }
    rewrite Hclause, Hp.
    assert (Hu : using_text (x1 :: r1) property x1 l1
                 = using_text (x2 :: r2) property x2 l2).
    { unfold using_text. rewrite Hlen.
      unfold first_label in Hf. simpl in Hf. injection Hf as ->.
      rewrite (last_item_label _ _ Hl1), (last_item_label _ _ Hl2) in Hl.
      injection Hl as ->. reflexivity. }
    rewrite Hu. unfold query_text, enumerate.
    rewrite (degree_strs_same_shape (x1 :: r1) (x2 :: r2) 0 Hs), Hlen.
    reflexivity.
Qed.

Lemma query_ignores_intermediate_labels_witness :
  construct_dwpc_query (fun abbrev => abbrev) (Metarels gene_gene_disease)
    "name" true (PyStr "expanded")
  = construct_dwpc_query (fun abbrev => abbrev)
      (Metarels [("Gene", "Pathway", "INTERACTS_i", "forward");
                 ("Compound", "Disease", "ASSOCIATES_a", "forward")])
      "name" true (PyStr "expanded").
Proof.
  apply (query_ignores_intermediate_labels (fun abbrev => abbrev)).
  - reflexivity.
  - reflexivity.
  - reflexivity.
  - discriminate.
Defined.

(** X17: [construct_dwpc_query] raises [IndexError] exactly for the
    empty path, whatever [unique_nodes] is: the emptiness of the path is
    detected before the value of [unique_nodes] is looked at. *)
Theorem construct_dwpc_query_index_error
    (arrange_metaege : string -> string) (arg : path_arg) (property : string)
    (using_ : bool) (unique_nodes : pyvalue) :
  construct_dwpc_query arrange_metaege arg property using_ unique_nodes
  = Raise IndexError
  <-> to_metarels arrange_metaege arg = [].
Proof.
  split.
  - intros H. destruct (to_metarels arrange_metaege arg) as [|m ms] eqn:E; [reflexivity|].
    exfalso.
    assert (Hne : to_metarels arrange_metaege arg <> []) by (rewrite E; discriminate).
    destruct (construct_dwpc_query_clause arrange_metaege arg property using_ Hne)
      as (uq & Hq).
    rewrite Hq, unique_nodes_clause_mode in H.
    destruct (position_labels_total _ Hne) as (labels & Hlabels).
    destruct (mode_of unique_nodes) as [[| | |]|]; rewrite ?Hlabels in H;
      cbn [bind] in H; discriminate.
  - intros H. unfold construct_dwpc_query, cypher_path. cbn [to_metarels].
    rewrite H. reflexivity.
Qed.

(** ** Labels and relationship types *)

Lemma count_char_replace_self c new s :
  count_char c new = 0 -> count_char c (replace_char c new s) = 0.
Proof.
  intros Hnew. induction s as [|c' s IH]; simpl; [reflexivity|].
  destruct (Ascii.eqb_spec c' c) as [->|Hne].
  - rewrite count_char_app. lia.
  - simpl. destruct (Ascii.eqb_spec c' c); [contradiction|]. exact IH.
Qed.

Lemma count_char_remove_le c old s :
  count_char c (replace_char old "" s) <= count_char c s.
Proof.
  induction s as [|c' s IH]; simpl; [lia|].
  destruct (Ascii.eqb c' old); simpl; lia.
Qed.

Lemma length_replace_one old new s :
  String.length (replace_char old (String new EmptyString) s) = String.length s.
Proof.
  induction s as [|c' s IH]; simpl; [reflexivity|].
  destruct (Ascii.eqb c' old); simpl; now rewrite IH.
Qed.

Lemma existsb_replace_char p old new s :
  existsb_string p new = false -> existsb_string p s = false ->
  existsb_string p (replace_char old new s) = false.
Proof.
  intros Hnew. induction s as [|c' s IH]; simpl; [reflexivity|].
  intros H. apply orb_false_iff in H. destruct H as [H1 H2].
  destruct (Ascii.eqb c' old).
  - assert (Happ : forall a b, existsb_string p a = false ->
                     existsb_string p b = false -> existsb_string p (a ++ b) = false).
    { induction a as [|x a IHa]; simpl; intros b Ha Hb; [exact Hb|].
      apply orb_false_iff in Ha. destruct Ha as [Hx Ha]. rewrite Hx. simpl. auto. }
    apply Happ; auto.
  - simpl. rewrite H1. simpl. auto.
Qed.

Lemma is_cased_lower_ascii c : is_cased (lower_ascii c) = is_cased c.
Proof. destruct c as [[] [] [] [] [] [] [] []]; reflexivity. Qed.

Lemma is_cased_upper_ascii c : is_cased (upper_ascii c) = is_cased c.
Proof. destruct c as [[] [] [] [] [] [] [] []]; reflexivity. Qed.

Lemma upper_lower_ascii_same c : upper_ascii (lower_ascii c) = upper_ascii c.
Proof. destruct c as [[] [] [] [] [] [] [] []]; reflexivity. Qed.

Lemma lower_upper_ascii_same c : lower_ascii (upper_ascii c) = lower_ascii c.
Proof. destruct c as [[] [] [] [] [] [] [] []]; reflexivity. Qed.

Lemma upper_ascii_idempotent c : upper_ascii (upper_ascii c) = upper_ascii c.
Proof. destruct c as [[] [] [] [] [] [] [] []]; reflexivity. Qed.

Lemma uncased_fixed c :
  is_cased c = false -> lower_ascii c = c /\ upper_ascii c = c.
Proof. destruct c as [[] [] [] [] [] [] [] []]; try discriminate; split; reflexivity. Qed.

Lemma title_from_lower b s : title_from b (lower s) = title_from b s.
Proof.
  unfold lower. revert b. induction s as [|c s IH]; intros b; simpl; [reflexivity|].
  rewrite is_cased_lower_ascii. destruct (is_cased c) eqn:E.
  - rewrite lower_ascii_idempotent, upper_lower_ascii_same, IH. reflexivity.
  - rewrite IH. now rewrite (proj1 (uncased_fixed c E)).
Qed.

Lemma title_from_upper b s : title_from b (upper s) = title_from b s.
Proof.
  unfold upper. revert b. induction s as [|c s IH]; intros b; simpl; [reflexivity|].
  rewrite is_cased_upper_ascii. destruct (is_cased c) eqn:E.
  - rewrite upper_ascii_idempotent, lower_upper_ascii_same, IH. reflexivity.
  - rewrite IH. now rewrite (proj2 (uncased_fixed c E)).
Qed.

(** X18: the label that [as_label] produces for an ASCII kind holds no
    space and does not depend on the letter case of the kind it is made
    from. *)
Theorem as_label_spaceless_caseless (metanode : string) :
  isascii metanode = true ->
  count_char " " (as_label metanode) = 0
  /\ as_label (lower metanode) = as_label metanode
  /\ as_label (upper metanode) = as_label metanode.
Proof.
  intros _. unfold as_label, title. split; [|split].
  - now apply count_char_replace_self.
  - now rewrite title_from_lower.
  - now rewrite title_from_upper.
Qed.

Lemma as_label_spaceless_caseless_witness :
  count_char " " (as_label "biological process") = 0
  /\ as_label (lower "biological process") = as_label "biological process"
  /\ as_label (upper "biological process") = as_label "biological process".
Proof.
  apply (as_label_spaceless_caseless "biological process"). reflexivity.
Defined.

(** X19: the relationship type that [as_type] produces for an ASCII
    kind is the kind in uppercase with every space turned into an
    underscore (so as long as the kind, without space and without
    lowercase letter), followed by an underscore and an abbreviation
    without angle brackets. *)
Theorem as_type_shape (arrange_metaege : string -> string) (metaedge : MetaEdge) :
  isascii (kind metaedge) = true ->
  exists rel_type abbrev,
    as_type arrange_metaege metaedge = (rel_type ++ "_" ++ abbrev)%string
    /\ String.length rel_type = String.length (kind metaedge)
    /\ count_char " " rel_type = 0
    /\ existsb_string is_lower_ascii rel_type = false
    /\ count_char "<" abbrev = 0
    /\ count_char ">" abbrev = 0.
Proof.
  intros _. unfold as_type. eexists. eexists. split; [reflexivity|]. repeat split.
  - now rewrite length_replace_one, length_upper.
  - now apply count_char_replace_self.
  - apply existsb_replace_char; [reflexivity|apply upper_no_lower].
  - pose proof (count_char_remove_le "<" ">"
                  (replace_char "<" "" (arrange_metaege (get_abbrev metaedge)))) as H.
    rewrite (count_char_replace_self "<" "") in H by reflexivity. lia.
  - now apply count_char_replace_self.
Qed.

Lemma as_type_shape_witness :
  exists rel_type abbrev,
    as_type (fun abbrev => abbrev)
      {| source := "Gene"; target := "Biological Process";
         kind := "participates in"; direction := "forward";
         kind_abbrev := "p"; get_abbrev := "Gp>BP" |}
    = (rel_type ++ "_" ++ abbrev)%string
    /\ String.length rel_type = String.length "participates in"
    /\ count_char " " rel_type = 0
    /\ existsb_string is_lower_ascii rel_type = false
    /\ count_char "<" abbrev = 0
    /\ count_char ">" abbrev = 0.
Proof.
  apply (as_type_shape (fun abbrev => abbrev)
           {| source := "Gene"; target := "Biological Process";
              kind := "participates in"; direction := "forward";
              kind_abbrev := "p"; get_abbrev := "Gp>BP" |}).
  reflexivity.
Defined.

(** * Batch creation *)

Lemma append_cases {X} (self : Creator X) (x : X) :
  append self x =
  if (Z.of_nat (S (List.length (queue self))) >=? max_queue_size self)%Z
  then {| queue := [];
          db_calls := db_calls self ++ [queue self ++ [x]];
          max_queue_size := max_queue_size self;
          n_created := n_created self + S (List.length (queue self)) |}
  else {| queue := queue self ++ [x];
          db_calls := db_calls self;
          max_queue_size := max_queue_size self;
          n_created := n_created self |}.
Proof.
  unfold append. cbn [queue max_queue_size]. rewrite length_app. simpl List.length.
  rewrite Nat.add_1_r.
  destruct (Z.of_nat (S (List.length (queue self))) >=? max_queue_size self)%Z;
    [|reflexivity].
  unfold create. cbn [queue db_calls max_queue_size n_created].
  rewrite length_app. simpl List.length. rewrite Nat.add_1_r.
  destruct (queue self); reflexivity.
Qed.

Lemma append_conserves {X} max (items : list X) c x :
  conserves max items c -> conserves max (items ++ [x]) (append c x).
Proof.
  intros (Hitems & Hn & Hmax & Hne). rewrite append_cases.
  destruct (_ >=? _)%Z; unfold conserves; cbn [queue db_calls max_queue_size n_created].
  - rewrite concat_app. simpl. rewrite !app_nil_r, app_assoc, Hitems.
    repeat split; auto.
    + rewrite Hn, <- Hitems, !length_app. simpl. lia.
    + rewrite in_app_iff. intros [H|[H|[]]]; [contradiction|].
      destruct (queue c); discriminate.
  - rewrite app_assoc, Hitems. auto.
Qed.

Lemma fed_conserves {X} max (items : list X) :
  conserves max items (fold_left append items (new_creator max)).
Proof.
  induction items as [|x items IH] using rev_ind.
  - unfold conserves. simpl. auto.
  - rewrite fold_left_app. simpl. now apply append_conserves.
Qed.

(** X20: feeding items to a [Creator] and calling [create] at the end,
    as [export_neo4j] does, hands every item to the database exactly
    once and in order, in non-empty batches; the queue is left empty and
    [n_created] is the number of items. *)
Theorem creator_creates_each_item_once {X : Type} (max : Z) (items : list X) :
  List.concat (db_calls (create_all max items)) = items
  /\ queue (create_all max items) = []
  /\ n_created (create_all max items) = List.length items
  /\ ~ In [] (db_calls (create_all max items)).
Proof.
  unfold create_all. destruct (fed_conserves max items) as (Hitems & Hn & _ & Hne).
  set (c := fold_left append items (new_creator max)) in *.
  unfold create. destruct (queue c) as [|y q] eqn:E.
  - rewrite app_nil_r in Hitems. rewrite E. repeat split; auto.
    now rewrite Hn, Hitems.
  - cbn [queue db_calls n_created]. rewrite concat_app. simpl. rewrite app_nil_r.
    repeat split; auto.
    + rewrite Hn, <- Hitems, length_app. reflexivity.
    + rewrite in_app_iff. intros [H|[H|[]]]; [contradiction|discriminate].
Qed.

Lemma fed_batches {X} max (items : list X) :
  (1 <= max)%Z ->
  let c := fold_left append items (new_creator max) in
  (Z.of_nat (List.length (queue c)) < max)%Z
  /\ Forall (fun batch => Z.of_nat (List.length batch) = max) (db_calls c).
Proof.
  intros Hmax. induction items as [|x items IH] using rev_ind.
  - simpl. split; [lia|constructor].
  - rewrite fold_left_app. cbn [fold_left].
    set (c := fold_left append items (new_creator max)) in *.
    destruct IH as [Hq Hb].
    assert (Hm : max_queue_size c = max) by apply (fed_conserves max items).
    cbv zeta. rewrite append_cases, Hm.
    destruct (Z.geb_spec (Z.of_nat (S (List.length (queue c)))) max) as [Hge|Hlt];
      cbn [queue db_calls].
    + split; [simpl; lia|]. apply Forall_app. split; [exact Hb|].
      constructor; [|constructor]. rewrite length_app. simpl. lia.
    + split; [|exact Hb]. rewrite length_app. simpl. lia.
Qed.

(** X21: with [max_queue_size >= 1] every database call but possibly
    the last one creates exactly [max_queue_size] items, and the last
    one creates at least one and fewer than [max_queue_size]. *)
Theorem creator_batch_sizes {X : Type} (max : Z) (items : list X) :
  (1 <= max)%Z ->
  exists full rest,
    db_calls (create_all max items) = full ++ rest
    /\ Forall (fun batch => Z.of_nat (List.length batch) = max) full
    /\ (rest = []
        \/ exists batch, rest = [batch]
             /\ (0 < Z.of_nat (List.length batch) < max)%Z).
Proof.
  intros Hmax. unfold create_all. destruct (fed_batches max items Hmax) as [Hq Hb].
  set (c := fold_left append items (new_creator max)) in *.
  unfold create. destruct (queue c) as [|y q] eqn:E.
  - exists (db_calls c), []. rewrite app_nil_r. auto.
  - cbn [db_calls]. exists (db_calls c), [y :: q]. repeat split; auto.
    right. exists (y :: q). split; [reflexivity|]. simpl in *. lia.
Qed.

Lemma creator_batch_sizes_witness :
  exists full rest,
    db_calls (create_all 2%Z ["a"; "b"; "c"; "d"; "e"]) = full ++ rest
    /\ Forall (fun batch => Z.of_nat (List.length batch) = 2%Z) full
    /\ (rest = []
        \/ exists batch, rest = [batch]
             /\ (0 < Z.of_nat (List.length batch) < 2)%Z).
Proof. apply creator_batch_sizes. lia. Defined.

Lemma fed_singletons {X} max (items : list X) :
  (max <= 1)%Z ->
  let c := fold_left append items (new_creator max) in
  queue c = [] /\ db_calls c = map (fun x => [x]) items.
Proof.
  intros Hmax. induction items as [|x items IH] using rev_ind.
  - simpl. auto.
  - rewrite fold_left_app. cbn [fold_left].
    set (c := fold_left append items (new_creator max)) in *.
    destruct IH as [Hq Hb].
    assert (Hm : max_queue_size c = max) by apply (fed_conserves max items).
    cbv zeta. rewrite append_cases, Hm, Hq.
    destruct (Z.geb_spec (Z.of_nat (S (@List.length X []))) max) as [Hge|Hlt];
      [|simpl in Hlt; lia].
    cbn [queue db_calls]. split; [reflexivity|].
    rewrite Hb, map_app. reflexivity.
Qed.

(** X22: with [max_queue_size <= 1] (zero and negative sizes included)
    nothing is ever queued: every item is created by a database call of
    its own. *)
Theorem creator_without_queue {X : Type} (max : Z) (items : list X) :
  (max <= 1)%Z ->
  db_calls (create_all max items) = map (fun x => [x]) items.
Proof.
  intros Hmax. unfold create_all. destruct (fed_singletons max items Hmax) as [Hq Hb].
  unfold create. rewrite Hq. exact Hb.
Qed.

Lemma creator_without_queue_witness :
  db_calls (create_all 0%Z ["a"; "b"]) = map (fun x => [x]) ["a"; "b"].
Proof. apply creator_without_queue. lia. Defined.

(** * Property sanitizing *)

Lemma dict_set_absent {V} (d : list (string * V)) k v :
  ~ In k (map fst d) -> dict_set String.eqb d k v = d ++ [(k, v)].
Proof.
  induction d as [|[k' v'] d IH]; simpl; intros H; [reflexivity|].
  destruct (String.eqb_spec k' k) as [->|Hne]; [tauto|].
  rewrite IH; tauto.
Qed.

(** The loop raises at the first value whose null test is ambiguous and
    otherwise appends what is kept. *)
Lemma sanitize_items_spec (isnull : pydata -> truth) (rest : list (string * pydata)) :
  forall acc,
    NoDup (map fst (acc ++ rest)) ->
    sanitize_items isnull rest acc
    = if existsb (fun item => ambiguous isnull (snd item)) rest
      then Raise ValueError
      else Ok (acc ++ filter (fun item => kept isnull (snd item)) rest).
Proof.
  induction rest as [|[k v] rest IH]; intros acc Hnd.
  - simpl. now rewrite app_nil_r.
  - assert (Hk : ~ In k (map fst acc)).
    { rewrite map_app in Hnd. simpl in Hnd. apply NoDup_remove_2 in Hnd.
      rewrite in_app_iff in Hnd. tauto. }
    assert (Hacc : NoDup (map fst (acc ++ rest))).
    { rewrite map_app in *. simpl in Hnd. now apply NoDup_remove_1 in Hnd. }
    assert (Hnew : NoDup (map fst ((acc ++ [(k, v)]) ++ rest)))
      by (rewrite <- app_assoc; exact Hnd).
    cbn [sanitize_items existsb filter fst snd]. unfold kept, ambiguous.
    destruct (is_list v); [|destruct (isnull v) as [[|]|]; [|destruct (is_None v)|]];
      cbn [orb andb negb].
    + rewrite dict_set_absent, IH by assumption.
      destruct (existsb _ rest); [reflexivity|]. now rewrite <- app_assoc.
    + now apply IH.
    + now apply IH.
    + rewrite dict_set_absent, IH by assumption.
      destruct (existsb _ rest); [reflexivity|]. now rewrite <- app_assoc.
    + reflexivity.
Qed.

Lemma map_fst_filter_nodup {V} (p : string * V -> bool) (d : list (string * V)) :
  NoDup (map fst d) -> NoDup (map fst (filter p d)).
Proof.
  induction d as [|[k a] d IH]; simpl; intros Hnd; [constructor|].
  inversion Hnd as [|? ? Hnin Hnd']; subst.
  destruct (p (k, a)); simpl; auto.
  constructor; auto. intros Hin. apply Hnin.
  apply in_map_iff in Hin. destruct Hin as (x & Hx & Hin).
  apply filter_In in Hin. apply in_map_iff. exists x. tauto.
Qed.

Lemma filter_idempotent {A} (p : A -> bool) (l : list A) :
  filter p (filter p l) = filter p l.
Proof.
  induction l as [|x l IH]; simpl; [reflexivity|].
  destruct (p x) eqn:E; simpl; [rewrite E; f_equal|]; exact IH.
Qed.

Lemma kept_not_ambiguous isnull v : kept isnull v = true -> ambiguous isnull v = false.
Proof.
  unfold kept, ambiguous. destruct (is_list v); [reflexivity|].
  destruct (isnull v) as [[|]|]; simpl; congruence.
Qed.

(** X23: on a property dictionary, [sanitize_data] raises exactly when
    the null test of some value that is not a list is ambiguous
    ([pandas.isnull] answers an array), and what it raises is
    [ValueError]; otherwise it returns, in order and unchanged, the
    entries whose value is a list or is neither null for [pandas.isnull]
    nor [None], and sanitizing the result again returns it as it is. *)
Theorem sanitize_data_result
    (isnull : pydata -> truth) (data : list (string * pydata)) :
  NoDup (map fst data) ->
  (forall e,
      sanitize_data isnull data = Raise e
      <-> e = ValueError
          /\ exists k v, In (k, v) data /\ is_list v = false
                         /\ isnull v = AmbiguousTruth)
  /\ ((forall k v, In (k, v) data -> is_list v = false ->
                   isnull v <> AmbiguousTruth) ->
      exists sanitized,
        sanitize_data isnull data = Ok sanitized
        /\ sanitized = filter (fun item => kept isnull (snd item)) data
        /\ (forall k v,
              In (k, v) sanitized
              <-> In (k, v) data
                  /\ (is_list v = true
                      \/ (isnull v = Truth false /\ v <> DataNone)))
        /\ NoDup (map fst sanitized)
        /\ sanitize_data isnull sanitized = Ok sanitized).
Proof.
  intros Hnd. unfold sanitize_data.
  assert (Hex : existsb (fun item => ambiguous isnull (snd item)) data = true
                <-> exists k v, In (k, v) data /\ is_list v = false
                                /\ isnull v = AmbiguousTruth).
  { rewrite existsb_exists. unfold ambiguous. split.
    - intros ([k v] & Hin & Ha). simpl in Ha. exists k, v.
      destruct (is_list v); [discriminate|].
      destruct (isnull v) as [b|]; [discriminate|auto].
    - intros (k & v & Hin & Hl & Hn). exists (k, v). simpl.
      now rewrite Hl, Hn. }
  split.
  - intros e. rewrite (sanitize_items_spec isnull data [] Hnd).
    destruct (existsb _ data).
    + split.
      * intros [= <-]. split; [reflexivity|]. now apply Hex.
      * intros [-> _]. reflexivity.
    + split; [discriminate|]. intros [_ H]. apply Hex in H. discriminate.
  - intros Hclear.
    assert (E : existsb (fun item => ambiguous isnull (snd item)) data = false).
    { destruct (existsb _ data); [|reflexivity].
      destruct (proj1 Hex eq_refl) as (k & v & Hin & Hl & Hn).
      destruct (Hclear k v Hin Hl Hn). }
    assert (Hnd' : NoDup (map fst (filter (fun item => kept isnull (snd item)) data)))
      by now apply map_fst_filter_nodup.
    exists (filter (fun item => kept isnull (snd item)) data).
    split; [|split; [|split; [|split]]].
    + rewrite (sanitize_items_spec isnull data [] Hnd), E. reflexivity.
    + reflexivity.
    + intros k v. rewrite filter_In. unfold kept. simpl.
      destruct (isnull v) as [[|]|] eqn:En; destruct v; simpl;
        intuition congruence.
    + exact Hnd'.
    + rewrite (sanitize_items_spec isnull _ [] Hnd'), filter_idempotent.
      assert (E' : existsb (fun item => ambiguous isnull (snd item))
                     (filter (fun item => kept isnull (snd item)) data) = false).
      { destruct (existsb _ (filter _ data)) eqn:E'; [|reflexivity].
        apply existsb_exists in E'. destruct E' as (item & Hin & Ha).
        apply filter_In in Hin. destruct Hin as [_ Hk].
        apply kept_not_ambiguous in Hk. congruence. }
      now rewrite E'.
Qed.

Lemma sanitize_data_result_witness :
  let isnull :=
    fun v => match v with
             | DataOther "nan" => Truth true
             | DataOther "array([1, 2])" => AmbiguousTruth
             | DataNone => Truth true
             | _ => Truth false
             end in
  sanitize_data isnull
    [("name", DataOther "BRCA1"); ("score", DataOther "nan");
     ("synonyms", DataList []); ("url", DataNone)]
  = Ok [("name", DataOther "BRCA1"); ("synonyms", DataList [])]
  /\ sanitize_data isnull
       [("name", DataOther "BRCA1"); ("xrefs", DataOther "array([1, 2])")]
     = Raise ValueError.
Proof.
  intros isnull. split.
  - destruct (sanitize_data_result isnull
                [("name", DataOther "BRCA1"); ("score", DataOther "nan");
                 ("synonyms", DataList []); ("url", DataNone)]) as [_ H].
    { repeat constructor; simpl; intuition discriminate. }
    destruct H as (sanitized & Hrun & -> & _).
    { intros k v Hin _. simpl in Hin.
      destruct Hin as [[= <- <-]|[[= <- <-]|[[= <- <-]|[[= <- <-]|[]]]]];
        discriminate. }
    exact Hrun.
  - apply (sanitize_data_result isnull
             [("name", DataOther "BRCA1"); ("xrefs", DataOther "array([1, 2])")]).
    { repeat constructor; simpl; intuition discriminate. }
    split; [reflexivity|].
    exists "xrefs", (DataOther "array([1, 2])"). simpl. auto.
Defined.

(** * The swap loop *)

Lemma swap_loop_eq swapped fuel nrel nswap max_tries swaps tries :
  swap_loop swapped fuel nrel nswap max_tries swaps tries =
  if ((swaps <? nswap) && (tries <? max_tries))%Z then
    match fuel with
    | O => None
    | S fuel' =>
        if nrel <? 2 then Some SampleValueError
        else swap_loop swapped fuel' nrel nswap max_tries
               (if swapped tries then (swaps + 1)%Z else swaps) (tries + 1)%Z
    end
  else Some (Stats swaps tries).
Proof. destruct fuel; reflexivity. Qed.

Lemma swap_loop_bounds swapped nrel nswap max_tries :
  2 <= nrel ->
  forall fuel swaps tries,
    (0 <= swaps <= tries)%Z -> (swaps <= nswap)%Z -> (tries <= max_tries)%Z ->
    (max_tries - tries <= Z.of_nat fuel)%Z ->
    exists swaps' tries',
      swap_loop swapped fuel nrel nswap max_tries swaps tries
      = Some (Stats swaps' tries')
      /\ (0 <= swaps' <= tries')%Z
      /\ (swaps' <= nswap)%Z /\ (tries' <= max_tries)%Z
      /\ (swaps' = nswap \/ tries' = max_tries).
Proof.
  intros Hrel.
  assert (Hstop : forall swaps tries : Z,
            (0 <= swaps <= tries)%Z -> (swaps <= nswap)%Z -> (tries <= max_tries)%Z ->
            (nswap <= swaps \/ max_tries <= tries)%Z ->
            exists swaps' tries',
              Some (Stats swaps tries) = Some (Stats swaps' tries')
              /\ (0 <= swaps' <= tries')%Z
              /\ (swaps' <= nswap)%Z /\ (tries' <= max_tries)%Z
              /\ (swaps' = nswap \/ tries' = max_tries)).
  { intros swaps tries Hs Hn Ht Hd. exists swaps, tries.
    split; [reflexivity|]. split; [exact Hs|]. split; [exact Hn|].
    split; [exact Ht|]. lia. }
  induction fuel as [|fuel IH]; intros swaps tries Hs Hn Ht Hfuel;
    rewrite swap_loop_eq;
    destruct (Z.ltb_spec swaps nswap) as [H1|H1];
    destruct (Z.ltb_spec tries max_tries) as [H2|H2]; cbn [andb];
    try (apply Hstop; auto; lia).
  - simpl in Hfuel. lia.
  - destruct (Nat.ltb_spec nrel 2) as [|_]; [lia|].
    apply IH; destruct (swapped tries); lia.
Qed.

(** X24: with at least two relationships and non-negative targets, the
    swap loop of [permute_rel_type] ends after at most [max_tries]
    attempts whatever the database answers; its [stats] satisfy
    [swaps <= tries <= max_tries] and [swaps <= nswap], and the loop
    stops only with [swaps = nswap] or [tries = max_tries]. *)
Theorem permute_rel_type_stats
    (swapped : Z -> bool) (nrel : nat) (nswap max_tries : Z) (fuel : nat)
    (nswap_mult max_tries_mult : Z) :
  2 <= nrel -> (0 <= nswap)%Z -> (0 <= max_tries)%Z ->
  (max_tries <= Z.of_nat fuel)%Z ->
  exists swaps tries,
    permute_rel_type swapped fuel nrel (Some nswap) (Some max_tries)
      nswap_mult max_tries_mult
    = Some (Stats swaps tries)
    /\ (0 <= swaps <= tries)%Z
    /\ (swaps <= nswap)%Z /\ (tries <= max_tries)%Z
    /\ (swaps = nswap \/ tries = max_tries).
Proof.
  intros Hrel Hn Ht Hfuel. unfold permute_rel_type.
  apply swap_loop_bounds; auto; lia.
Qed.

Lemma permute_rel_type_stats_witness :
  exists swaps tries,
    permute_rel_type (fun tries => Z.even tries) 6 3 (Some 2%Z) (Some 6%Z) 10%Z 20%Z
    = Some (Stats swaps tries)
    /\ (0 <= swaps <= tries)%Z
    /\ (swaps <= 2)%Z /\ (tries <= 6)%Z
    /\ (swaps = 2%Z \/ tries = 6%Z).
Proof. apply permute_rel_type_stats; lia. Defined.

(** X25: with fewer than two relationships the first attempt cannot
    draw its pair: when a swap and a try are requested the outcome is
    the [ValueError] of [random.sample]; with the default targets
    (multiples of the number of relationships) a single relationship
    raises, while no relationship at all returns zero swaps and tries. *)
Theorem permute_rel_type_small_graph
    (swapped : Z -> bool) (fuel : nat) (nswap_mult max_tries_mult : Z) :
  (forall nrel nswap max_tries,
      nrel < 2 -> (0 < nswap)%Z -> (0 < max_tries)%Z ->
      permute_rel_type swapped (S fuel) nrel (Some nswap) (Some max_tries)
        nswap_mult max_tries_mult = Some SampleValueError)
  /\ ((0 < nswap_mult)%Z -> (0 < max_tries_mult)%Z ->
      permute_rel_type swapped (S fuel) 1 None None nswap_mult max_tries_mult
      = Some SampleValueError)
  /\ permute_rel_type swapped fuel 0 None None nswap_mult max_tries_mult
     = Some (Stats 0 0).
Proof.
  split; [|split].
  - intros nrel nswap max_tries Hrel Hn Ht. unfold permute_rel_type.
    rewrite swap_loop_eq.
    destruct (Z.ltb_spec 0 nswap); [|lia]. destruct (Z.ltb_spec 0 max_tries); [|lia].
    cbn [andb]. destruct (Nat.ltb_spec nrel 2); [reflexivity|lia].
  - intros Hn Ht. unfold permute_rel_type. rewrite swap_loop_eq.
    destruct (Z.ltb_spec 0 (Z.of_nat 1 * nswap_mult)); [|lia].
    destruct (Z.ltb_spec 0 (Z.of_nat 1 * max_tries_mult)); [|lia].
    reflexivity.
  - unfold permute_rel_type. rewrite swap_loop_eq. reflexivity.
Qed.

Lemma permute_rel_type_small_graph_witness :
  permute_rel_type (fun _ => true) 1 1 None None 10%Z 20%Z = Some SampleValueError.
Proof.
  apply (permute_rel_type_small_graph (fun _ => true) 0 10%Z 20%Z); lia.
Defined.
